(** * The cross-runtime value bridge of [bridge.go]

    A shallow embedding of the Go side of the QML bridge: the value-fold
    registry ([wrapGoValue], [hookGoValueTypeNew], [ensureEngine],
    [hookGoValueDestroyed]), the change notifier ([Changed]), the
    reentrant lock ([Lock], [Unlock], [hookIdleTimer]), the call
    dispatcher ([gui]) and the field-write conversion ([convertAndSet]).

    Go pointers are addresses into explicit heaps, Go maps are finite
    maps, a [panic] is an outcome of its own that keeps the state reached
    so far, and every call into C++ is recorded, in order, in a log. *)

From Stdlib Require Import ZArith String List Lia.
From stdpp Require Import base decidable option countable strings list gmap fin_maps fin_sets.

Local Open Scope Z_scope.
Local Open Scope string_scope.
Local Open Scope list_scope.

(** ** Go values as seen through [reflect] *)

(** The kinds of [reflect.Kind] that the bridge distinguishes. *)
Inductive Kind :=
  | Invalid | Bool | Int | Float64 | String | Struct | Ptr | Slice | Func | Interface.

#[global] Instance Kind_eq_dec : EqDecision Kind.
Proof. solve_decision. Defined.

Definition Kind_to_nat (k : Kind) : nat :=
  match k with
  | Invalid => 0 | Bool => 1 | Int => 2 | Float64 => 3 | String => 4
  | Struct => 5 | Ptr => 6 | Slice => 7 | Func => 8 | Interface => 9
  end%nat.

Definition Kind_of_nat (n : nat) : Kind :=
  match n with
  | 1 => Bool | 2 => Int | 3 => Float64 | 4 => String
  | 5 => Struct | 6 => Ptr | 7 => Slice | 8 => Func | 9 => Interface
  | _ => Invalid
  end%nat.

#[global] Instance Kind_countable : Countable Kind.
Proof.
  apply (inj_countable' Kind_to_nat Kind_of_nat). intros []; reflexivity.
Defined.

(** A value held in an [interface{}].  Two interface values are the same
    map key when their dynamic type and value agree; [ident] stands for
    the value (the address, for a pointer).  [elemKind] is the kind of
    [reflect.ValueOf(v).Elem()] for a pointer, [isHashable] the answer
    of the repository's [hashable] helper, [typeName] is
    [reflect.ValueOf(v).Type().Name()]. *)
Record GoValue := mkGoValue {
  kind : Kind;
  elemKind : Kind;
  isHashable : bool;
  typeName : string;
  ident : N
}.

#[global] Instance GoValue_eq_dec : EqDecision GoValue.
Proof. solve_decision. Defined.

#[global] Instance GoValue_countable : Countable GoValue.
Proof.
  apply (inj_countable'
    (λ v, (kind v, elemKind v, isHashable v, typeName v, ident v))
    (λ t, match t with (k, e, h, n, i) => mkGoValue k e h n i end)).
  intros []; reflexivity.
Defined.

Definition hashable (v : GoValue) : bool := isHashable v.

(** ** Pointers, folds and engines *)

(** [unsafe.Pointer] into C++ land; [nilPtr] is the null address. *)
Definition cptr := N.
Definition nilPtr : cptr := 0%N.

(** [*valueFold] and [*Engine]: addresses into the Go heap; a nil pointer
    is [None] where the source can hold one. *)
Definition foldp := nat.
Definition enginep := nat.

(** [type valueOwner uint8] with [cppOwner = 1 << iota] and [jsOwner]. *)
Definition valueOwner := Z.
Definition cppOwner : valueOwner := Z.shiftl 1 0.
Definition jsOwner : valueOwner := Z.shiftl 1 1.

(** The [Init] function of a [TypeSpec], as [hookGoValueTypeNew] uses it:
    its identity and the kind of [init.Type().In(0).Elem()]. *)
Record TypeSpec := mkTypeSpec {
  Init : nat;
  initElemKind : Kind
}.

Record valueFold := mkFold {
  engine : option enginep;
  gvalue : GoValue;
  cvalue : cptr;
  init : option nat;
  prev : option foldp;
  next : option foldp;
  owner : valueOwner
}.

(** The fields of [Engine] that [bridge.go] reads and writes.  No code
    path stores a nil fold in [values], so a missing key and a nil entry
    coincide. *)
Record Engine := mkEngine {
  addr : cptr;
  values : gmap GoValue foldp;
  destroyed : bool
}.

(** ** Calls into C++ and into host callbacks, as logged events *)

(** [initCall fold f v e c] is [fold.init.Call] of initializer [f] on the
    value [v] and the wrapper [&Common{engine: e, addr: c}]; the fold is
    recorded to tell the calls of different folds apart. *)

Inductive event :=
  | newGoValue (fold : foldp) (tinfo : GoValue) (parent : cptr) (result : cptr)
  | engineSetContextForObject (eaddr : cptr) (c : cptr)
  | engineSetOwnershipCPP (eaddr : cptr) (c : cptr)
  | engineSetOwnershipJS (eaddr : cptr) (c : cptr)
  | goValueActivate (c : cptr) (tinfo : GoValue) (offset : Z)
  | initCall (fold : foldp) (f : nat) (v : GoValue) (objEngine : enginep) (objAddr : cptr)
  | idleTimerStart
  | applicationFlushAll.

#[global] Instance event_eq_dec : EqDecision event.
Proof. solve_decision. Defined.

(** ** The process state *)

(** [heap] and [eheap] are the Go heap cells of type [valueFold] and
    [Engine]; [engines], [typeNew], [guiLock], [guiLoopRef],
    [guiPaintRef] and [hookWaiting] are the package variables of the
    same names; [valuesAlive] is the counter behind
    [stats.valuesAlive]; [alive] is specification-only: the folds that
    counter counts (created and not yet reported destroyed); [log] is the
    sequence of calls made so far, oldest first. *)
Record state := mkState {
  heap : gmap foldp valueFold;
  eheap : gmap enginep Engine;
  engines : gmap cptr enginep;
  typeNew : gset foldp;
  guiLock : Z;
  guiLoopRef : Z;
  guiPaintRef : Z;
  hookWaiting : Z;
  valuesAlive : Z;
  alive : gset foldp;
  log : list event
}.

Definition set_heap (h : gmap foldp valueFold) (σ : state) : state :=
  mkState h (eheap σ) (engines σ) (typeNew σ) (guiLock σ) (guiLoopRef σ)
          (guiPaintRef σ) (hookWaiting σ) (valuesAlive σ) (alive σ) (log σ).
Definition set_eheap (h : gmap enginep Engine) (σ : state) : state :=
  mkState (heap σ) h (engines σ) (typeNew σ) (guiLock σ) (guiLoopRef σ)
          (guiPaintRef σ) (hookWaiting σ) (valuesAlive σ) (alive σ) (log σ).
Definition set_engines (m : gmap cptr enginep) (σ : state) : state :=
  mkState (heap σ) (eheap σ) m (typeNew σ) (guiLock σ) (guiLoopRef σ)
          (guiPaintRef σ) (hookWaiting σ) (valuesAlive σ) (alive σ) (log σ).
Definition set_typeNew (s : gset foldp) (σ : state) : state :=
  mkState (heap σ) (eheap σ) (engines σ) s (guiLock σ) (guiLoopRef σ)
          (guiPaintRef σ) (hookWaiting σ) (valuesAlive σ) (alive σ) (log σ).
Definition set_guiLock (n : Z) (σ : state) : state :=
  mkState (heap σ) (eheap σ) (engines σ) (typeNew σ) n (guiLoopRef σ)
          (guiPaintRef σ) (hookWaiting σ) (valuesAlive σ) (alive σ) (log σ).
Definition set_guiPaintRef (r : Z) (σ : state) : state :=
  mkState (heap σ) (eheap σ) (engines σ) (typeNew σ) (guiLock σ) (guiLoopRef σ)
          r (hookWaiting σ) (valuesAlive σ) (alive σ) (log σ).
Definition set_hookWaiting (n : Z) (σ : state) : state :=
  mkState (heap σ) (eheap σ) (engines σ) (typeNew σ) (guiLock σ) (guiLoopRef σ)
          (guiPaintRef σ) n (valuesAlive σ) (alive σ) (log σ).
Definition set_alive (n : Z) (s : gset foldp) (σ : state) : state :=
  mkState (heap σ) (eheap σ) (engines σ) (typeNew σ) (guiLock σ) (guiLoopRef σ)
          (guiPaintRef σ) (hookWaiting σ) n s (log σ).
Definition set_log (l : list event) (σ : state) : state :=
  mkState (heap σ) (eheap σ) (engines σ) (typeNew σ) (guiLock σ) (guiLoopRef σ)
          (guiPaintRef σ) (hookWaiting σ) (valuesAlive σ) (alive σ) l.

(** ** Computations that may panic *)

(** A call returns, panics (the state reached so far is kept), or never
    comes back from a loop. *)
Inductive outcome (A : Type) :=
  | Return (a : A) (σ : state)
  | Panicked (msg : string) (σ : state)
  | Diverged (σ : state).
Arguments Return {A} a σ.
Arguments Panicked {A} msg σ.
Arguments Diverged {A} σ.

Definition M (A : Type) : Type := state → outcome A.

Definition ret {A} (a : A) : M A := λ σ, Return a σ.
Definition bind {A B} (m : M A) (k : A → M B) : M B :=
  λ σ, match m σ with
       | Return a σ' => k a σ'
       | Panicked msg σ' => Panicked msg σ'
       | Diverged σ' => Diverged σ'
       end.
Definition panic {A} (msg : string) : M A := λ σ, Panicked msg σ.
Definition gets {A} (f : state → A) : M A := λ σ, Return (f σ) σ.
Definition modify (f : state → state) : M unit := λ σ, Return tt (f σ).

Notation "'let*' x ':=' m 'in' k" := (bind m (λ x, k))
  (at level 10, x name, m at level 100, k at level 200).
Notation "m ';;' k" := (bind m (λ _, k))
  (at level 100, k at level 200, right associativity).

(** The state an outcome ends in, whether it returned or panicked. *)
Definition final {A} (o : outcome A) : state :=
  match o with Return _ σ => σ | Panicked _ σ => σ | Diverged σ => σ end.

Definition returned {A} (o : outcome A) : bool :=
  match o with Return _ _ => true | _ => false end.

(** Dereferencing: a nil or dangling pointer is a run-time panic. *)
Definition nilDeref : string := "runtime error: invalid memory address or nil pointer dereference".

Definition load_fold (p : foldp) : M valueFold :=
  λ σ, match heap σ !! p with
       | Some F => Return F σ
       | None => Panicked nilDeref σ
       end.
Definition load_engine (e : enginep) : M Engine :=
  λ σ, match eheap σ !! e with
       | Some E => Return E σ
       | None => Panicked nilDeref σ
       end.

Definition update_fold (p : foldp) (f : valueFold → valueFold) : M unit :=
  let* _ := load_fold p in
  modify (λ σ, set_heap (alter f p (heap σ)) σ).
Definition update_engine (e : enginep) (f : Engine → Engine) : M unit :=
  let* _ := load_engine e in
  modify (λ σ, set_eheap (alter f e (eheap σ)) σ).

Definition with_engine (e : option enginep) (F : valueFold) : valueFold :=
  mkFold e (gvalue F) (cvalue F) (init F) (prev F) (next F) (owner F).
Definition with_cvalue (c : cptr) (F : valueFold) : valueFold :=
  mkFold (engine F) (gvalue F) c (init F) (prev F) (next F) (owner F).
Definition with_prev (q : option foldp) (F : valueFold) : valueFold :=
  mkFold (engine F) (gvalue F) (cvalue F) (init F) q (next F) (owner F).
Definition with_next (q : option foldp) (F : valueFold) : valueFold :=
  mkFold (engine F) (gvalue F) (cvalue F) (init F) (prev F) q (owner F).
Definition with_values (m : gmap GoValue foldp) (E : Engine) : Engine :=
  mkEngine (addr E) m (destroyed E).

(** [&valueFold{...}]: a cell at an address not in use. *)
Definition new_fold (F : valueFold) : M foldp :=
  λ σ, let p := fresh (dom (heap σ)) in
       Return p (set_heap (<[p := F]> (heap σ)) σ).

(** A call into C++ (or a host callback): appended to the log. *)
Definition call (ev : event) : M unit :=
  modify (λ σ, set_log (log σ ++ [ev]) σ).

(** [stats.valuesAlive(delta)] for fold [p]. *)
Definition stats_valuesAlive (delta : Z) (p : foldp) : M unit :=
  modify (λ σ, set_alive (valuesAlive σ + delta)
                 (if decide (0 < delta) then alive σ ∪ {[p]} else alive σ ∖ {[p]}) σ).

(** ** The value-fold registry *)

(** [wrapGoValue], run by the thread whose [tref.Ref()] is [ref];
    [cnew] is the address [C.newGoValue] hands back if it is called and
    [owner'] the requested ownership. *)
Definition wrapGoValue (ref : Z) (cnew : cptr)
    (engine : enginep) (gvalue : GoValue) (owner' : valueOwner) : M cptr :=
  if bool_decide (kind gvalue = Struct) && negb (hashable gvalue) then
    let name := typeName gvalue in
    let name := if decide (name ≠ "") then " (" +:+ name +:+ ")" else name in
    panic ("cannot hand an unhashable struct value" +:+ name
           +:+ " to QML logic; use its address instead")
  else if bool_decide (kind gvalue = Ptr) && bool_decide (elemKind gvalue = Ptr) then
    panic "cannot hand pointer of pointer to QML logic; use a simple pointer instead"
  else
    let* paintRef := gets guiPaintRef in
    let painting := bool_decide (ref = paintRef) in
    let* E := load_engine engine in
    let prev := values E !! gvalue in
    let* reuse :=
      match prev with
      | Some p =>
          let* P := load_fold p in
          if bool_decide (owner P = owner')
             || negb (bool_decide (owner' = cppOwner)) || painting
          then ret (Some (cvalue P)) else ret None
      | None => ret None
      end in
    match reuse with
    | Some c => ret c
    | None =>
        if painting then panic "cannot allocate new objects while painting"
        else
          let parent := if decide (owner' = cppOwner) then addr E else nilPtr in
          let* fold := new_fold (mkFold (Some engine) gvalue nilPtr None None None owner') in
          call (newGoValue fold gvalue parent cnew) ;;
          update_fold fold (with_cvalue cnew) ;;
          match prev with
          | Some p =>
              update_fold p (with_next (Some fold)) ;;
              update_fold fold (with_prev (Some p))
          | None =>
              update_engine engine (λ E, with_values (<[gvalue := fold]> (values E)) E)
          end ;;
          stats_valuesAlive 1 fold ;;
          call (engineSetContextForObject (addr E) cnew) ;;
          (if decide (owner' = cppOwner) then call (engineSetOwnershipCPP (addr E) cnew)
           else if decide (owner' = jsOwner) then call (engineSetOwnershipJS (addr E) cnew)
           else ret tt) ;;
          ret cnew
    end.

(** [hookGoValueTypeNew]; [a] is the address [reflect.New] allocates. *)
Definition hookGoValueTypeNew (a : N) (cvalue : cptr) (spec : TypeSpec) : M foldp :=
  let gv := mkGoValue Ptr (initElemKind spec) true "" a in
  let* fold := new_fold (mkFold None gv cvalue (Some (Init spec)) None None jsOwner) in
  modify (λ σ, set_typeNew (typeNew σ ∪ {[fold]}) σ) ;;
  stats_valuesAlive 1 fold ;;
  ret fold.

(** [delete(typeNew, fold)] between two readings of [len(typeNew)]. *)
Definition delete_typeNew (fold : foldp) (msg : string) : M unit :=
  let* before := gets (λ σ, size (typeNew σ)) in
  modify (λ σ, set_typeNew (typeNew σ ∖ {[fold]}) σ) ;;
  let* after := gets (λ σ, size (typeNew σ)) in
  if decide (after = before) then panic msg else ret tt.

(** [%p] of an address: hexadecimal digits after [0x]. *)
Definition hexDigit (n : N) : string :=
  String.substring (N.to_nat n) 1 "0123456789abcdef".
Fixpoint hexDigits (fuel : nat) (n : N) : string :=
  match fuel with
  | O => ""
  | S fuel' =>
      if (n <? 16)%N then hexDigit n
      else hexDigits fuel' (n / 16)%N +:+ hexDigit (n mod 16)%N
  end.
Definition formatPtr (p : cptr) : string := "0x" +:+ hexDigits (S (N.to_nat (N.log2 p))) p.

Definition hookGoValueDestroyed (enginePtr : cptr) (fold : foldp) : M unit :=
  let* F := load_fold fold in
  match engine F with
  | None =>
      delete_typeNew fold "destroying value without an associated engine; who created the value?"
  | Some e =>
      let* E := load_engine e in
      let* registered := gets (λ σ, engines σ !! addr E) in
      match registered with
      | None =>
          panic ("engine " +:+ formatPtr (addr E)
                 +:+ " was released from global list while its values were still alive")
      | Some _ =>
          match prev F, next F with
          | Some p, _ =>
              let* F1 := load_fold fold in
              update_fold p (with_next (next F1)) ;;
              let* F2 := load_fold fold in
              match next F2 with
              | Some n => update_fold n (with_prev (prev F2))
              | None => ret tt
              end
          | None, Some n =>
              update_fold n (with_prev (prev F)) ;;
              let* F2 := load_fold fold in
              match prev F2 with
              | Some p => update_fold p (with_next (next F2))
              | None =>
                  (* [fold.next] is still [n]: only a [prev] link was written *)
                  update_engine e
                    (λ E, with_values (<[gvalue F2 := default n (next F2)]> (values E)) E)
              end
          | None, None =>
              let* before := gets (λ σ, size (values E)) in
              update_engine e (λ E, with_values (delete (gvalue F) (values E)) E) ;;
              let* E' := load_engine e in
              if decide (size (values E') = before) then
                panic "destroying value that knows about the engine, but the engine doesn't know about the value; who cleared the engine?"
              else if destroyed E' && bool_decide (size (values E') = 0%nat) then
                modify (λ σ, set_engines (delete (addr E') (engines σ)) σ)
              else ret tt
          end
      end
  end ;;
  stats_valuesAlive (-1) fold.

(** The loop [for prev.next != nil { prev = prev.next }]. *)
Fixpoint lastFold (fuel : nat) (p : foldp) : M foldp :=
  let* P := load_fold p in
  match next P with
  | None => ret p
  | Some q =>
      match fuel with
      | O => λ σ, Diverged σ
      | S fuel' => lastFold fuel' q
      end
  end.

Definition ensureEngine (enginePtr : cptr) (fold : foldp) : M foldp :=
  let* F := load_fold fold in
  match engine F with
  | Some _ => ret fold
  | None =>
      if decide (enginePtr = nilPtr) then
        panic "accessing value without an engine pointer; who created the value?"
      else
        let* registered := gets (λ σ, engines σ !! enginePtr) in
        match registered with
        | None => panic "unknown engine pointer; who created the engine?"
        | Some e =>
            update_fold fold (with_engine (Some e)) ;;
            let* E := load_engine e in
            match values E !! gvalue F with
            | Some p =>
                let* fuel := gets (λ σ, size (heap σ)) in
                let* last := lastFold fuel p in
                update_fold last (with_next (Some fold)) ;;
                update_fold fold (with_prev (Some last))
            | None =>
                update_engine e (λ E, with_values (<[gvalue F := fold]> (values E)) E)
            end ;;
            delete_typeNew fold "value had no engine, but was not created by a registered type; who created the value?" ;;
            let* F' := load_fold fold in
            match init F' with
            | None => panic "reflect: call of reflect.Value.Call on zero Value"
            | Some f => call (initCall fold f (gvalue F') e (cvalue F'))
            end ;;
            ret fold
        end
  end.

(** Modelled from the spec: [Engine.Destroy], which is not in
    [bridge.go].  The engine is "marked destroyed when the native side
    signals teardown" and "only removed from the global engine registry
    once its fold chain is empty". *)
Definition engineDestroy (e : enginep) : M unit :=
  let* E := load_engine e in
  update_engine e (λ E, mkEngine (addr E) (values E) true) ;;
  if decide (size (values E) = 0%nat)
  then modify (λ σ, set_engines (delete (addr E) (engines σ)) σ)
  else ret tt.

(** ** Sequences of registry operations *)

Inductive op :=
  | Wrap (ref : Z) (cnew : cptr) (engine : enginep) (gvalue : GoValue) (owner : valueOwner)
  | TypeNew (a : N) (cvalue : cptr) (spec : TypeSpec)
  | Resolve (enginePtr : cptr) (fold : foldp)
  | Destroy (enginePtr : cptr) (fold : foldp).

Definition exec (o : op) : M unit :=
  match o with
  | Wrap ref cnew e v ow => wrapGoValue ref cnew e v ow ;; ret tt
  | TypeNew a c spec => hookGoValueTypeNew a c spec ;; ret tt
  | Resolve ep f => ensureEngine ep f ;; ret tt
  | Destroy ep f => hookGoValueDestroyed ep f
  end.

Fixpoint run (ops : list op) : M unit :=
  match ops with
  | [] => ret tt
  | o :: ops' => exec o ;; run ops'
  end.

(** A process with the given engines and nothing else. *)
Definition start (eh : gmap enginep Engine) (es : gmap cptr enginep) (loopRef : Z) : state :=
  mkState ∅ eh es ∅ 0 loopRef 0 0 0 ∅ [].


(** ** The call dispatcher *)

(** Go's [int] and [int32] with their wrap-around. *)
Definition wrap64 (z : Z) : Z := (z + 2 ^ 63) mod 2 ^ 64 - 2 ^ 63.
Definition wrap32 (z : Z) : Z := (z + 2 ^ 31) mod 2 ^ 32 - 2 ^ 31.

(** A [func()] handed to [gui]: its body, and a label that tells the
    calls apart in the trace.  A body runs on the event-loop thread or on
    the painting thread, where a nested [gui] is a plain call, so a body
    acts on the process state only. *)
Record closure := mkClosure {
  label : nat;
  body : M unit
}.

(** What the dispatcher does, in order: [ran t n] is the call [f()] of the
    closure labelled [n] on thread [t]; [finished t n] is the return of
    [gui] to its caller [t], for a marshalled call on receiving from
    [guiDone]. *)
Inductive step :=
  | ran (thread : Z) (n : nat)
  | finished (caller : Z) (n : nat).

#[global] Instance step_eq_dec : EqDecision step.
Proof. solve_decision. Defined.

(** The process together with the two channels.  [guiFunc] holds the
    goroutines blocked in the send [guiFunc <- f], oldest first, each
    with its thread and its closure.  The channel is unbuffered, so the
    sender of the closure being run is the only goroutine waiting on
    [guiDone] when the hook sends on it: the send is the return of that
    caller's [gui]. *)
Record world := mkWorld {
  mem : state;
  guiFunc : list (Z * closure);
  trace : list step
}.

(** How a call made by some goroutine ends: it returns, it blocks on a
    channel, it panics, or it loops. *)
Inductive ending :=
  | Returns (w : world)
  | Blocks (w : world)
  | Panics (msg : string) (w : world)
  | Loops (w : world).

Definition worldOf (x : ending) : world :=
  match x with Returns w | Blocks w | Loops w => w | Panics _ w => w end.

(** [f()] on thread [t], on behalf of the caller [c] of [gui]. *)
Definition runClosure (t c : Z) (f : closure) (w : world) : ending :=
  match body f (mem w) with
  | Return _ σ => Returns (mkWorld σ (guiFunc w) (trace w ++ [ran t (label f); finished c (label f)]))
  | Panicked msg σ => Panics msg (mkWorld σ (guiFunc w) (trace w ++ [ran t (label f)]))
  | Diverged σ => Loops (mkWorld σ (guiFunc w) (trace w ++ [ran t (label f)]))
  end.

(** [gui(f)] called on the thread whose [tref.Ref()] is [ref]. *)
Definition gui (ref : Z) (f : closure) (w : world) : ending :=
  if bool_decide (ref = guiLoopRef (mem w)) || bool_decide (ref = guiPaintRef (mem w)) then
    runClosure ref ref f w
  else
    let n := wrap32 (hookWaiting (mem w) + 1) in
    let σ := set_hookWaiting n (mem w) in
    let σ := set_log (log σ ++ if decide (n = 1) then [idleTimerStart] else []) σ in
    Blocks (mkWorld σ (guiFunc w ++ [(ref, f)]) (trace w)).

(** The loop of [hookIdleTimer], called on thread [t], over the senders
    ready on [guiFunc]: each closure is received and run, its caller
    released through [guiDone], [hookWaiting] decremented.  With no
    sender left the hook returns, or, while [guiLock] is positive, stays
    in the blocking receive. *)
Fixpoint serve (t : Z) (ready : list (Z * closure)) (σ : state) (tr : list step) : ending :=
  match ready with
  | (c, f) :: ready' =>
      match runClosure t c f (mkWorld σ ready' tr) with
      | Returns w =>
          serve t ready' (set_hookWaiting (wrap32 (hookWaiting (mem w) + -1)) (mem w)) (trace w)
      | other => other
      end
  | [] =>
      if decide (guiLock σ > 0) then Blocks (mkWorld σ [] tr) else Returns (mkWorld σ [] tr)
  end.

Definition hookIdleTimer (t : Z) (w : world) : ending :=
  serve t (guiFunc w) (mem w) (trace w).

(** The bodies of the closures of [Lock], [Unlock] and [Flush]. *)
Definition lockBody : M unit :=
  modify (λ σ, set_guiLock (wrap64 (guiLock σ + 1)) σ).

Definition unlockBody : M unit :=
  let* n := gets guiLock in
  if decide (n = 0) then panic "qml.Unlock called without lock being held"
  else modify (λ σ, set_guiLock (wrap64 (guiLock σ - 1)) σ).

Definition flushBody : M unit := call applicationFlushAll.

Definition Lock (ref : Z) : world → ending := gui ref (mkClosure 0 lockBody).
Definition Unlock (ref : Z) : world → ending := gui ref (mkClosure 1 unlockBody).
Definition Flush (ref : Z) : world → ending := gui ref (mkClosure 2 flushBody).

(** A goroutine making calls one after the other, the event loop running
    [hookIdleTimer] on its own thread whenever a call is left blocked. *)
Fixpoint session (calls : list (world → ending)) (w : world) : ending :=
  match calls with
  | [] => Returns w
  | call :: calls' =>
      match call w with
      | Returns w' => session calls' w'
      | Blocks w' =>
          match hookIdleTimer (guiLoopRef (mem w')) w' with
          | Returns w'' | Blocks w'' => session calls' w''
          | other => other
          end
      | other => other
      end
  end.

(** ** The change notifier *)

(** The loop [for fold != nil { C.goValueActivate(...); fold = fold.next }]. *)
Fixpoint activateChain (fuel : nat) (fold : option foldp) (tinfo : GoValue) (offset : Z) : M unit :=
  match fold with
  | None => ret tt
  | Some p =>
      match fuel with
      | O => λ σ, Diverged σ
      | S fuel' =>
          let* F := load_fold p in
          call (goValueActivate (cvalue F) tinfo offset) ;;
          activateChain fuel' (next F) tinfo offset
      end
  end.

(** The loop over [typeNew], its keys met in the order [ps]: each
    matching fold pushes a deferred call.  The stack of deferred calls,
    last pushed first, is handed back also when the loop panics, since
    deferred calls run then too. *)
Fixpoint deferPending (ps : list foldp) (value : GoValue) (offset : Z)
    (deferred : list event) (σ : state) : list event * outcome unit :=
  match ps with
  | [] => (deferred, Return tt σ)
  | p :: ps' =>
      match load_fold p σ with
      | Return F σ' =>
          if decide (gvalue F = value)
          then deferPending ps' value offset
                 (goValueActivate (cvalue F) value offset :: deferred) σ'
          else deferPending ps' value offset deferred σ'
      | Panicked msg σ' => (deferred, Panicked msg σ')
      | Diverged σ' => (deferred, Diverged σ')
      end
  end.

(** The loop over [engines].  Go leaves the order of a [range] over a map
    open: [es] is the order in which the engines are met and
    [rangeTypeNew i] the order in which the keys of [typeNew] are met
    during the [i]-th pass. *)
Fixpoint changedLoop (es : list enginep) (i : nat) (rangeTypeNew : nat → gset foldp → list foldp)
    (value : GoValue) (offset : Z) (deferred : list event) (σ : state) :
    list event * outcome unit :=
  match es with
  | [] => (deferred, Return tt σ)
  | e :: es' =>
      match (let* E := load_engine e in
             let* fuel := gets (λ σ, size (heap σ)) in
             activateChain fuel (values E !! value) value offset) σ with
      | Return _ σ1 =>
          match deferPending (rangeTypeNew i (typeNew σ1)) value offset deferred σ1 with
          | (deferred', Return _ σ2) =>
              changedLoop es' (S i) rangeTypeNew value offset deferred' σ2
          | other => other
          end
      | Panicked msg σ1 => (deferred, Panicked msg σ1)
      | Diverged σ1 => (deferred, Diverged σ1)
      end
  end.

(** The closure [Changed] hands to [gui]: the loop, then the deferred
    calls, last deferred first. *)
Definition changedBody (rangeEngines : gmap cptr enginep → list enginep)
    (rangeTypeNew : nat → gset foldp → list foldp)
    (value : GoValue) (offset : Z) : M unit :=
  λ σ, match changedLoop (rangeEngines (engines σ)) 0 rangeTypeNew value offset [] σ with
       | (deferred, Return _ σ') => Return tt (set_log (log σ' ++ deferred) σ')
       | (deferred, Panicked msg σ') => Panicked msg (set_log (log σ' ++ deferred) σ')
       | (deferred, Diverged σ') => Diverged σ'
       end.

(** [Changed(value, fieldAddr)] on thread [ref].  After the pointers are
    followed, [valueAddr] and [valueSize] are [valuev.UnsafeAddr()] and
    [valuev.Type().Size()], [fieldAddr] and [fieldSize] those of
    [fieldv]; addresses are [uintptr], the offset passed on is
    [C.int(offset)]. *)
Definition Changed (rangeEngines : gmap cptr enginep → list enginep)
    (rangeTypeNew : nat → gset foldp → list foldp)
    (ref : Z) (value : GoValue) (valueAddr valueSize fieldAddr fieldSize : Z)
    (w : world) : ending :=
  if decide (fieldSize = 0) then Panics "cannot report changes on zero-sized fields" w
  else
    let offset := (fieldAddr - valueAddr) mod 2 ^ 64 in
    if negb (bool_decide (0 ≤ offset)%Z && bool_decide (offset < valueSize)%Z) then
      Panics "provided field is not a member of the given value" w
    else
      gui ref (mkClosure 3 (changedBody rangeEngines rangeTypeNew value (wrap32 offset))) w.

(** ** Field writes: [convertAndSet] *)

(** The types [reflect.Type] tells apart here; [TList] is [*List], the
    type of [listType]; a named type carries its underlying type. *)
Inductive rtype :=
  | TBool | TInt | TInt64 | TFloat64 | TString
  | TList
  | TSlice (elem : rtype)
  | TNamed (name : string) (underlying : rtype).

#[global] Instance rtype_eq_dec : EqDecision rtype.
Proof. solve_decision. Defined.

Fixpoint kindOf (t : rtype) : Kind :=
  match t with
  | TBool => Bool | TInt | TInt64 => Int | TFloat64 => Float64 | TString => String
  | TList => Ptr
  | TSlice _ => Slice
  | TNamed _ u => kindOf u
  end.

(** [t.Elem()] of a slice type; a run-time panic otherwise. *)
Fixpoint elemOf (t : rtype) : option rtype :=
  match t with
  | TSlice e => Some e
  | TNamed _ u => elemOf u
  | _ => None
  end.

(** [t.String()], as [%s] prints a type. *)
Fixpoint typeString (t : rtype) : string :=
  match t with
  | TBool => "bool" | TInt => "int" | TInt64 => "int64"
  | TFloat64 => "float64" | TString => "string"
  | TList => "*qml.List"
  | TSlice e => "[]" +:+ typeString e
  | TNamed n _ => n
  end.

(** A valid [reflect.Value]: its type and what it holds.  A [*List]
    holds its [data], a slice of [interface{}] whose entries may be nil,
    or is a nil pointer. *)
Inductive rvalue :=
  | mkValue (t : rtype) (d : payload)
with payload :=
  | PScalar (z : Z)
  | PString (s : string)
  | PSeq (elems : list rvalue)
  | PList (data : list (option rvalue))
  | PNil.

Definition typeOf (v : rvalue) : rtype := match v with mkValue t _ => t end.
Definition payloadOf (v : rvalue) : payload := match v with mkValue _ d => d end.

(** The field written to ([CanSet] tells whether [Set] is allowed) and
    the setter method: its parameter types and whether the host code
    panics, and with what, when called on an argument. *)
Record field := mkField { fieldType : rtype; canSet : bool }.

Inductive panicValue :=
  | byBridge (msg : string)
  | byReflect (msg : string)
  | byRuntime (msg : string)
  | byHost (n : nat).

Record method := mkMethod { params : list rtype; raises : rvalue → option panicValue }.

(** What a field write ends in: the field assigned, the setter called
    and returned, or a panic with its value. *)
Inductive written :=
  | fieldSet (v : rvalue)
  | setterCalled (v : rvalue)
  | panicked (pv : panicValue).

(** The conversion of the entries of a [*List], in order; the first
    entry that is nil or cannot be converted panics. *)
Fixpoint convertElems (convert : rvalue → rtype → option rvalue) (elemType : rtype)
    (data : list (option rvalue)) : option (list rvalue) :=
  match data with
  | [] => Some []
  | elem :: data' =>
      match elem with
      | Some x =>
          match convert x elemType with
          | Some y =>
              match convertElems convert elemType data' with
              | Some ys => Some (y :: ys)
              | None => None
              end
          | None => None
          end
      | None => None
      end
  end.

(** The part of [convertAndSet] that runs under the deferred [recover]:
    [Some] of the value handed on, or a panic. *)
Definition converted (convert : rvalue → rtype → option rvalue)
    (from : rvalue) (fromType toType : rtype) : rvalue + panicValue :=
  if bool_decide (fromType = TList) && bool_decide (kindOf toType = Slice) then
    match payloadOf from, elemOf toType with
    | PList data, Some elemType =>
        match convertElems convert elemType data with
        | Some ys => inl (mkValue toType (PSeq ys))
        | None => inr (byReflect "reflect.Value.Convert: value cannot be converted")
        end
    | _, _ => inr (byRuntime nilDeref)
    end
  else if decide (toType ≠ fromType) then
    match convert from toType with
    | Some y => inl y
    | None => inr (byReflect "reflect.Value.Convert: value cannot be converted")
    end
  else inl from.

Definition assign (to : option field) (setMethod : option method) (v : rvalue) : written :=
  match setMethod with
  | Some m =>
      if decide (length (params m) = 1%nat) then
        match raises m v with
        | Some pv => panicked pv
        | None => setterCalled v
        end
      else panicked (byReflect "reflect: Call with wrong number of input arguments")
  | None =>
      match to with
      | Some f =>
          if canSet f then fieldSet v
          else panicked (byReflect "reflect: reflect.Value.Set using unaddressable value")
      | None => panicked (byReflect "reflect: call of reflect.Value.Set on zero Value")
      end
  end.

(** The first lines of [convertAndSet]: the type converted to, from the
    setter when there is one, else from the field. *)
Definition targetType (to : option field) (setMethod : option method) : rtype + panicValue :=
  match setMethod with
  | Some m =>
      match params m with
      | t :: _ => inl t
      | [] => inr (byReflect "reflect: Func index out of bounds")
      end
  | None =>
      match to with
      | Some f => inl (fieldType f)
      | None => inr (byReflect "reflect: call of reflect.Value.Type on zero Value")
      end
  end.

(** The message of the deferred function. *)
Definition cannotUse (fromType toType : rtype) : string :=
  "cannot use " +:+ typeString fromType +:+ " as a " +:+ typeString toType.

(** [convertAndSet(to, from, setMethod)]; an invalid [reflect.Value] is
    [None]; [convert] is [reflect.Value.Convert], [None] where it panics,
    and what it returns has the type asked for, so that [Call] and [Set]
    accept it.  Panic values are not nil. *)
Definition convertAndSet (convert : rvalue → rtype → option rvalue)
    (to : option field) (from : option rvalue) (setMethod : option method) : written :=
  match targetType to setMethod with
  | inr pv => panicked pv
  | inl toType =>
      match from with
      | None => panicked (byReflect "reflect: call of reflect.Value.Type on zero Value")
      | Some fromv =>
          let fromType := typeOf fromv in
          let recovered (w : written) : written :=
            match w with
            | panicked _ => panicked (byBridge (cannotUse fromType toType))
            | _ => w
            end in
          recovered
            match converted convert fromv fromType toType with
            | inl v => assign to setMethod v
            | inr pv => panicked pv
            end
      end
  end.

(** ** The paint callback *)

(** The [*Painter] handed to a paint method: the engine of the fold and
    its native handle. *)
Record Painter := mkPainter {
  painterEngine : option enginep;
  painterAddr : cptr
}.

(** [hookGoValuePaint], called on the thread whose [tref.Ref()] is
    [ref].  [method] is what [v.Method(int(reflectIndex))] finds:
    nothing when the index is out of range, else the method, which runs
    on the calling thread, on the painter. *)
Definition hookGoValuePaint (ref : Z) (enginePtr : cptr) (foldPtr : foldp)
    (method : option (Painter → M unit)) : M unit :=
  let* fold := ensureEngine enginePtr foldPtr in
  modify (set_guiPaintRef ref) ;;
  let* F := load_fold fold in
  match method with
  | None => panic "reflect: Method index out of range"
  | Some paint => paint (mkPainter (engine F) (cvalue F))
  end ;;
  modify (set_guiPaintRef 0).

(** ** List properties: the hooks on fields of type [[]Object] *)

(** What a slice of [Object]s holds for an object: its [Common()], the
    engine and the native address. *)
Record Object := mkObject {
  objEngine : option enginep;
  objAddr : cptr
}.

(** A slice header: the backing array, where the slice starts in it,
    its length and its capacity. *)
Record slice := mkSlice {
  arr : nat;
  off : nat;
  len : nat;
  cap : nat
}.

(** The part of Go's memory the list hooks work on: the backing arrays,
    whose entries are objects or nil, and the slice headers held by the
    fields of type [[]Object] of the managed values, a field being named
    by the value and its index. *)
Record lmem := mkLmem {
  arrays : gmap nat (list (option Object));
  fields : gmap (GoValue * Z) slice
}.

Inductive lres (A : Type) :=
  | LReturn (a : A) (m : lmem)
  | LPanic (msg : string) (m : lmem).
Arguments LReturn {A} a m.
Arguments LPanic {A} msg m.

Definition indexOutOfRange : string := "runtime error: index out of range".
Definition noObjectSlice : string := "reflect: the field is not an addressable []Object".
Definition noMethod : string := "reflect: Method index out of range".

(** [s[i]], read and written; the array is there and long enough in any
    memory Go builds. *)
Definition readAt (m : lmem) (s : slice) (i : nat) : option (option Object) :=
  arrays m !! arr s ≫= λ a, a !! (off s + i)%nat.

Definition writeAt (m : lmem) (s : slice) (i : nat) (x : option Object) : lmem :=
  mkLmem (alter (λ a, <[(off s + i)%nat := x]> a) (arr s) (arrays m)) (fields m).

(** The entries of a slice, in order. *)
Definition entries (m : lmem) (s : slice) : list (option Object) :=
  take (len s) (drop (off s) (default [] (arrays m !! arr s))).

(** [append(s, x)]: in place when the capacity allows, else into a new
    array, of a capacity that Go's runtime picks ([grow], of the length
    needed) and that is at least the length needed. *)
Definition append (grow : nat → nat) (s : slice) (x : option Object) (m : lmem) :
    slice * lmem :=
  if decide (len s < cap s)%nat then
    (mkSlice (arr s) (off s) (S (len s)) (cap s), writeAt m s (len s) x)
  else
    let a := fresh (dom (arrays m)) in
    let c := (grow (S (len s)) `max` S (len s))%nat in
    (mkSlice a 0 (S (len s)) c,
     mkLmem (<[a := entries m s ++ x :: replicate (c - S (len s)) None]> (arrays m))
            (fields m)).

(** [listSlice]: the address of the field, as the key of its header.
    The calls of [reflect] in it panic unless the value is (a pointer
    to) a struct whose field of that index is an addressable
    [[]Object]. *)
Definition listSlice (σ : state) (fold : foldp) (reflectIndex : Z) (m : lmem) :
    lres (GoValue * Z) :=
  match heap σ !! fold with
  | None => LPanic nilDeref m
  | Some F =>
      match fields m !! (gvalue F, reflectIndex) with
      | Some _ => LReturn (gvalue F, reflectIndex) m
      | None => LPanic noObjectSlice m
      end
  end.

Definition hookListPropertyAt (σ : state) (fold : foldp) (reflectIndex setIndex : Z)
    (index : Z) (m : lmem) : lres cptr :=
  match listSlice σ fold reflectIndex m with
  | LPanic msg m' => LPanic msg m'
  | LReturn key m' =>
      match fields m' !! key with
      | None => LPanic nilDeref m'
      | Some s =>
          if decide (0 ≤ index < Z.of_nat (len s))%Z then
            match readAt m' s (Z.to_nat index) with
            | Some (Some o) => LReturn (objAddr o) m'
            | _ => LPanic nilDeref m'
            end
          else LPanic indexOutOfRange m'
      end
  end.

Definition hookListPropertyCount (σ : state) (fold : foldp) (reflectIndex setIndex : Z)
    (m : lmem) : lres Z :=
  match listSlice σ fold reflectIndex m with
  | LPanic msg m' => LPanic msg m'
  | LReturn key m' =>
      match fields m' !! key with
      | None => LPanic nilDeref m'
      | Some s => LReturn (wrap32 (Z.of_nat (len s))) m'
      end
  end.

(** The setter of index [setIndex], called on the new slice;
    [methods] is what [Method] finds for an index. *)
Definition callSetter (methods : Z → option (slice → lmem → lres unit))
    (setIndex : Z) (s : slice) (m : lmem) : lres unit :=
  match methods setIndex with
  | Some setter => setter s m
  | None => LPanic noMethod m
  end.

(** [hookListPropertyAppend]; [unpackObject] is what [unpackDataValue]
    makes, for the engine of the fold, of a [DataValue] of type
    [DTObject] that holds [objp]. *)
Definition hookListPropertyAppend (grow : nat → nat)
    (unpackObject : option enginep → cptr → Object)
    (methods : Z → option (slice → lmem → lres unit))
    (σ : state) (fold : foldp) (reflectIndex setIndex : Z) (objp : cptr) (m : lmem) :
    lres unit :=
  match listSlice σ fold reflectIndex m with
  | LPanic msg m' => LPanic msg m'
  | LReturn key m' =>
      match fields m' !! key, heap σ !! fold with
      | Some s, Some F =>
          let '(newslice, m1) := append grow s (Some (unpackObject (engine F) objp)) m' in
          if decide (0 ≤ setIndex)%Z then callSetter methods setIndex newslice m1
          else LReturn tt (mkLmem (arrays m1) (<[key := newslice]> (fields m1)))
      | _, _ => LPanic nilDeref m'
      end
  end.

(** The loop over the slice that sets each of its entries to nil. *)
Definition clearEntries (m : lmem) (s : slice) : lmem :=
  mkLmem (alter (list_inserts (off s) (replicate (len s) None)) (arr s) (arrays m))
         (fields m).

Definition hookListPropertyClear
    (methods : Z → option (slice → lmem → lres unit))
    (σ : state) (fold : foldp) (reflectIndex setIndex : Z) (m : lmem) : lres unit :=
  match listSlice σ fold reflectIndex m with
  | LPanic msg m' => LPanic msg m'
  | LReturn key m' =>
      match fields m' !! key with
      | None => LPanic nilDeref m'
      | Some s =>
          let newslice := mkSlice (arr s) (off s) 0 (cap s) in
          if decide (0 ≤ setIndex)%Z then callSetter methods setIndex newslice m'
          else
            let m1 := clearEntries m' s in
            LReturn tt (mkLmem (arrays m1) (<[key := newslice]> (fields m1)))
      end
  end.

(** ** Method calls: [convertParam] and [hookGoValueCallMethod] *)

(** A panic value: a string, or a value of another type (an error, say)
    with the text it prints as. *)
Inductive goPanic :=
  | StringPanic (s : string)
  | ErrorPanic (text : string).

Definition panicText (pv : goPanic) : string :=
  match pv with StringPanic s | ErrorPanic s => s end.

(** [t.Name()]: empty for a type without a name of its own. *)
Definition nameOf (t : rtype) : string :=
  match t with
  | TBool => "bool" | TInt => "int" | TInt64 => "int64"
  | TFloat64 => "float64" | TString => "string"
  | TList => "" | TSlice _ => ""
  | TNamed n _ => n
  end.

(** [%d] of an index. *)
Definition decDigit (n : nat) : string := String.substring n 1 "0123456789".
Fixpoint decDigits (fuel : nat) (n : nat) : string :=
  match fuel with
  | O => ""
  | S fuel' =>
      if (n <? 10)%nat then decDigit n
      else decDigits fuel' (n / 10)%nat +:+ decDigit (n mod 10)%nat
  end.
Definition formatInt (n : nat) : string := decDigits (S n) n.

Definition convertPrefix : string := "reflect.Value.Convert: ".

Definition cannotConvert (goSyntax : rvalue → string) (methodName : string) (index : nat)
    (param : rvalue) (argt : rtype) : string :=
  "cannot convert parameter " +:+ formatInt index +:+ " of method " +:+ methodName
  +:+ " from " +:+ nameOf (typeOf param) +:+ " to " +:+ nameOf argt
  +:+ " (got " +:+ goSyntax param +:+ ")".

(** [convertParam]; [convert] is [reflect.Value.Convert] with the value
    it panics with, [goSyntax] what [%#v] prints.  [inl (Some v, None)]
    is the return of [(v, nil)], [inl (None, Some msg)] that of the zero
    [Value] and the error [msg], [inr] a panic. *)
Definition convertParam (convert : rvalue → rtype → rvalue + goPanic)
    (goSyntax : rvalue → string) (methodName : string) (index : nat)
    (param : rvalue) (argt : rtype) : (option rvalue * option string) + goPanic :=
  match convert param argt with
  | inl v => inl (Some v, None)
  | inr (StringPanic s) =>
      if String.prefix convertPrefix s
      then inl (None, Some (cannotConvert goSyntax methodName index param argt))
      else inr (StringPanic s)
  | inr (ErrorPanic text) => inr (ErrorPanic text)
  end.

(** A method of a managed value: its name, the types of its parameters,
    and what calling it does and returns. *)
Record gmethod := mkGmethod {
  methodName : string;
  methodIn : list rtype;
  methodCall : list rvalue → M (list rvalue)
}.

(** What the hook leaves in the slot of the result: nothing, the one
    result, or the list made by [C.newVariantList] of the results laid
    out in [dataValueArray]. *)
Inductive callOutcome (DV : Type) :=
  | NoResult
  | OneResult (dv : DV)
  | ManyResults (dvs : list DV).
Arguments NoResult {DV}.
Arguments OneResult {DV} dv.
Arguments ManyResults {DV} dvs.

Section call_method.
(** The codec is not in [bridge.go]: [DV] is a [C.DataValue],
    [unpackDataValue] and [packDataValue] what the codec does with one
    ([None] is the nil interface), [MaxParams] the constant of
    [capi.h]. *)
Context {DV : Type}.
Context (unpackDataValue : DV → option enginep → M (option rvalue)).
Context (packDataValue : rvalue → option enginep → valueOwner → M DV).
Context (convert : rvalue → rtype → rvalue + goPanic).
Context (goSyntax : rvalue → string).
Context (MaxParams : nat).

(** The body of the loop over the parameters for parameter [i]. *)
Definition unpackParam (engine : option enginep) (name : string) (args : nat → DV)
    (i : nat) (argt : rtype) : M rvalue :=
  let* x := unpackDataValue (args (S i)) engine in
  match x with
  | None => panic "reflect: call of reflect.Value.Type on zero Value"
  | Some param =>
      let* param :=
        if decide (typeOf param ≠ argt) then
          match convertParam convert goSyntax name i param argt with
          | inl (Some v, None) => ret v
          | inl (_, Some msg) => panic msg
          | inl (None, None) => ret param
          | inr pv => panic (panicText pv)
          end
        else ret param in
      if decide (i < MaxParams)%nat then ret param else panic indexOutOfRange
  end.

(** The loop [for i := 0; i < numIn; i++], from [i] on. *)
Fixpoint unpackParams (engine : option enginep) (name : string) (args : nat → DV)
    (i : nat) (argts : list rtype) : M (list rvalue) :=
  match argts with
  | [] => ret []
  | argt :: argts' =>
      let* param := unpackParam engine name args i argt in
      let* rest := unpackParams engine name args (S i) argts' in
      ret (param :: rest)
  end.

(** The loop that packs the results into [dataValueArray]. *)
Fixpoint packResults (engine : option enginep) (result : list rvalue) : M (list DV) :=
  match result with
  | [] => ret []
  | r :: result' =>
      let* dv := packDataValue r engine jsOwner in
      let* rest := packResults engine result' in
      ret (dv :: rest)
  end.

(** [hookGoValueCallMethod]; [methods] is what [Method] finds for an
    index on the value, [args] the slots from [args] on. *)
Definition hookGoValueCallMethod (methods : GoValue → Z → option gmethod)
    (enginePtr : cptr) (foldPtr : foldp) (reflectIndex : Z) (args : nat → DV) :
    M (callOutcome DV) :=
  let* fold := ensureEngine enginePtr foldPtr in
  let* F := load_fold fold in
  match methods (gvalue F) reflectIndex with
  | None => panic noMethod
  | Some method =>
      let* params := unpackParams (engine F) (methodName method) args 0 (methodIn method) in
      let* result := methodCall method params in
      match result with
      | [] => ret NoResult
      | [r] =>
          let* dv := packDataValue r (engine F) jsOwner in
          ret (OneResult dv)
      | _ =>
          if decide (MaxParams < length result)%nat
          then panic "function has too many results"
          else
            let* dvs := packResults (engine F) result in
            ret (ManyResults dvs)
      end
  end.

End call_method.
(** ** Reuse policy and admission checks of [wrapGoValue] *)

(** The two checks [wrapGoValue] makes on the value before any lookup. *)
Definition admitted (v : GoValue) : bool :=
  negb (bool_decide (kind v = Struct) && negb (hashable v))
  && negb (bool_decide (kind v = Ptr) && bool_decide (elemKind v = Ptr)).

(** The condition under which an existing fold [P] is handed back. *)
Definition reuses (σ : state) (ref : Z) (P : valueFold) (ow : valueOwner) : Prop :=
  owner P = ow ∨ ow ≠ cppOwner ∨ ref = guiPaintRef σ.

#[global] Instance reuses_dec σ ref P ow : Decision (reuses σ ref P ow).
Proof. unfold reuses. apply _. Defined.


(** ** Alias chains *)

(** The folds met from [o] by following [next], at most [fuel] of them. *)
Fixpoint chainFrom (fuel : nat) (h : gmap foldp valueFold) (o : option foldp) : list foldp :=
  match fuel, o with
  | S fuel', Some p =>
      p :: match h !! p with
           | Some F => chainFrom fuel' h (next F)
           | None => []
           end
  | _, _ => []
  end.

(** Walking engine [e]'s chain for value [v] from the root in its map. *)
Definition foldChain (σ : state) (e : enginep) (v : GoValue) : list foldp :=
  match eheap σ !! e with
  | Some E => chainFrom (size (heap σ)) (heap σ) (values E !! v)
  | None => []
  end.

(** The folds still alive whose engine is [e]. *)
Definition engineFolds (σ : state) (e : enginep) : gset foldp :=
  filter (λ p, (engine <$> heap σ !! p) = Some (Some e)) (alive σ).

Definition prevIndex (l : list foldp) (i : nat) : option foldp :=
  match i with O => None | S j => l !! j end.

(** [l] is a doubly linked chain of engine [e] for value [v]: the fold
    at each position points back to the one before it (nil at the root)
    and forward to the one after it (nil at the tail). *)
Definition linked (h : gmap foldp valueFold) (e : enginep) (v : GoValue)
    (l : list foldp) : Prop :=
  ∀ i p, l !! i = Some p →
    ∃ F, h !! p = Some F ∧ engine F = Some e ∧ gvalue F = v
         ∧ prev F = prevIndex l i ∧ next F = l !! S i.

(** [ch e v] lists, root first, the folds of engine [e] for value [v]:
    the maps hold the roots, the chains are well linked and hold exactly
    the live folds that are not pending, pending folds are unlinked and
    carry their initializer, an engine with folds is registered, and the
    registry is keyed by the engines' addresses. *)
Record repr (σ : state) (ch : enginep → GoValue → list foldp) : Prop := mkRepr {
  repr_root : ∀ e E v, eheap σ !! e = Some E → values E !! v = head (ch e v);
  repr_nodup : ∀ e v, NoDup (ch e v);
  repr_linked : ∀ e v, linked (heap σ) e v (ch e v);
  repr_alive : ∀ p, p ∈ alive σ ↔ p ∈ typeNew σ ∨ ∃ e v, p ∈ ch e v;
  repr_pending : ∀ p, p ∈ typeNew σ →
    ∃ F, heap σ !! p = Some F ∧ engine F = None
         ∧ prev F = None ∧ next F = None ∧ is_Some (init F);
  repr_registered : ∀ e v, ch e v ≠ [] →
    ∃ E, eheap σ !! e = Some E ∧ engines σ !! addr E = Some e;
  repr_keyed : ∀ a e, engines σ !! a = Some e →
    ∃ E, eheap σ !! e = Some E ∧ addr E = a
}.

(** Chain integrity: every live fold is pending or sits on exactly the
    chain of its engine and value, and every chain is well linked. *)
Definition consistent (σ : state) : Prop := ∃ ch, repr σ ch.

(** Replacing one chain of the abstract view. *)
Definition setChain (ch : enginep → GoValue → list foldp)
    (e : enginep) (v : GoValue) (l : list foldp) : enginep → GoValue → list foldp :=
  λ e' v', if decide (e' = e ∧ v' = v) then l else ch e' v'.

(** The heap after the fold at position [i] of chain [l] is unlinked. *)
Definition unlink (h : gmap foldp valueFold) (l : list foldp) (i : nat) :
    gmap foldp valueFold :=
  let h1 := match prevIndex l i with
            | Some q => alter (with_next (l !! S i)) q h
            | None => h
            end in
  match l !! S i with
  | Some n => alter (with_prev (prevIndex l i)) n h1
  | None => h1
  end.

(** The state [hookGoValueDestroyed] leaves when it unlinks position [i]
    of the chain [l] of engine [e] (whose cell holds [E]) for value [v]. *)
Definition afterDestroy (σ : state) (e : enginep) (E : Engine) (v : GoValue)
    (l : list foldp) (i : nat) (p : foldp) : state :=
  let vals := match i, l !! 1%nat with
              | O, Some n => <[v := n]> (values E)
              | O, None => delete v (values E)
              | S _, _ => values E
              end in
  let eh := match i with
            | O => <[e := with_values vals E]> (eheap σ)
            | S _ => eheap σ
            end in
  let es := match i, l !! 1%nat with
            | O, None =>
                if destroyed E && bool_decide (size vals = 0%nat)
                then delete (addr E) (engines σ) else engines σ
            | _, _ => engines σ
            end in
  mkState (unlink (heap σ) l i) eh es (typeNew σ) (guiLock σ) (guiLoopRef σ)
          (guiPaintRef σ) (hookWaiting σ) (valuesAlive σ + -1) (alive σ ∖ {[p]}) (log σ).

(** ** Concrete scenarios *)

(** One registered engine at native address 7, event loop on thread 1. *)
Definition oneEngine : state :=
  start {[ 0%nat := mkEngine 7%N ∅ false ]} {[ 7%N := 0%nat ]} 1.

(** The same engine after [Engine.Destroy] has marked it. *)
Definition oneDestroyedEngine : state :=
  start {[ 0%nat := mkEngine 7%N ∅ true ]} {[ 7%N := 0%nat ]} 1.

(** A pointer to a struct, and a pointer to a pointer. *)
Definition structPtr : GoValue := mkGoValue Ptr Struct true "" 100.
Definition ptrPtr : GoValue := mkGoValue Ptr Ptr true "" 200.

(** A value handed to QML once script-owned and twice native-owned. *)
Definition aliasTwice : list op :=
  [ Wrap 1 11%N 0%nat structPtr jsOwner;
    Wrap 1 12%N 0%nat structPtr cppOwner;
    Wrap 1 13%N 0%nat structPtr cppOwner ].

(** A registered type whose [Init] takes a pointer to a pointer,
    instantiated and then resolved against the engine. *)
Definition resolvedPtrPtr : state :=
  final (run [ TypeNew 200%N 21%N (mkTypeSpec 5 Ptr); Resolve 7%N 0%nat ] oneEngine).

(** ** Properties kept along any run *)

(** [m] keeps [Q]: from a state with [Q], wherever [m] ends (returning,
    panicking or looping), [Q] holds again. *)
Definition keeps {A} (Q : state → Prop) (m : M A) : Prop :=
  ∀ σ, Q σ → Q (final (m σ)).

(** The number of times the initializer of fold [f] was called. *)
Definition isInitOf (f : foldp) (ev : event) : bool :=
  match ev with
  | initCall f' _ _ _ _ => bool_decide (f' = f)
  | _ => false
  end.
Definition initCalls (f : foldp) (l : list event) : nat :=
  length (filter (λ ev, isInitOf f ev = true) l).
Arguments initCalls : simpl never.

(** Fold [f] is pending and its initializer has run [n] times. *)
Definition pendingWith (f : foldp) (n : nat) (σ : state) : Prop :=
  f ∈ typeNew σ
  ∧ (engine <$> heap σ !! f) = Some None
  ∧ initCalls f (log σ) = n.

(** Fold [f] has an engine, is not pending, and its initializer has run
    [n] times. *)
Definition resolvedWith (f : foldp) (n : nat) (σ : state) : Prop :=
  (f ∉ typeNew σ)
  ∧ (∃ e, (engine <$> heap σ !! f) = Some (Some e))
  ∧ initCalls f (log σ) = n.

(** The operations that are not a resolve or a destroy of fold [f]. *)
Definition spares (f : foldp) (o : op) : Prop :=
  match o with
  | Resolve _ p | Destroy _ p => p ≠ f
  | _ => True
  end.

#[global] Instance spares_dec f o : Decision (spares f o).
Proof. destruct o; cbn; apply _. Defined.

(** A value with two aliases, script-owned then native-owned, in an
    engine already marked destroyed. *)
Definition twoAliases : state :=
  final (run [ Wrap 1 11%N 0%nat structPtr jsOwner;
               Wrap 1 12%N 0%nat structPtr cppOwner ] oneDestroyedEngine).

(** ** Traces of the dispatcher *)

(** The steps the hook, on thread [t], takes for the senders [q]. *)
Fixpoint served (t : Z) (q : list (Z * closure)) : list step :=
  match q with
  | [] => []
  | (c, g) :: q' => ran t (label g) :: finished c (label g) :: served t q'
  end.

(** How many times the closure labelled [n] was run in a trace. *)
Definition isRun (n : nat) (s : step) : bool :=
  match s with
  | ran _ m => bool_decide (m = n)
  | finished _ _ => false
  end.
Definition timesRan (n : nat) (tr : list step) : nat :=
  length (filter (λ s, isRun n s = true) tr).

(** A closure whose body returns from every state. *)
Definition total (g : closure) : Prop := ∀ σ, ∃ σ', body g σ = Return tt σ'.

(** A painting in progress on thread 9, the event loop being thread 1. *)
Definition painting : world := mkWorld (set_guiPaintRef 9 oneEngine) [] [].

(** ** Signals of the change notifier *)

(** The "property changed" signal for the native handle of fold [p]. *)
Definition signalOf (h : gmap foldp valueFold) (v : GoValue) (off : Z) (p : foldp) : event :=
  goValueActivate (default nilPtr (cvalue <$> h !! p)) v off.

(** The signals for those of the folds [ps] whose value is [v]. *)
Definition pendingSignals (h : gmap foldp valueFold) (v : GoValue) (off : Z)
    (ps : list foldp) : list event :=
  signalOf h v off <$> filter (λ p, (gvalue <$> h !! p) = Some v) ps.

(** The stack of deferred calls after the passes over the engines [es],
    the [i]-th pass being the first of them. *)
Fixpoint loopDeferred (rangeTypeNew : nat → gset foldp → list foldp) (σ : state)
    (v : GoValue) (off : Z) (i : nat) (es : list enginep) (deferred : list event) :
    list event :=
  match es with
  | [] => deferred
  | _ :: es' =>
      loopDeferred rangeTypeNew σ v off (S i) es'
        (rev (pendingSignals (heap σ) v off (rangeTypeNew i (typeNew σ))) ++ deferred)
  end.

(** Two registered engines, at native addresses 7 and 8, and a value
    wrapped once in each. *)
Definition twoEngines : state :=
  start {[ 0%nat := mkEngine 7%N ∅ false; 1%nat := mkEngine 8%N ∅ false ]}
        {[ 7%N := 0%nat; 8%N := 1%nat ]} 1.

Definition aliasedAcrossEngines : state :=
  final (run [ Wrap 1 11%N 0%nat structPtr jsOwner;
               Wrap 1 12%N 1%nat structPtr jsOwner ] twoEngines).

(** ** A conversion for the examples *)

Definition numeric (t : rtype) : bool :=
  match t with TInt | TInt64 | TFloat64 => true | _ => false end.

(** Numbers convert to any numeric type; any other value to its own type
    only. *)
Definition numberConvert (v : rvalue) (t : rtype) : option rvalue :=
  match v with
  | mkValue s (PScalar z) =>
      if numeric s && numeric t then Some (mkValue t (PScalar z)) else None
  | mkValue s _ => if decide (s = t) then Some v else None
  end.

(** A setter taking an [int] that panics on a negative argument. *)
Definition pickySetter : method :=
  mkMethod [TInt]
    (λ v, match payloadOf v with
          | PScalar z => if decide (z < 0) then Some (byHost 7) else None
          | _ => None
          end).

(** The engine of [aliasTwice] torn down afterwards, and two of its
    three folds destroyed: the second alias, then the root. *)
Definition tornDown : state := final (engineDestroy 0%nat (final (run aliasTwice oneEngine))).
Definition twoDestroyed : state := final (run [Destroy 7%N 1%nat; Destroy 7%N 0%nat] tornDown).

(** A value with three folds in the first of two engines, the first and
    the third of them destroyed, and one fold in the second engine. *)
Definition orphanAcrossEngines : state :=
  final (run (aliasTwice ++ [ Destroy 7%N 0%nat; Destroy 7%N 2%nat;
                              Wrap 1 14%N 1%nat structPtr jsOwner ]) twoEngines).

(** ** What every reachable state satisfies *)

(** [l] is a path along [next]: each fold of [l] is in the heap and
    points to the one after it, the last to nil. *)
Definition forward (h : gmap foldp valueFold) (l : list foldp) : Prop :=
  ∀ i p, l !! i = Some p → ∃ F, h !! p = Some F ∧ next F = l !! S i.

(** Two folds of the same engine and value. *)
Definition sameClass (F G : valueFold) : Prop :=
  engine G = engine F ∧ gvalue G = gvalue F.

(** Well-formedness: the registry holds engines of the heap; pending
    folds are unlinked; the maps hold folds of their engine and key; a
    [next] or [prev] link leads from a fold with an engine to a fold of
    the same engine and value, linked later (for [next]) or earlier (for
    [prev]) according to [rank], so that no path along [next] comes back
    on itself.  Unlike chain integrity this holds whatever
    [wrapGoValue] does to a chain. *)
Record wf (σ : state) (rank : foldp → nat) : Prop := mkWf {
  wf_keyed : ∀ a e, engines σ !! a = Some e → is_Some (eheap σ !! e);
  wf_pending : ∀ p, p ∈ typeNew σ →
    ∃ F, heap σ !! p = Some F ∧ engine F = None
         ∧ prev F = None ∧ next F = None ∧ is_Some (init F);
  wf_root : ∀ e E v p, eheap σ !! e = Some E → values E !! v = Some p →
    ∃ F, heap σ !! p = Some F ∧ engine F = Some e ∧ gvalue F = v;
  wf_next : ∀ p F q, heap σ !! p = Some F → next F = Some q →
    ∃ G, heap σ !! q = Some G ∧ is_Some (engine F) ∧ sameClass F G ∧ (rank p < rank q)%nat;
  wf_prev : ∀ p F q, heap σ !! p = Some F → prev F = Some q →
    ∃ G, heap σ !! q = Some G ∧ is_Some (engine F) ∧ sameClass F G ∧ (rank q < rank p)%nat
}.

Definition wellFormed (σ : state) : Prop := ∃ rank, wf σ rank.

(** The states of a process: it starts with engines that hold no value
    yet, registered under keys of their own, and goes on by the
    operations of the registry that return, by the teardown of an engine
    and by the start and the end of a painting. *)
Inductive reachable : state → Prop :=
  | reach_start eh es loopRef :
      (∀ e E, eh !! e = Some E → values E = ∅) →
      (∀ a e, es !! a = Some e → is_Some (eh !! e)) →
      reachable (start eh es loopRef)
  | reach_exec σ o σ' :
      reachable σ → exec o σ = Return tt σ' → reachable σ'
  | reach_engineDestroy σ e σ' :
      reachable σ → engineDestroy e σ = Return tt σ' → reachable σ'
  | reach_paint σ ref :
      reachable σ → reachable (set_guiPaintRef ref σ).

(** Setting the rank of one fold. *)
Definition setRank (rank : foldp → nat) (f : foldp) (n : nat) : foldp → nat :=
  λ p, if decide (p = f) then n else rank p.

(** Nothing leads to fold [f]: no link and no map entry. *)
Definition detached (σ : state) (f : foldp) : Prop :=
  (∀ x X, heap σ !! x = Some X → next X ≠ Some f ∧ prev X ≠ Some f)
  ∧ (∀ e E v, eheap σ !! e = Some E → values E !! v ≠ Some f).

(** The heap after [hookGoValueDestroyed] has made the neighbours of a
    fold with contents [F] point past it. *)
Definition unlinkFold (h : gmap foldp valueFold) (F : valueFold) : gmap foldp valueFold :=
  let h1 := match prev F with
            | Some q => alter (with_next (next F)) q h
            | None => h
            end in
  match next F with
  | Some n => alter (with_prev (prev F)) n h1
  | None => h1
  end.

(** What the unlinking of a fold with contents [F] makes of the
    contents [X] of fold [x]. *)
Definition relinked (F : valueFold) (x : foldp) (X : valueFold) : valueFold :=
  mkFold (engine X) (gvalue X) (cvalue X) (init X)
         (if decide (next F = Some x) then prev F else prev X)
         (if decide (prev F = Some x) then next F else next X)
         (owner X).

(** ** Pre- and postconditions *)

(** From a state with [P], [m] returns [a] in a state with [R a], or
    panics or loops in a state with [X]. *)
Definition triple {A} (P : state → Prop) (m : M A)
    (R : A → state → Prop) (X : state → Prop) : Prop :=
  ∀ σ, P σ → match m σ with
             | Return a σ' => R a σ'
             | Panicked _ σ' => X σ'
             | Diverged σ' => X σ'
             end.

(** Fold [f] is still what it was when it held [F]: the same value,
    native handle, initializer and ownership, and the same engine if [F]
    had one. *)
Definition sameFold (f : foldp) (F : valueFold) (σ : state) : Prop :=
  ∃ F', heap σ !! f = Some F'
    ∧ gvalue F' = gvalue F ∧ cvalue F' = cvalue F
    ∧ init F' = init F ∧ owner F' = owner F
    ∧ (is_Some (engine F) → engine F' = engine F).

(** What a change of one fold may not touch. *)
Definition relinks (g : valueFold → valueFold) : Prop :=
  ∀ G, gvalue (g G) = gvalue G ∧ cvalue (g G) = cvalue G
       ∧ init (g G) = init G ∧ owner (g G) = owner G ∧ engine (g G) = engine G.

(** ** Slices in memory *)

(** The slice [s] lies within its backing array and reads as [l]. *)
Definition holds (m : lmem) (s : slice) (l : list (option Object)) : Prop :=
  ∃ a, arrays m !! arr s = Some a
       ∧ (off s + cap s ≤ length a)%nat ∧ (len s ≤ cap s)%nat
       ∧ l = take (len s) (drop (off s) a).

(** ** Decoded parameters *)

(** [q] is what the loop of [hookGoValueCallMethod] makes of the decoded
    parameter [p] for a parameter of type [argt]: [p] itself when it has
    that type, else what [Convert] returns. *)
Definition converts (convert : rvalue → rtype → rvalue + goPanic)
    (p : rvalue) (argt : rtype) (q : rvalue) : Prop :=
  if decide (typeOf p = argt) then q = p else convert p argt = inl q.

(** The tail of [hookGoValueCallMethod], after the call of the method:
    the results are packed. *)
Definition packOutcome {DV} (packDataValue : rvalue → option enginep → valueOwner → M DV)
    (MaxParams : nat) (engine : option enginep) (result : list rvalue) : M (callOutcome DV) :=
  match result with
  | [] => ret NoResult
  | [r] =>
      let* dv := packDataValue r engine jsOwner in
      ret (OneResult dv)
  | _ =>
      if decide (MaxParams < length result)%nat
      then panic "function has too many results"
      else
        let* dvs := packResults packDataValue engine result in
        ret (ManyResults dvs)
  end.

(** ** More scenarios *)

(** The engine mentioned by the scenarios, without value and with one. *)
Definition engineSeven : Engine := mkEngine 7%N ∅ false.

(** A value wrapped once, script-owned. *)
Definition wrappedOnce : state :=
  final (run [Wrap 1 11%N 0%nat structPtr jsOwner] oneEngine).

(** A registered type instantiated, its fold pending. *)
Definition onePending : state :=
  final (run [TypeNew 100%N 21%N (mkTypeSpec 5 Struct)] oneEngine).

(** The same with two engines registered. *)
Definition onePendingTwoEngines : state :=
  final (run [TypeNew 100%N 21%N (mkTypeSpec 5 Struct)] twoEngines).

(** A paint method that hands a value to QML as native-owned. *)
Definition wrappingPaint (ref : Z) : Painter → M unit :=
  λ _, wrapGoValue ref 12%N 0%nat structPtr cppOwner ;; ret tt.

(** A field of the wrapped value that holds one object in an array of
    two entries. *)
Definition oneObject : lmem :=
  mkLmem {[ 0%nat := [Some (mkObject (Some 0%nat) 31%N); None] ]}
         {[ (structPtr, 0) := mkSlice 0 0 1 2 ]}.

(** A setter that stores the slice it is given in that field. *)
Definition storingSetter : slice → lmem → lres unit :=
  λ s m, LReturn tt (mkLmem (arrays m) (<[(structPtr, 0) := s]> (fields m))).

(** A codec for the examples: a slot holds the value itself. *)
Definition plainUnpack : rvalue → option enginep → M (option rvalue) :=
  λ dv _, ret (Some dv).
Definition plainPack : rvalue → option enginep → valueOwner → M rvalue :=
  λ r _ _, ret r.
Definition numberConvertOrPanic (v : rvalue) (t : rtype) : rvalue + goPanic :=
  match numberConvert v t with
  | Some y => inl y
  | None => inr (StringPanic "reflect.Value.Convert: value cannot be converted")
  end.

(** A method [Scale(int64, float64)] that returns its two arguments. *)
Definition scaleMethod : gmethod :=
  mkGmethod "Scale" [TInt64; TFloat64] (λ args, ret args).
Definition scaleOnly : GoValue → Z → option gmethod :=
  λ _ i, if decide (i = 0) then Some scaleMethod else None.

(** The slots of a call: the result slot, then the arguments. *)
Definition slots (l : list rvalue) : nat → rvalue :=
  λ i, default (mkValue TBool PNil) (l !! i).
Ltac unfold_M :=
  unfold bind, ret, panic, gets, modify, call, update_fold, update_engine,
         load_fold, load_engine, new_fold, stats_valuesAlive, delete_typeNew in *.

Ltac msimpl := repeat (progress (unfold_M; cbn)).

Lemma wrap_admitted_eq ref cnew e v ow σ :
  admitted v = true →
  wrapGoValue ref cnew e v ow σ =
  (let* paintRef := gets guiPaintRef in
    let painting := bool_decide (ref = paintRef) in
    let* E := load_engine e in
    let prev := values E !! v in
    let* reuse :=
      match prev with
      | Some p =>
          let* P := load_fold p in
          if bool_decide (owner P = ow)
             || negb (bool_decide (ow = cppOwner)) || painting
          then ret (Some (cvalue P)) else ret None
      | None => ret None
      end in
    match reuse with
    | Some c => ret c
    | None =>
        if painting then panic "cannot allocate new objects while painting"
        else
          let parent := if decide (ow = cppOwner) then addr E else nilPtr in
          let* fold := new_fold (mkFold (Some e) v nilPtr None None None ow) in
          call (newGoValue fold v parent cnew) ;;
          update_fold fold (with_cvalue cnew) ;;
          match prev with
          | Some p =>
              update_fold p (with_next (Some fold)) ;;
              update_fold fold (with_prev (Some p))
          | None =>
              update_engine e (λ E, with_values (<[v := fold]> (values E)) E)
          end ;;
          stats_valuesAlive 1 fold ;;
          call (engineSetContextForObject (addr E) cnew) ;;
          (if decide (ow = cppOwner) then call (engineSetOwnershipCPP (addr E) cnew)
           else if decide (ow = jsOwner) then call (engineSetOwnershipJS (addr E) cnew)
           else ret tt) ;;
          ret cnew
    end) σ.
Proof.
  unfold admitted, wrapGoValue. intros Hadm.
  apply andb_true_iff in Hadm as [H1 H2].
  apply negb_true_iff in H1. apply negb_true_iff in H2.
  rewrite H1, H2. reflexivity.
Qed.

Lemma alter_insert_cell {K V} `{Countable K} (m : gmap K V) k x f :
  m !! k = Some x → alter f k m = <[k := f x]> m.
Proof.
  intros Hk. apply map_eq. intros k'. destruct (decide (k' = k)) as [-> |].
  - by rewrite lookup_alter_eq, lookup_insert_eq, Hk.
  - by rewrite lookup_alter_ne, lookup_insert_ne.
Qed.

Lemma fresh_fold_None σ : heap σ !! fresh (dom (heap σ)) = None.
Proof. apply not_elem_of_dom. apply is_fresh. Qed.

Lemma wrap_reuse ref cnew e E v ow p P σ :
  admitted v = true →
  eheap σ !! e = Some E → values E !! v = Some p → heap σ !! p = Some P →
  reuses σ ref P ow →
  wrapGoValue ref cnew e v ow σ = Return (cvalue P) σ.
Proof.
  intros Hadm HE Hv HP Hr. rewrite wrap_admitted_eq by done.
  unfold_M. cbn. rewrite HE. cbn. rewrite Hv, HP.
  destruct Hr as [Hr | [Hr | Hr]].
  - rewrite (bool_decide_eq_true_2 _ Hr). reflexivity.
  - rewrite (bool_decide_eq_false_2 _ Hr). cbn. rewrite orb_true_r. reflexivity.
  - rewrite (bool_decide_eq_true_2 _ Hr). rewrite !orb_true_r. reflexivity.
Qed.

Lemma wrap_alias ref cnew e E v ow p P σ :
  admitted v = true →
  eheap σ !! e = Some E → values E !! v = Some p → heap σ !! p = Some P →
  ¬ reuses σ ref P ow →
  let f := fresh (dom (heap σ)) in
  ∃ σ', wrapGoValue ref cnew e v ow σ = Return cnew σ'
    ∧ heap σ' !! f = Some (mkFold (Some e) v cnew None (Some p) None ow)
    ∧ heap σ' !! p = Some (with_next (Some f) P)
    ∧ (∀ q, q ≠ f → q ≠ p → heap σ' !! q = heap σ !! q)
    ∧ eheap σ' = eheap σ ∧ engines σ' = engines σ ∧ typeNew σ' = typeNew σ
    ∧ alive σ' = alive σ ∪ {[f]}
    ∧ valuesAlive σ' = valuesAlive σ + 1
    ∧ log σ' = log σ ++ [newGoValue f v (addr E) cnew;
                         engineSetContextForObject (addr E) cnew;
                         engineSetOwnershipCPP (addr E) cnew].
Proof.
  intros Hadm HE Hv HP Hr f. rewrite wrap_admitted_eq by done.
  unfold reuses in Hr.
  assert (Ho : owner P ≠ ow) by tauto.
  assert (Hc : ow = cppOwner) by (destruct (decide (ow = cppOwner)); tauto).
  assert (Hp : ref ≠ guiPaintRef σ) by tauto.
  assert (Hfp : f ≠ p).
  { intros Heq. pose proof (fresh_fold_None σ) as Hf. fold f in Hf. congruence. }
  unfold_M. cbn. rewrite HE. cbn. rewrite Hv, HP.
  rewrite (bool_decide_eq_false_2 _ Ho), (bool_decide_eq_true_2 _ Hc),
          (bool_decide_eq_false_2 _ Hp). cbn.
  fold f. msimpl. rewrite lookup_insert_eq. msimpl.
  rewrite lookup_alter_ne, lookup_insert_ne, HP by done. msimpl.
  rewrite lookup_alter_ne by done.
  rewrite lookup_alter_eq, lookup_insert_eq. msimpl.
  destruct (decide (ow = cppOwner)) as [_ | ?]; [| done]. msimpl.
  eexists. split; [reflexivity |]. cbn.
  repeat split.
  - rewrite lookup_alter_eq, lookup_alter_ne by done.
    rewrite lookup_alter_eq, lookup_insert_eq. done.
  - rewrite lookup_alter_ne by done. rewrite lookup_alter_eq.
    rewrite lookup_alter_ne, lookup_insert_ne, HP by done. done.
  - intros q Hqf Hqp. rewrite !lookup_alter_ne by done.
    rewrite lookup_insert_ne by done. done.
  - rewrite <- !app_assoc. done.
Qed.

Lemma wrap_unhashable_struct ref cnew e v ow σ :
  kind v = Struct → hashable v = false →
  wrapGoValue ref cnew e v ow σ =
  Panicked ("cannot hand an unhashable struct value"
            +:+ (if decide (typeName v ≠ "") then " (" +:+ typeName v +:+ ")" else typeName v)
            +:+ " to QML logic; use its address instead") σ.
Proof.
  intros Hk Hh. unfold wrapGoValue.
  rewrite (bool_decide_eq_true_2 _ Hk), Hh. reflexivity.
Qed.

Lemma wrap_pointer_of_pointer ref cnew e v ow σ :
  kind v = Ptr → elemKind v = Ptr →
  wrapGoValue ref cnew e v ow σ =
  Panicked "cannot hand pointer of pointer to QML logic; use a simple pointer instead" σ.
Proof.
  intros Hk He. unfold wrapGoValue.
  assert (Hs : kind v ≠ Struct) by (rewrite Hk; discriminate).
  rewrite (bool_decide_eq_false_2 _ Hs), (bool_decide_eq_true_2 _ Hk),
          (bool_decide_eq_true_2 _ He). reflexivity.
Qed.

Lemma wrap_fresh_while_painting ref cnew e E v ow σ :
  admitted v = true → eheap σ !! e = Some E → values E !! v = None →
  ref = guiPaintRef σ →
  wrapGoValue ref cnew e v ow σ = Panicked "cannot allocate new objects while painting" σ.
Proof.
  intros Hadm HE Hv Hp. rewrite wrap_admitted_eq by done.
  msimpl. rewrite HE. msimpl. rewrite Hv. msimpl.
  rewrite (bool_decide_eq_true_2 _ Hp). reflexivity.
Qed.

Lemma wrap_not_admitted ref cnew e v ow σ :
  admitted v = false → ∃ msg, wrapGoValue ref cnew e v ow σ = Panicked msg σ.
Proof.
  unfold admitted, wrapGoValue. intros Hadm.
  destruct (bool_decide (kind v = Struct) && negb (hashable v)); [eauto |].
  destruct (bool_decide (kind v = Ptr) && bool_decide (elemKind v = Ptr)); [eauto |].
  discriminate.
Qed.

Lemma wrap_painting_panics ref cnew e v ow σ :
  ref = guiPaintRef σ →
  (∀ E p P, eheap σ !! e = Some E → values E !! v = Some p →
            heap σ !! p = Some P → ¬ reuses σ ref P ow) →
  ∃ msg, wrapGoValue ref cnew e v ow σ = Panicked msg σ.
Proof.
  intros Hp Hno.
  destruct (admitted v) eqn:Hadm; [| by apply wrap_not_admitted].
  rewrite wrap_admitted_eq by done. msimpl.
  destruct (eheap σ !! e) as [E |] eqn:HE; [| eauto]. msimpl.
  destruct (values E !! v) as [p |] eqn:Hv.
  - msimpl. destruct (heap σ !! p) as [P |] eqn:HP; [| eauto].
    exfalso. apply (Hno E p P); auto. unfold reuses. auto.
  - msimpl. rewrite (bool_decide_eq_true_2 _ Hp). eauto.
Qed.

Lemma wrap_first ref cnew e E v ow σ :
  admitted v = true →
  eheap σ !! e = Some E → values E !! v = None → ref ≠ guiPaintRef σ →
  let f := fresh (dom (heap σ)) in
  ∃ σ', wrapGoValue ref cnew e v ow σ = Return cnew σ'
    ∧ heap σ' = <[f := mkFold (Some e) v cnew None None None ow]> (heap σ)
    ∧ eheap σ' = <[e := with_values (<[v := f]> (values E)) E]> (eheap σ)
    ∧ engines σ' = engines σ ∧ typeNew σ' = typeNew σ
    ∧ alive σ' = alive σ ∪ {[f]}
    ∧ valuesAlive σ' = valuesAlive σ + 1
    ∧ ∃ calls, log σ' = log σ ++ newGoValue f v (if decide (ow = cppOwner) then addr E else nilPtr) cnew :: calls.
Proof.
  intros Hadm HE Hv Hp f. rewrite wrap_admitted_eq by done.
  msimpl. rewrite HE. msimpl. rewrite Hv. msimpl.
  rewrite (bool_decide_eq_false_2 _ Hp). msimpl.
  fold f. rewrite lookup_insert_eq. msimpl. rewrite HE. msimpl.
  assert (Hheap : alter (with_cvalue cnew) f
                    (<[f := mkFold (Some e) v nilPtr None None None ow]> (heap σ))
                  = <[f := mkFold (Some e) v cnew None None None ow]> (heap σ)).
  { apply map_eq. intros x. destruct (decide (x = f)) as [-> |].
    - by rewrite lookup_alter_eq, !lookup_insert_eq.
    - by rewrite lookup_alter_ne, !lookup_insert_ne. }
  assert (Hcell : alter (λ E0, with_values (<[v := f]> (values E0)) E0) e (eheap σ)
                  = <[e := with_values (<[v := f]> (values E)) E]> (eheap σ)).
  { rewrite (alter_insert_cell (eheap σ) e E) by done. reflexivity. }
  rewrite Hheap, Hcell.
  destruct (decide (ow = cppOwner)); [| destruct (decide (ow = jsOwner))]; msimpl;
    (eexists; split; [reflexivity |]; cbn; repeat split; try done;
     rewrite <- ?app_assoc; cbn; eauto).
Qed.

(** ** Lemmas on linked chains *)

Lemma linked_nil h e v : linked h e v [].
Proof. intros i p Hi. by rewrite lookup_nil in Hi. Qed.

Lemma linked_frame h h' e v l :
  linked h e v l → (∀ p, p ∈ l → h' !! p = h !! p) → linked h' e v l.
Proof.
  intros Hl Hsame i p Hi. destruct (Hl i p Hi) as (F & HF & ?).
  exists F. split; [| done]. rewrite Hsame; [done |].
  by apply list_elem_of_lookup_2 in Hi.
Qed.

Lemma linked_lookup h e v l p :
  linked h e v l → p ∈ l → ∃ F, h !! p = Some F ∧ engine F = Some e ∧ gvalue F = v.
Proof.
  intros Hl Hp. apply list_elem_of_lookup_1 in Hp as [i Hi].
  destruct (Hl i p Hi) as (F & ? & ? & ? & _). eauto.
Qed.

Lemma elem_of_delete_NoDup (l : list foldp) i p x :
  NoDup l → l !! i = Some p → x ∈ delete i l ↔ x ∈ l ∧ x ≠ p.
Proof.
  intros Hnd Hi. split.
  - intros Hx. split; [by eapply list_elem_of_delete_inv |].
    intros ->. apply list_elem_of_lookup_1 in Hx as [j Hj].
    destruct (decide (j < i)%nat).
    + rewrite list_lookup_delete_lt in Hj by done.
      pose proof (NoDup_lookup _ _ _ _ Hnd Hi Hj). lia.
    + rewrite list_lookup_delete_ge in Hj by lia.
      pose proof (NoDup_lookup _ _ _ _ Hnd Hi Hj). lia.
  - intros [Hx Hne]. apply list_elem_of_lookup_1 in Hx as [j Hj].
    destruct (decide (j < i)%nat).
    + apply (list_elem_of_lookup_2 _ j). by rewrite list_lookup_delete_lt.
    + assert (j ≠ i) by (intros ->; congruence).
      destruct j as [| j]; [lia |].
      apply (list_elem_of_lookup_2 _ j). rewrite list_lookup_delete_ge by lia. done.
Qed.

Lemma NoDup_delete (l : list foldp) i : NoDup l → NoDup (delete i l).
Proof. intros Hnd. eapply sublist_NoDup; [done | apply sublist_delete]. Qed.

Lemma prevIndex_delete_lt (l : list foldp) i j :
  (j ≤ i)%nat → prevIndex (delete i l) j = prevIndex l j.
Proof.
  intros Hj. destruct j as [| j]; [done |]. cbn.
  apply list_lookup_delete_lt. lia.
Qed.

Lemma prevIndex_delete_ge (l : list foldp) i j :
  (i < j)%nat → prevIndex (delete i l) j = prevIndex l (S j).
Proof.
  intros Hj. destruct j as [| j]; [lia |]. cbn.
  apply list_lookup_delete_ge. lia.
Qed.

(** Unlinking position [i] leaves the rest of the chain well linked. *)
Lemma linked_unlink h e v l i p :
  NoDup l → linked h e v l → l !! i = Some p →
  linked (unlink h l i) e v (delete i l).
Proof.
  intros Hnd Hl Hi j x Hj.
  assert (Hx : ∃ k, l !! k = Some x ∧ k ≠ i ∧ k = if decide (j < i)%nat then j else S j).
  { destruct (decide (j < i)%nat).
    - rewrite list_lookup_delete_lt in Hj by done. exists j. repeat split; [done | lia].
    - rewrite list_lookup_delete_ge in Hj by lia. exists (S j). repeat split; [done | lia]. }
  destruct Hx as (k & Hk & Hki & Hkj).
  destruct (Hl k x Hk) as (F & HF & He & Hv & Hprev & Hnext).
  (* how [x] is changed by the unlinking *)
  assert (Hlook : unlink h l i !! x =
            Some (if decide (S k = i) then with_next (l !! S i) F
                  else if decide (k = S i) then with_prev (prevIndex l i) F
                  else F)).
  { unfold unlink.
    assert (Hq : ∀ q, prevIndex l i = Some q → (q = x ↔ S k = i)).
    { intros q Hq. destruct i as [| i']; [done |]. cbn in Hq. split.
      - intros ->. pose proof (NoDup_lookup _ _ _ _ Hnd Hk Hq). lia.
      - intros [= <-]. congruence. }
    assert (Hn : ∀ n, l !! S i = Some n → (n = x ↔ k = S i)).
    { intros n Hn. split.
      - intros ->. apply (NoDup_lookup _ _ _ _ Hnd Hk Hn).
      - intros ->. congruence. }
    destruct (l !! S i) as [n |] eqn:Hni.
    - destruct (decide (n = x)) as [-> | Hnx].
      + assert (k = S i) by (by apply (Hn x)).
        rewrite lookup_alter_eq.
        destruct (decide (S k = i)); [lia |].
        destruct (decide (k = S i)); [| done].
        destruct (prevIndex l i) as [q |] eqn:Hqi; [| rewrite HF; reflexivity].
        rewrite lookup_alter_ne, HF; [reflexivity |].
        intros ->. assert (S k = i) by (by apply (Hq x)). lia.
      + rewrite lookup_alter_ne by done.
        assert (k ≠ S i) by (intros ->; apply Hnx; by apply (Hn n)).
        destruct (decide (k = S i)); [done |].
        destruct (prevIndex l i) as [q |] eqn:Hqi.
        * destruct (decide (q = x)) as [-> | Hqx].
          -- assert (S k = i) by (by apply (Hq x)).
             destruct (decide (S k = i)); [| done]. rewrite lookup_alter_eq, HF; reflexivity.
          -- assert (S k ≠ i) by (intros ?; apply Hqx; by apply (Hq q)).
             destruct (decide (S k = i)); [done |]. rewrite lookup_alter_ne, HF; [reflexivity | done].
        * destruct (decide (S k = i)) as [<- |]; [| done].
          cbn in Hqi. congruence.
    - assert (k ≠ S i) by (intros ->; congruence).
      destruct (decide (k = S i)); [done |].
      destruct (prevIndex l i) as [q |] eqn:Hqi.
      + destruct (decide (q = x)) as [-> | Hqx].
        * assert (S k = i) by (by apply (Hq x)).
          destruct (decide (S k = i)); [| done]. rewrite lookup_alter_eq, HF; reflexivity.
        * assert (S k ≠ i) by (intros ?; apply Hqx; by apply (Hq q)).
          destruct (decide (S k = i)); [done |]. rewrite lookup_alter_ne, HF; [reflexivity | done].
      + destruct (decide (S k = i)) as [<- |]; [| done].
        cbn in Hqi. congruence. }
  eexists. split; [exact Hlook |].
  destruct (decide (j < i)%nat) as [Hlt | Hge]; subst k.
  - destruct (decide (S j = i)) as [Heq | Hne].
    + cbn. repeat split; [done | done | |].
      * rewrite Hprev. symmetry. apply prevIndex_delete_lt. lia.
      * rewrite list_lookup_delete_ge by lia. by rewrite Heq.
    + destruct (decide (j = S i)); [lia |].
      repeat split; [done | done | |].
      * rewrite Hprev. symmetry. apply prevIndex_delete_lt. lia.
      * rewrite list_lookup_delete_lt by lia. done.
  - destruct (decide (S (S j) = i)); [lia |].
    destruct (decide (S j = S i)) as [Heq | Hne].
    + assert (j = i) by lia. subst j. cbn. repeat split; [done | done | |].
      * symmetry. apply prevIndex_delete_lt. lia.
      * rewrite list_lookup_delete_ge by lia. done.
    + repeat split; [done | done | |].
      * rewrite Hprev. symmetry. apply prevIndex_delete_ge. lia.
      * rewrite list_lookup_delete_ge by lia. done.
Qed.

(** *** Paths along [next] *)

Lemma linked_forward h e v l : linked h e v l → forward h l.
Proof.
  intros Hl i p Hi. destruct (Hl i p Hi) as (F & HF & _ & _ & _ & Hn). eauto.
Qed.

Lemma forward_lookup h l p : forward h l → p ∈ l → is_Some (h !! p).
Proof.
  intros Hl Hp. apply list_elem_of_lookup_1 in Hp as [i Hi].
  destruct (Hl i p Hi) as (F & HF & _). eauto.
Qed.

Lemma forward_frame h h' l :
  forward h l → (∀ p, p ∈ l → h' !! p = h !! p) → forward h' l.
Proof.
  intros Hl Hsame i p Hi. destruct (Hl i p Hi) as (F & HF & ?).
  exists F. split; [| done]. rewrite Hsame; [done |].
  by apply list_elem_of_lookup_2 in Hi.
Qed.

Lemma forward_length_le h (l : list foldp) :
  NoDup l → forward h l → (length l ≤ size h)%nat.
Proof.
  intros Hnd Hl.
  rewrite <- (size_list_to_set (C := gset foldp) l) by done.
  rewrite <- size_dom. apply subseteq_size.
  intros x Hx. apply elem_of_list_to_set in Hx.
  apply elem_of_dom. by apply (forward_lookup h l).
Qed.

(** Walking a path from any of its positions yields the rest. *)
Lemma chainFrom_forward h (l : list foldp) :
  forward h l →
  ∀ fuel i, (length l - i ≤ fuel)%nat → chainFrom fuel h (l !! i) = drop i l.
Proof.
  intros Hl fuel. induction fuel as [| fuel IH]; intros i Hfuel.
  - rewrite drop_ge by lia. cbn. done.
  - destruct (l !! i) as [p |] eqn:Hi.
    + cbn. destruct (Hl i p Hi) as (F & HF & Hn).
      rewrite HF, Hn, IH by lia.
      symmetry. by apply drop_S.
    + cbn. apply lookup_ge_None in Hi. by rewrite drop_ge by lia.
Qed.

(** The loop of [ensureEngine] stops at the end of a path. *)
Lemma lastFold_forward σ (l : list foldp) :
  forward (heap σ) l →
  ∀ fuel i p, l !! i = Some p → (length l - S i ≤ fuel)%nat →
    ∃ q, last l = Some q ∧ lastFold fuel p σ = Return q σ.
Proof.
  intros Hl fuel. induction fuel as [| fuel IH]; intros i p Hi Hfuel.
  - destruct (Hl i p Hi) as (F & HF & Hn).
    assert (Hlast : l !! S i = None) by (apply lookup_ge_None; lia).
    exists p. split.
    + rewrite last_lookup. apply lookup_lt_Some in Hi as Hlt.
      replace (pred (length l)) with i by lia. done.
    + cbn. msimpl. rewrite HF. msimpl. rewrite Hn, Hlast. done.
  - destruct (Hl i p Hi) as (F & HF & Hn).
    destruct (l !! S i) as [n |] eqn:Hsi.
    + destruct (IH (S i) n Hsi) as (q & Hq & Hrun); [lia |].
      exists q. split; [done |].
      cbn. msimpl. rewrite HF. msimpl. rewrite Hn. done.
    + exists p. split.
      * rewrite last_lookup. apply lookup_lt_Some in Hi as Hlt.
        apply lookup_ge_None in Hsi.
        replace (pred (length l)) with i by lia. done.
      * cbn. msimpl. rewrite HF. msimpl. rewrite Hn. done.
Qed.

(** *** Linked chains are paths *)

Lemma linked_length_le h e v (l : list foldp) :
  NoDup l → linked h e v l → (length l ≤ size h)%nat.
Proof. intros Hnd Hl. eapply forward_length_le; [done | by eapply linked_forward]. Qed.

Lemma chainFrom_linked h e v (l : list foldp) :
  linked h e v l →
  ∀ fuel i, (length l - i ≤ fuel)%nat → chainFrom fuel h (l !! i) = drop i l.
Proof. intros Hl. apply chainFrom_forward. by eapply linked_forward. Qed.

Lemma foldChain_repr σ ch e v : repr σ ch → foldChain σ e v = ch e v.
Proof.
  intros R. unfold foldChain.
  destruct (eheap σ !! e) as [E |] eqn:HE.
  - rewrite (repr_root _ _ R e E v HE), head_lookup.
    rewrite (chainFrom_linked _ e v); [by rewrite drop_0 | apply (repr_linked _ _ R) |].
    pose proof (linked_length_le _ _ _ _ (repr_nodup _ _ R e v) (repr_linked _ _ R e v)). lia.
  - destruct (ch e v) eqn:Hc; [done |].
    destruct (repr_registered _ _ R e v) as (E & HE' & _); [by rewrite Hc | congruence].
Qed.

(** The loop of [ensureEngine] stops at the tail of a linked chain. *)
Lemma lastFold_linked σ e v (l : list foldp) :
  linked (heap σ) e v l →
  ∀ fuel i p, l !! i = Some p → (length l - S i ≤ fuel)%nat →
    ∃ q, last l = Some q ∧ lastFold fuel p σ = Return q σ.
Proof. intros Hl. apply lastFold_forward. by eapply linked_forward. Qed.

(** ** [hookGoValueDestroyed] on a consistent state *)


Lemma destroy_exec σ ch ep e v i p :
  repr σ ch → ch e v !! i = Some p →
  ∃ E, eheap σ !! e = Some E ∧ engines σ !! addr E = Some e ∧
       hookGoValueDestroyed ep p σ = Return tt (afterDestroy σ e E v (ch e v) i p).
Proof.
  intros R Hi. set (l := ch e v) in *.
  assert (Hne : ch e v ≠ []) by (intros Heq; fold l in Heq; rewrite Heq in Hi; by rewrite lookup_nil in Hi).
  destruct (repr_registered _ _ R e v Hne) as (E & HE & Hreg).
  exists E. split; [done |]. split; [done |].
  pose proof (repr_linked _ _ R e v) as Hl. fold l in Hl.
  pose proof (repr_nodup _ _ R e v) as Hnd. fold l in Hnd.
  destruct (Hl i p Hi) as (F & HF & HFe & HFv & HFp & HFn).
  unfold hookGoValueDestroyed, afterDestroy, unlink.
  msimpl. rewrite HF. msimpl. rewrite HFe. msimpl. rewrite HE. msimpl.
  rewrite Hreg. msimpl. rewrite HFp, HFn.
  destruct i as [| j]; cbn [prevIndex].
  - (* the root *)
    destruct (l !! 1%nat) as [n |] eqn:Hn.
    + destruct (Hl 1%nat n Hn) as (G & HG & _).
      assert (n ≠ p) by (intros ->; pose proof (NoDup_lookup _ _ _ _ Hnd Hi Hn); lia).
      msimpl. rewrite HG. msimpl. rewrite lookup_alter_ne, HF by done. msimpl.
      cbn in HFp. rewrite HFp. msimpl. rewrite HE. msimpl. rewrite HFn. cbn.
      rewrite (alter_insert_cell (eheap σ) e E) by done. rewrite HFv.
      destruct (decide (0 < -1)); [lia |]. reflexivity.
    + msimpl. rewrite HE. msimpl. rewrite lookup_alter_eq, HE. msimpl.
      rewrite (alter_insert_cell (eheap σ) e E) by done. rewrite HFv.
      assert (Hroot : values E !! v = Some p).
      { rewrite (repr_root _ _ R e E v HE). fold l. by rewrite head_lookup. }
      destruct (decide (size (delete v (values E)) = size (values E))) as [Hsz |].
      { rewrite map_size_delete, Hroot in Hsz.
        assert (size (values E) ≠ 0%nat).
        { intros Hz. apply map_size_empty_inv in Hz. rewrite Hz in Hroot. by rewrite lookup_empty in Hroot. }
        lia. }
      destruct (destroyed E && bool_decide (size (delete v (values E)) = 0%nat)); msimpl;
        destruct (decide (0 < -1)); try lia; reflexivity.
  - (* a fold with a predecessor *)
    assert (Hq : is_Some (l !! j)).
    { apply lookup_lt_is_Some. apply lookup_lt_Some in Hi. lia. }
    destruct Hq as [q Hq]. rewrite Hq. msimpl. rewrite HF. msimpl.
    destruct (Hl j q Hq) as (Q & HQ & _). rewrite HQ. msimpl.
    assert (q ≠ p) by (intros ->; pose proof (NoDup_lookup _ _ _ _ Hnd Hi Hq); lia).
    rewrite lookup_alter_ne, HF by done. msimpl. rewrite HFn.
    destruct (l !! S (S j)) as [n |] eqn:Hn.
    + destruct (Hl (S (S j)) n Hn) as (G & HG & _).
      assert (n ≠ q) by (intros ->; pose proof (NoDup_lookup _ _ _ _ Hnd Hq Hn); lia).
      msimpl. rewrite lookup_alter_ne, HG by done. msimpl.
      rewrite ?HFp. cbn [prevIndex]. rewrite ?Hq.
      destruct (decide (0 < -1)); [lia |]. reflexivity.
    + msimpl. destruct (decide (0 < -1)); [lia |]. reflexivity.
Qed.

Lemma unlink_lookup_other h (l : list foldp) i x :
  x ∉ l → unlink h l i !! x = h !! x.
Proof.
  intros Hx. unfold unlink.
  assert (Hq : ∀ q, prevIndex l i = Some q → q ≠ x).
  { intros q Hq ->. destruct i; [done |]. apply Hx. by eapply list_elem_of_lookup_2. }
  assert (Hn : ∀ n, l !! S i = Some n → n ≠ x).
  { intros n Hn ->. apply Hx. by eapply list_elem_of_lookup_2. }
  destruct (l !! S i) as [n |].
  - rewrite lookup_alter_ne by (by apply Hn).
    destruct (prevIndex l i) as [q |]; [| done].
    rewrite lookup_alter_ne by (by apply Hq). done.
  - destruct (prevIndex l i) as [q |]; [| done].
    rewrite lookup_alter_ne by (by apply Hq). done.
Qed.

Lemma repr_chain_disjoint σ ch e v e' v' x :
  repr σ ch → x ∈ ch e v → x ∈ ch e' v' → e' = e ∧ v' = v.
Proof.
  intros R H1 H2.
  destruct (linked_lookup _ _ _ _ _ (repr_linked _ _ R e v) H1) as (F & HF & He & Hv).
  destruct (linked_lookup _ _ _ _ _ (repr_linked _ _ R e' v') H2) as (F' & HF' & He' & Hv').
  split; congruence.
Qed.

Lemma repr_pending_not_chained σ ch e v x :
  repr σ ch → x ∈ typeNew σ → x ∉ ch e v.
Proof.
  intros R H1 H2.
  destruct (repr_pending _ _ R x H1) as (F & HF & He & _).
  destruct (linked_lookup _ _ _ _ _ (repr_linked _ _ R e v) H2) as (F' & HF' & He' & _).
  congruence.
Qed.

Lemma setChain_eq ch e v l : setChain ch e v l e v = l.
Proof. unfold setChain. by rewrite decide_True. Qed.

Lemma setChain_ne ch e v l e' v' :
  ¬ (e' = e ∧ v' = v) → setChain ch e v l e' v' = ch e' v'.
Proof. intros. unfold setChain. by rewrite decide_False. Qed.

Lemma delete_nonempty (l : list foldp) i : delete i l ≠ [] → l ≠ [].
Proof. by intros H ->. Qed.

Lemma repr_afterDestroy σ ch e E v i p :
  repr σ ch → eheap σ !! e = Some E → ch e v !! i = Some p →
  repr (afterDestroy σ e E v (ch e v) i p) (setChain ch e v (delete i (ch e v))).
Proof.
  intros R HE Hi. set (l := ch e v) in *.
  pose proof (repr_linked _ _ R e v) as Hl. fold l in Hl.
  pose proof (repr_nodup _ _ R e v) as Hnd. fold l in Hnd.
  assert (Hroot : ∀ v', values E !! v' = head (ch e v')) by (intros; by eapply repr_root).
  constructor.
  - (* roots *)
    intros e' E' v' HE'. unfold afterDestroy in HE'. cbn in HE'.
    unfold setChain. destruct (decide (e' = e ∧ v' = v)) as [[-> ->] | Hne].
    + destruct i as [| j].
      * rewrite lookup_insert_eq in HE'. injection HE' as <-. cbn.
        rewrite head_lookup. rewrite list_lookup_delete_ge by lia.
        destruct (l !! 1%nat) as [n |] eqn:Hn.
        -- by rewrite lookup_insert_eq.
        -- by rewrite lookup_delete_eq.
      * rewrite HE in HE'. injection HE' as <-.
        rewrite Hroot. fold l. rewrite !head_lookup.
        rewrite list_lookup_delete_lt by lia. done.
    + destruct i as [| j]; [| by eapply repr_root].
      destruct (decide (e' = e)) as [-> | Hee].
      * rewrite lookup_insert_eq in HE'. injection HE' as <-. cbn.
        assert (v' ≠ v) by (intros ->; by apply Hne).
        destruct (l !! 1%nat).
        -- rewrite lookup_insert_ne by done. apply Hroot.
        -- rewrite lookup_delete_ne by done. apply Hroot.
      * rewrite lookup_insert_ne in HE' by done. by eapply repr_root.
  - (* no duplicates *)
    intros e' v'. unfold setChain. destruct (decide (e' = e ∧ v' = v)).
    + by apply NoDup_delete.
    + apply (repr_nodup _ _ R).
  - (* links *)
    intros e' v'. unfold afterDestroy. cbn. unfold setChain.
    destruct (decide (e' = e ∧ v' = v)) as [[-> ->] | Hne].
    + by eapply linked_unlink.
    + apply (linked_frame (heap σ)); [apply (repr_linked _ _ R) |].
      intros x Hx. apply unlink_lookup_other. intros Hxl.
      apply Hne. by eapply (repr_chain_disjoint σ ch e v e' v' x).
  - (* the live folds *)
    intros x. unfold afterDestroy. cbn. rewrite elem_of_difference, elem_of_singleton.
    rewrite (repr_alive _ _ R). split.
    + intros [[Hx | (e' & v' & Hx)] Hxp]; [by left |]. right. exists e', v'.
      unfold setChain. destruct (decide (e' = e ∧ v' = v)) as [[-> ->] | Hne]; [| done].
      apply (elem_of_delete_NoDup l i p); done.
    + intros [Hx | (e' & v' & Hx)].
      * split; [by left |]. intros ->.
        apply (repr_pending_not_chained σ ch e v p R Hx).
        by eapply list_elem_of_lookup_2.
      * unfold setChain in Hx. destruct (decide (e' = e ∧ v' = v)) as [[-> ->] | Hne].
        -- apply (elem_of_delete_NoDup l i p) in Hx as [Hx ?]; [| done | done].
           split; [| done]. right. by exists e, v.
        -- split; [right; by exists e', v' |]. intros ->. apply Hne.
           eapply (repr_chain_disjoint σ ch e v e' v' p); [done | | done].
           by eapply list_elem_of_lookup_2.
  - (* pending folds *)
    intros x Hx. unfold afterDestroy in *. cbn in *.
    destruct (repr_pending _ _ R x Hx) as (F & HF & He). exists F. split; [| done].
    rewrite unlink_lookup_other; [done |].
    by apply (repr_pending_not_chained σ ch e v x R).
  - (* registration *)
    intros e' v' Hne.
    assert (Hne' : ch e' v' ≠ []).
    { unfold setChain in Hne. destruct (decide (e' = e ∧ v' = v)) as [[-> ->] |]; [| done].
      by eapply delete_nonempty. }
    destruct (repr_registered _ _ R e' v' Hne') as (E0 & HE0 & Hreg0).
    assert (HE' : ∃ E', eheap (afterDestroy σ e E v l i p) !! e' = Some E' ∧ addr E' = addr E0).
    { unfold afterDestroy. cbn. destruct i as [| j]; [| eauto].
      destruct (decide (e' = e)) as [-> | Hee].
      - rewrite lookup_insert_eq. eexists. split; [done |]. cbn. congruence.
      - rewrite lookup_insert_ne by done. eauto. }
    destruct HE' as (E' & HE' & Haddr). exists E'. split; [done |]. rewrite Haddr.
    unfold afterDestroy. cbn.
    destruct i as [| j]; [| done].
    destruct (l !! 1%nat) as [n |] eqn:Hn; [done |].
    destruct (destroyed E && bool_decide (size (delete v (values E)) = 0%nat)) eqn:Hd; [| done].
    apply andb_true_iff in Hd as [_ Hsz]. apply bool_decide_eq_true in Hsz.
    apply map_size_empty_inv in Hsz.
    destruct (decide (e' = e)) as [-> | Hee].
    + exfalso. unfold setChain in Hne.
      destruct (decide (e = e ∧ v' = v)) as [[_ ->] | Hvv].
      * apply Hne.
        destruct l as [| a [| b l']]; cbn in *; congruence.
      * assert (v' ≠ v) by (intros ->; by apply Hvv).
        assert (Hsome : delete v (values E) !! v' = head (ch e v')).
        { rewrite lookup_delete_ne by done. apply Hroot. }
        rewrite Hsz, lookup_empty in Hsome. destruct (ch e v'); [done | discriminate].
    + rewrite lookup_delete_ne; [done |].
      intros Heq. rewrite <- Heq in Hreg0.
      destruct (repr_registered _ _ R e v) as (E1 & HE1 & Hreg1).
      { intros Hnil. fold l in Hnil. rewrite Hnil in Hi. by rewrite lookup_nil in Hi. }
      assert (E1 = E) by congruence. subst E1. congruence.
  - (* keys of the registry *)
    intros a e' Ha.
    assert (Ha' : engines σ !! a = Some e').
    { unfold afterDestroy in Ha. cbn in Ha.
      destruct i; [| done]. destruct (l !! 1%nat); [done |].
      destruct (destroyed E && _); [| done].
      apply lookup_delete_Some in Ha. tauto. }
    destruct (repr_keyed _ _ R a e' Ha') as (E0 & HE0 & Haddr).
    unfold afterDestroy. cbn. destruct i as [| j]; [| eauto].
    destruct (decide (e' = e)) as [-> | Hee].
    + rewrite lookup_insert_eq. eexists. split; [done |]. cbn. congruence.
    + rewrite lookup_insert_ne by done. eauto.
Qed.

(** Destroying a pending fold only takes it out of the pending set. *)
Lemma destroy_pending σ ch ep p :
  repr σ ch → p ∈ typeNew σ →
  ∃ σ', hookGoValueDestroyed ep p σ = Return tt σ' ∧ repr σ' ch
        ∧ typeNew σ' = typeNew σ ∖ {[p]} ∧ alive σ' = alive σ ∖ {[p]}
        ∧ heap σ' = heap σ ∧ eheap σ' = eheap σ ∧ engines σ' = engines σ.
Proof.
  intros R Hp. destruct (repr_pending _ _ R p Hp) as (F & HF & He & _).
  unfold hookGoValueDestroyed. msimpl. rewrite HF. msimpl. rewrite He. msimpl.
  assert (Hsz : size (typeNew σ ∖ {[p]}) ≠ size (typeNew σ)).
  { rewrite size_difference by set_solver. rewrite size_singleton.
    assert (size (typeNew σ) ≠ 0%nat); [| lia].
    intros Hz. apply size_empty_inv in Hz. set_solver. }
  destruct (decide (size (typeNew σ ∖ {[p]}) = size (typeNew σ))); [done |]. msimpl.
  destruct (decide (0 < -1)); [lia |].
  eexists. split; [reflexivity |]. cbn. repeat split; try done.
  - intros e E v. cbn. apply (repr_root _ _ R).
  - apply (repr_nodup _ _ R).
  - apply (repr_linked _ _ R).
  - cbn. rewrite elem_of_difference, elem_of_singleton, (repr_alive _ _ R).
    intros [[Hx | Hx] Hne]; [left; set_solver | by right].
  - cbn. rewrite !elem_of_difference, elem_of_singleton, (repr_alive _ _ R).
    intros [[Hx Hne] | (e & v & Hx)]; [split; [by left | done] |].
    split; [right; by exists e, v |]. intros ->.
    by apply (repr_pending_not_chained σ ch e v p R).
  - cbn. intros x [Hx' _]%elem_of_difference. by apply (repr_pending _ _ R).
  - apply (repr_registered _ _ R).
  - apply (repr_keyed _ _ R).
Qed.

Lemma run_cons o ops σ :
  run (o :: ops) σ = match exec o σ with
                     | Return _ σ' => run ops σ'
                     | Panicked msg σ' => Panicked msg σ'
                     | Diverged σ' => Diverged σ'
                     end.
Proof. reflexivity. Qed.

Lemma run_wrap_cons ref cnew e v ow ops c σ σ' :
  wrapGoValue ref cnew e v ow σ = Return c σ' →
  run (Wrap ref cnew e v ow :: ops) σ = run ops σ'.
Proof. intros H. rewrite run_cons. cbn [exec]. unfold bind. by rewrite H. Qed.

Lemma engineFolds_repr σ ch e p :
  repr σ ch → p ∈ engineFolds σ e ↔ ∃ v, p ∈ ch e v.
Proof.
  intros R. unfold engineFolds. rewrite elem_of_filter, (repr_alive _ _ R). split.
  - intros [He [Hp | (e' & v' & Hp)]].
    + destruct (repr_pending _ _ R p Hp) as (F & HF & HFe & _).
      rewrite HF in He. cbn in He. congruence.
    + destruct (linked_lookup _ _ _ _ _ (repr_linked _ _ R e' v') Hp) as (F & HF & HFe & _).
      rewrite HF in He. cbn in He. assert (e' = e) by congruence. subst. eauto.
  - intros [v Hp].
    destruct (linked_lookup _ _ _ _ _ (repr_linked _ _ R e v) Hp) as (F & HF & HFe & _).
    split; [rewrite HF; cbn; congruence |]. right. eauto.
Qed.

(** Destroying the folds of a destroyed engine in any order: the engine
    leaves the registry with the last of them and not before. *)
Lemma destroy_all_steps ep e (l : list foldp) :
  ∀ σ ch E, repr σ ch → eheap σ !! e = Some E → destroyed E = true →
    NoDup l → (∀ p, p ∈ l ↔ ∃ v, p ∈ ch e v) → l ≠ [] →
    ∀ k, (k ≤ length l)%nat →
      ∃ σk, run (Destroy ep <$> take k l) σ = Return tt σk
            ∧ engines σk !! addr E = if decide (k = length l) then None else Some e.
Proof.
  induction l as [| p l' IH]; [done |].
  intros σ ch E R HE Hd Hnd Hall _ k Hk.
  assert (Hp : ∃ v, p ∈ ch e v) by (apply Hall; left).
  destruct Hp as [v Hp]. apply list_elem_of_lookup_1 in Hp as [i Hi].
  destruct k as [| k].
  { exists σ. split; [done |].
    destruct (decide (0%nat = length (p :: l'))) as [Hz |]; [done |].
    destruct (repr_registered _ _ R e v) as (E0 & HE0 & Hreg).
    { intros Hnil. rewrite Hnil in Hi. by rewrite lookup_nil in Hi. }
    congruence. }
  cbn [take fmap list_fmap]. rewrite run_cons. cbn [exec].
  destruct (destroy_exec σ ch ep e v i p R Hi) as (E0 & HE0 & Hreg & Hex).
  assert (E0 = E) by congruence. subst E0. rewrite Hex.
  pose proof (repr_afterDestroy σ ch e E v i p R HE Hi) as R1.
  set (σ1 := afterDestroy σ e E v (ch e v) i p) in *.
  set (ch1 := setChain ch e v (delete i (ch e v))) in *.
  apply NoDup_cons in Hnd as [Hpl Hnd].
  assert (Hall1 : ∀ q, q ∈ l' ↔ ∃ v', q ∈ ch1 e v').
  { intros q. split.
    - intros Hq. assert (Hq' : ∃ v', q ∈ ch e v') by (apply Hall; by right).
      destruct Hq' as [v' Hq']. exists v'. unfold ch1, setChain.
      destruct (decide (e = e ∧ v' = v)) as [[_ ->] |]; [| done].
      apply (elem_of_delete_NoDup (ch e v) i p); [apply (repr_nodup _ _ R) | done |].
      split; [done |]. intros ->. done.
    - intros [v' Hq]. unfold ch1, setChain in Hq.
      destruct (decide (e = e ∧ v' = v)) as [[_ ->] |].
      + apply (elem_of_delete_NoDup (ch e v) i p) in Hq as [Hq Hne];
          [| apply (repr_nodup _ _ R) | done].
        assert (Hq' : q ∈ p :: l') by (apply Hall; eauto).
        apply elem_of_cons in Hq' as [-> | ?]; done.
      + assert (Hq' : q ∈ p :: l') by (apply Hall; eauto).
        apply elem_of_cons in Hq' as [-> | ?]; [| done].
        exfalso. apply n.
        destruct (repr_chain_disjoint σ ch e v e v' p R); [by eapply list_elem_of_lookup_2 | done |].
        done. }
  assert (HE1 : ∃ E1, eheap σ1 !! e = Some E1 ∧ addr E1 = addr E ∧ destroyed E1 = destroyed E).
  { unfold σ1, afterDestroy. cbn. destruct i; [| eauto].
    rewrite lookup_insert_eq. eauto. }
  destruct HE1 as (E1 & HE1 & Haddr & Hdes).
  destruct l' as [| q l''].
  - (* [p] was the last fold of the engine *)
    destruct k; [| cbn in Hk; lia]. exists σ1. split; [done |]. cbn.
    assert (Hone : ∀ v', ch1 e v' = []).
    { intros v'. destruct (ch1 e v') as [| x ?] eqn:Hc; [done |].
      assert (x ∈ []) by (apply Hall1; exists v'; rewrite Hc; left). by apply elem_of_nil in H. }
    assert (Hlen : ch e v = [p]).
    { pose proof (Hone v) as Hv. unfold ch1 in Hv. rewrite setChain_eq in Hv.
      destruct (ch e v) as [| a [| b t]] eqn:Hc.
      - by rewrite lookup_nil in Hi.
      - destruct i; cbn in Hi; [congruence | done].
      - destruct i; cbn in Hv; discriminate. }
    assert (i = 0%nat) as ->.
    { rewrite Hlen in Hi. destruct i; [done |]. cbn in Hi. done. }
    unfold σ1, afterDestroy. cbn. rewrite Hlen. cbn.
    assert (Hempty : delete v (values E) = ∅).
    { apply map_eq. intros v'. rewrite lookup_empty.
      destruct (decide (v' = v)) as [-> |]; [by rewrite lookup_delete_eq |].
      rewrite lookup_delete_ne by done.
      rewrite (repr_root _ _ R e E v' HE).
      pose proof (Hone v') as Hv'. unfold ch1 in Hv'.
      rewrite setChain_ne in Hv' by tauto. by rewrite Hv'. }
    rewrite Hempty, Hd. cbn. rewrite map_size_empty.
    rewrite bool_decide_eq_true_2 by done. rewrite lookup_delete_eq.
    by destruct (decide (1%nat = 1%nat)).
  - (* other folds of the engine remain *)
    destruct (IH σ1 ch1 E1 R1 HE1) with (k := k) as (σk & Hrun & Hreg1);
      [congruence | done | done | done | cbn in *; lia |].
    exists σk. split; [done |]. rewrite <- Haddr. rewrite Hreg1.
    cbn [length]. destruct (decide (k = S (length l''))), (decide (S k = S (S (length l'')))); done || lia.
Qed.

(** ** Appending a fold at the tail of a chain *)

Lemma linked_snoc h h' e g (l : list foldp) f F' :
  linked h e g l → NoDup l → f ∉ l →
  (∀ x, x ∈ l → Some x ≠ last l → h' !! x = h !! x) →
  (∀ q, last l = Some q → h' !! q = with_next (Some f) <$> h !! q) →
  h' !! f = Some F' → engine F' = Some e → gvalue F' = g →
  prev F' = last l → next F' = None →
  linked h' e g (l ++ [f]).
Proof.
  intros Hl Hnd Hf Hsame Hlast HF' He Hg Hp Hn i x Hi.
  destruct (decide (i < length l)%nat) as [Hlt | Hge].
  - rewrite lookup_app_l in Hi by done.
    destruct (Hl i x Hi) as (F & HF & HFe & HFg & HFp & HFn).
    assert (Hprev : prevIndex (l ++ [f]) i = prevIndex l i).
    { destruct i; [done |]. cbn. apply lookup_app_l. lia. }
    destruct (decide (S i = length l)) as [Hend | Hmid].
    + assert (Hq : last l = Some x).
      { rewrite last_lookup. replace (pred (length l)) with i by lia. done. }
      exists (with_next (Some f) F). rewrite (Hlast x Hq), HF. cbn.
      repeat split; [done | done | congruence |].
      rewrite lookup_app_r by lia. replace (S i - length l)%nat with 0%nat by lia. done.
    + exists F. rewrite Hsame, HF.
      * repeat split; [done | done | congruence |].
        rewrite lookup_app_l by lia. done.
      * by eapply list_elem_of_lookup_2.
      * rewrite last_lookup. intros Heq. symmetry in Heq.
        pose proof (NoDup_lookup _ _ _ _ Hnd Hi Heq). lia.
  - assert (i = length l) as ->.
    { apply lookup_lt_Some in Hi. rewrite length_app in Hi. cbn in Hi. lia. }
    rewrite lookup_app_r in Hi by lia. rewrite Nat.sub_diag in Hi. cbn in Hi.
    injection Hi as <-. exists F'. repeat split; [done | done | done | |].
    + rewrite Hp, last_lookup. destruct l as [| a l']; [done |].
      cbn [prevIndex length pred]. rewrite lookup_app_l by (cbn; lia). done.
    + rewrite Hn. symmetry. apply lookup_ge_None. rewrite length_app. cbn. lia.
Qed.

(** A state that differs from a consistent one by one fold [f] linked
    after the tail of the chain of [e] and [g] is consistent again. *)
Lemma repr_append σ σ' ch e E g f F' :
  repr σ ch → eheap σ !! e = Some E → engines σ !! addr E = Some e →
  (∀ x, x ≠ f → Some x ≠ last (ch e g) → heap σ' !! x = heap σ !! x) →
  (∀ q, last (ch e g) = Some q → heap σ' !! q = with_next (Some f) <$> heap σ !! q) →
  heap σ' !! f = Some F' → engine F' = Some e → gvalue F' = g →
  prev F' = last (ch e g) → next F' = None →
  (∀ e' v', f ∉ ch e' v') →
  eheap σ' = (if decide (ch e g = []) then <[e := with_values (<[g := f]> (values E)) E]> (eheap σ)
              else eheap σ) →
  engines σ' = engines σ →
  typeNew σ' = typeNew σ ∖ {[f]} → alive σ' = alive σ ∪ {[f]} →
  repr σ' (setChain ch e g (ch e g ++ [f])).
Proof.
  intros R HE Hreg Hsame Hlast HF' HFe HFg HFp HFn Hfresh Heh Hes Htn Hal.
  set (l := ch e g) in *.
  assert (Hq_in : ∀ q, last l = Some q → q ∈ l).
  { intros q Hq. rewrite last_lookup in Hq. by eapply list_elem_of_lookup_2. }
  assert (Hother : ∀ e' v' x, ¬ (e' = e ∧ v' = g) → x ∈ ch e' v' → heap σ' !! x = heap σ !! x).
  { intros e' v' x Hne Hx. apply Hsame.
    - intros ->. by apply (Hfresh e' v').
    - intros Hq. symmetry in Hq. apply Hq_in in Hq. apply Hne.
      by eapply (repr_chain_disjoint σ ch e g e' v' x). }
  constructor.
  - intros e' E' v' HE'. rewrite Heh in HE'. unfold setChain.
    destruct (decide (e' = e ∧ v' = g)) as [[-> ->] | Hne].
    + destruct (decide (l = [])) as [Hnil | Hnn].
      * rewrite lookup_insert_eq in HE'. injection HE' as <-. cbn.
        rewrite lookup_insert_eq, Hnil. done.
      * rewrite HE in HE'. injection HE' as <-.
        rewrite (repr_root _ _ R e E g HE). fold l. destruct l; done.
    + destruct (decide (l = [])) as [Hnil | Hnn]; [| by eapply repr_root].
      destruct (decide (e' = e)) as [-> | Hee].
      * rewrite lookup_insert_eq in HE'. injection HE' as <-. cbn.
        rewrite lookup_insert_ne by (intros <-; tauto). by eapply repr_root.
      * rewrite lookup_insert_ne in HE' by done. by eapply repr_root.
  - intros e' v'. unfold setChain. destruct (decide (e' = e ∧ v' = g)); [| apply (repr_nodup _ _ R)].
    apply NoDup_app. split; [apply (repr_nodup _ _ R) |]. split; [| apply NoDup_singleton].
    intros x Hx Hxf. apply list_elem_of_singleton in Hxf as ->. by apply (Hfresh e g).
  - intros e' v'. unfold setChain.
    destruct (decide (e' = e ∧ v' = g)) as [[-> ->] | Hne].
    + eapply (linked_snoc (heap σ)); try done.
      * apply (repr_linked _ _ R).
      * apply (repr_nodup _ _ R).
      * apply Hfresh.
      * intros x Hx Hxl. apply Hsame; [| done]. intros ->. by apply (Hfresh e g).
    + apply (linked_frame (heap σ)); [apply (repr_linked _ _ R) |].
      intros x Hx. by eapply Hother.
  - intros x. rewrite Hal, Htn, elem_of_union, elem_of_difference, !elem_of_singleton.
    rewrite (repr_alive _ _ R). split.
    + intros [[Hx | (e' & v' & Hx)] | ->].
      * destruct (decide (x = f)) as [-> |]; [| by left].
        right. exists e, g. rewrite setChain_eq. apply elem_of_app. right. by left.
      * right. exists e', v'. unfold setChain. destruct (decide (e' = e ∧ v' = g)) as [[-> ->] |]; [| done].
        apply elem_of_app. by left.
      * right. exists e, g. rewrite setChain_eq. apply elem_of_app. right. by left.
    + intros [[Hx Hne] | (e' & v' & Hx)]; [by left; left |].
      unfold setChain in Hx. destruct (decide (e' = e ∧ v' = g)) as [[-> ->] |].
      * apply elem_of_app in Hx as [Hx | Hx].
        -- left. right. by exists e, g.
        -- apply list_elem_of_singleton in Hx. by right.
      * left. right. by exists e', v'.
  - intros x Hx. rewrite Htn in Hx. apply elem_of_difference in Hx as [Hx Hne].
    rewrite elem_of_singleton in Hne.
    destruct (repr_pending _ _ R x Hx) as (F & HF & Hrest). exists F. split; [| done].
    rewrite Hsame; [done | done |].
    intros Hq. symmetry in Hq. apply Hq_in in Hq.
    by apply (repr_pending_not_chained σ ch e g x R).
  - intros e' v' Hne. rewrite Hes, Heh.
    assert (Hreg' : ∃ E0, eheap σ !! e' = Some E0 ∧ engines σ !! addr E0 = Some e').
    { unfold setChain in Hne. destruct (decide (e' = e ∧ v' = g)) as [[-> ->] |]; [eauto |].
      by apply (repr_registered _ _ R e' v'). }
    destruct Hreg' as (E0 & HE0 & Hreg0).
    destruct (decide (l = [])); [| eauto].
    destruct (decide (e' = e)) as [-> | Hee].
    + rewrite lookup_insert_eq. eexists. split; [done |]. cbn. congruence.
    + rewrite lookup_insert_ne by done. eauto.
  - intros a e' Ha. rewrite Hes in Ha. rewrite Heh.
    destruct (repr_keyed _ _ R a e' Ha) as (E0 & HE0 & Haddr).
    destruct (decide (l = [])); [| eauto].
    destruct (decide (e' = e)) as [-> | Hee].
    + rewrite lookup_insert_eq. eexists. split; [done |]. cbn. congruence.
    + rewrite lookup_insert_ne by done. eauto.
Qed.

(** ** [ensureEngine] on a consistent state *)

Lemma ensureEngine_resolved ep f F e σ :
  heap σ !! f = Some F → engine F = Some e → ensureEngine ep f σ = Return f σ.
Proof.
  intros HF He. unfold ensureEngine. msimpl. rewrite HF. msimpl. by rewrite He.
Qed.

Lemma ensureEngine_nil_pointer f F σ :
  heap σ !! f = Some F → engine F = None →
  ensureEngine nilPtr f σ =
  Panicked "accessing value without an engine pointer; who created the value?" σ.
Proof.
  intros HF He. unfold ensureEngine. msimpl. rewrite HF. msimpl. by rewrite He.
Qed.

Lemma ensureEngine_unknown_engine ep f F σ :
  heap σ !! f = Some F → engine F = None → engines σ !! ep = None →
  ∃ msg, ensureEngine ep f σ = Panicked msg σ.
Proof.
  intros HF He Hep. unfold ensureEngine. msimpl. rewrite HF. msimpl. rewrite He.
  destruct (decide (ep = nilPtr)); [eauto |]. msimpl. rewrite Hep. eauto.
Qed.

Lemma ensureEngine_pending σ ch ep f e :
  repr σ ch → f ∈ typeNew σ → ep ≠ nilPtr → engines σ !! ep = Some e →
  ∃ σ' F E i,
    heap σ !! f = Some F ∧ eheap σ !! e = Some E ∧ init F = Some i
    ∧ ensureEngine ep f σ = Return f σ'
    ∧ repr σ' (setChain ch e (gvalue F) (ch e (gvalue F) ++ [f]))
    ∧ typeNew σ' = typeNew σ ∖ {[f]} ∧ alive σ' = alive σ
    ∧ engines σ' = engines σ
    ∧ log σ' = log σ ++ [initCall f i (gvalue F) e (cvalue F)]
    ∧ engine <$> heap σ' !! f = Some (Some e).
Proof.
  intros R Hf Hnil Hep.
  destruct (repr_pending _ _ R f Hf) as (F & HF & HFe & HFp & HFn & [i HFi]).
  destruct (repr_keyed _ _ R ep e Hep) as (E & HE & Haddr).
  set (g := gvalue F). set (l := ch e g).
  pose proof (repr_linked _ _ R e g) as Hl. fold l in Hl.
  pose proof (repr_nodup _ _ R e g) as Hnd. fold l in Hnd.
  assert (Hfl : ∀ e' v', f ∉ ch e' v') by (intros; by eapply repr_pending_not_chained).
  assert (Hsz : size (typeNew σ ∖ {[f]}) ≠ size (typeNew σ)).
  { rewrite size_difference by set_solver. rewrite size_singleton.
    assert (size (typeNew σ) ≠ 0%nat); [| lia].
    intros Hz. apply size_empty_inv in Hz. set_solver. }
  assert (Halive : alive σ = alive σ ∪ {[f]}).
  { apply set_eq. intros x. rewrite elem_of_union, elem_of_singleton.
    split; [by left |]. intros [? | ->]; [done |]. apply (repr_alive _ _ R). by left. }
  pose proof (repr_root _ _ R e E g HE) as Hroot. fold l in Hroot.
  unfold ensureEngine. msimpl. rewrite HF. msimpl. rewrite HFe.
  destruct (decide (ep = nilPtr)); [done |]. msimpl. rewrite Hep. msimpl.
  rewrite HF. msimpl. rewrite HE. msimpl. fold g. rewrite Hroot.
  destruct l as [| p l'] eqn:Hleq.
  - (* the fold becomes the root *)
    cbn [head]. msimpl. rewrite HE. msimpl.
    destruct (decide (size (typeNew σ ∖ {[f]}) = size (typeNew σ))); [done |]. msimpl.
    rewrite lookup_alter_eq, HF. msimpl. rewrite HFi. msimpl.
    eexists _, F, E, i. split; [done |]. split; [done |]. split; [done |].
    split; [reflexivity |]. cbn.
    split; [| by rewrite lookup_alter_eq, HF].
    eapply (repr_append σ _ ch e E g f (with_engine (Some e) F)); cbn.
    + done.
    + done.
    + congruence.
    + intros x Hx _. by rewrite lookup_alter_ne.
    + fold l. rewrite Hleq. done.
    + by rewrite lookup_alter_eq, HF.
    + done.
    + done.
    + fold l. by rewrite Hleq.
    + done.
    + done.
    + fold l. rewrite Hleq. rewrite decide_True by done.
      rewrite (alter_insert_cell (eheap σ) e E) by done. reflexivity.
    + done.
    + done.
    + done.
  - (* the fold is linked after the tail *)
    cbn [head]. msimpl.
    set (σ1 := set_heap (alter (with_engine (Some e)) f (heap σ)) σ).
    assert (Hl1 : linked (heap σ1) e g (p :: l')).
    { apply (linked_frame (heap σ)); [done |]. intros x Hx. cbn.
      rewrite lookup_alter_ne; [done |]. intros ->. apply (Hfl e g). fold l. by rewrite Hleq. }
    destruct (lastFold_linked σ1 e g (p :: l') Hl1
                (size (alter (with_engine (Some e)) f (heap σ))) 0%nat p) as (q & Hq & Hrun).
    { done. }
    { pose proof (linked_length_le _ _ _ _ Hnd Hl1) as Hle. cbn in Hle. cbn. lia. }
    rewrite Hrun. unfold σ1. msimpl.
    assert (Hql : q ∈ p :: l').
    { rewrite last_lookup in Hq. by eapply list_elem_of_lookup_2. }
    assert (Hqf : q ≠ f).
    { intros ->. apply (Hfl e g). fold l. by rewrite Hleq. }
    destruct (linked_lookup _ _ _ _ _ Hl Hql) as (Q & HQ & _).
    rewrite lookup_alter_ne, HQ by done. msimpl.
    rewrite lookup_alter_ne, lookup_alter_eq, HF by done. msimpl.
    destruct (decide (size (typeNew σ ∖ {[f]}) = size (typeNew σ))); [done |]. msimpl.
    rewrite lookup_alter_eq, lookup_alter_ne, lookup_alter_eq, HF by done. msimpl.
    rewrite HFi. msimpl.
    eexists _, F, E, i. split; [done |]. split; [done |]. split; [done |].
    split; [reflexivity |]. cbn.
    split; [| by rewrite lookup_alter_eq, lookup_alter_ne, lookup_alter_eq, HF].
    eapply (repr_append σ _ ch e E g f (with_prev (Some q) (with_engine (Some e) F))); cbn.
    + done.
    + done.
    + congruence.
    + fold l. rewrite Hleq, Hq. intros x Hx Hxq.
      rewrite !lookup_alter_ne; [done | congruence | congruence | congruence].
    + fold l. rewrite Hleq, Hq. intros q' [= <-].
      rewrite lookup_alter_ne, lookup_alter_eq, lookup_alter_ne by done. done.
    + by rewrite lookup_alter_eq, lookup_alter_ne, lookup_alter_eq, HF.
    + done.
    + done.
    + fold l. by rewrite Hleq, Hq.
    + done.
    + done.
    + fold l. rewrite Hleq. by rewrite decide_False.
    + done.
    + done.
    + done.
Qed.

(** ** Creating folds on a consistent state *)

Lemma repr_dom_chain σ ch e v p : repr σ ch → p ∈ ch e v → is_Some (heap σ !! p).
Proof.
  intros R Hp. destruct (linked_lookup _ _ _ _ _ (repr_linked _ _ R e v) Hp) as (F & HF & _).
  eauto.
Qed.

Lemma fresh_not_chained σ ch e v : repr σ ch → fresh (dom (heap σ)) ∉ ch e v.
Proof.
  intros R Hp. destruct (repr_dom_chain _ _ _ _ _ R Hp) as [F HF].
  pose proof (fresh_fold_None σ). congruence.
Qed.

Lemma fresh_not_pending σ ch : repr σ ch → fresh (dom (heap σ)) ∉ typeNew σ.
Proof.
  intros R Hp. destruct (repr_pending _ _ R _ Hp) as (F & HF & _).
  pose proof (fresh_fold_None σ). congruence.
Qed.

(** A first fold for a value becomes the root of a new chain. *)
Lemma wrap_first_repr σ ch ref cnew e E v ow :
  repr σ ch → admitted v = true →
  eheap σ !! e = Some E → engines σ !! addr E = Some e →
  values E !! v = None → ref ≠ guiPaintRef σ →
  ∃ σ', wrapGoValue ref cnew e v ow σ = Return cnew σ'
        ∧ repr σ' (setChain ch e v [fresh (dom (heap σ))])
        ∧ alive σ' = alive σ ∪ {[fresh (dom (heap σ))]}.
Proof.
  intros R Hadm HE Hreg Hv Hp.
  destruct (wrap_first ref cnew e E v ow σ Hadm HE Hv Hp)
    as (σ' & Hrun & Hheap & Heh & Hes & Htn & Hal & _).
  set (f := fresh (dom (heap σ))) in *.
  assert (Hnil : ch e v = []).
  { pose proof (repr_root _ _ R e E v HE) as Hroot. rewrite Hv in Hroot.
    destruct (ch e v); [done | discriminate]. }
  exists σ'. split; [done |]. split; [| done].
  replace [f] with (ch e v ++ [f]) by (by rewrite Hnil).
  eapply (repr_append σ σ' ch e E v f (mkFold (Some e) v cnew None None None ow)).
  - done.
  - done.
  - done.
  - intros x Hx _. rewrite Hheap. by rewrite lookup_insert_ne.
  - rewrite Hnil. done.
  - rewrite Hheap. by rewrite lookup_insert_eq.
  - done.
  - done.
  - by rewrite Hnil.
  - done.
  - intros e' v'. by apply fresh_not_chained.
  - rewrite Hnil. by rewrite decide_True.
  - done.
  - rewrite Htn. apply set_eq. intros x.
    rewrite elem_of_difference, elem_of_singleton. split; [| tauto].
    intros Hx. split; [done |]. intros ->. by apply (fresh_not_pending σ ch).
  - done.
Qed.

(** An alias of a value that has a single fold is linked after it. *)
Lemma wrap_alias_repr σ ch ref cnew e E v ow p P :
  repr σ ch → admitted v = true →
  eheap σ !! e = Some E → ch e v = [p] → heap σ !! p = Some P →
  ¬ reuses σ ref P ow →
  ∃ σ', wrapGoValue ref cnew e v ow σ = Return cnew σ'
        ∧ repr σ' (setChain ch e v [p; fresh (dom (heap σ))])
        ∧ alive σ' = alive σ ∪ {[fresh (dom (heap σ))]}.
Proof.
  intros R Hadm HE Hch HP Hr.
  assert (Hv : values E !! v = Some p).
  { rewrite (repr_root _ _ R e E v HE), Hch. done. }
  destruct (wrap_alias ref cnew e E v ow p P σ Hadm HE Hv HP Hr)
    as (σ' & Hrun & Hf & Hp & Hsame & Heh & Hes & Htn & Hal & _).
  set (f := fresh (dom (heap σ))) in *.
  destruct (repr_registered _ _ R e v) as (E0 & HE0 & Hreg); [by rewrite Hch |].
  assert (E0 = E) by congruence. subst E0.
  exists σ'. split; [done |]. split; [| done].
  replace [p; f] with (ch e v ++ [f]) by (by rewrite Hch).
  eapply (repr_append σ σ' ch e E v f (mkFold (Some e) v cnew None (Some p) None ow)).
  - done.
  - done.
  - done.
  - rewrite Hch. cbn. intros x Hx Hxp. apply Hsame; congruence.
  - rewrite Hch. cbn. intros q [= <-]. rewrite Hp, HP. done.
  - done.
  - done.
  - done.
  - by rewrite Hch.
  - done.
  - intros e' v'. by apply fresh_not_chained.
  - rewrite Hch. by rewrite decide_False.
  - done.
  - rewrite Htn. apply set_eq. intros x.
    rewrite elem_of_difference, elem_of_singleton. split; [| tauto].
    intros Hx. split; [done |]. intros ->. by apply (fresh_not_pending σ ch).
  - done.
Qed.

Lemma typeNew_exec a c spec σ :
  let f := fresh (dom (heap σ)) in
  hookGoValueTypeNew a c spec σ =
  Return f (set_alive (valuesAlive σ + 1) (alive σ ∪ {[f]})
             (set_typeNew (typeNew σ ∪ {[f]})
               (set_heap (<[f := mkFold None (mkGoValue Ptr (initElemKind spec) true "" a)
                                        c (Some (Init spec)) None None jsOwner]> (heap σ)) σ))).
Proof. reflexivity. Qed.

(** A fold made by a registered type starts out pending. *)
Lemma typeNew_repr σ ch a c spec :
  repr σ ch →
  ∃ σ', hookGoValueTypeNew a c spec σ = Return (fresh (dom (heap σ))) σ'
        ∧ repr σ' ch
        ∧ typeNew σ' = typeNew σ ∪ {[fresh (dom (heap σ))]}
        ∧ alive σ' = alive σ ∪ {[fresh (dom (heap σ))]}
        ∧ engines σ' = engines σ ∧ eheap σ' = eheap σ ∧ log σ' = log σ.
Proof.
  intros R. rewrite typeNew_exec. set (f := fresh (dom (heap σ))).
  eexists. split; [reflexivity |]. cbn. repeat split; try done.
  - intros e E v. cbn. apply (repr_root _ _ R).
  - apply (repr_nodup _ _ R).
  - intros e v. cbn. apply (linked_frame (heap σ)); [apply (repr_linked _ _ R) |].
    intros x Hx. rewrite lookup_insert_ne; [done |]. intros <-.
    by apply (fresh_not_chained σ ch e v).
  - cbn. rewrite !elem_of_union, (repr_alive _ _ R). tauto.
  - cbn. rewrite !elem_of_union, (repr_alive _ _ R). tauto.
  - cbn. intros x Hx. apply elem_of_union in Hx as [Hx | Hx].
    + destruct (repr_pending _ _ R x Hx) as (F & HF & Hrest). exists F. split; [| done].
      rewrite lookup_insert_ne; [done |]. intros <-. by apply (fresh_not_pending σ ch).
    + apply elem_of_singleton in Hx as ->. rewrite lookup_insert_eq.
      eexists. split; [done |]. cbn. eauto.
  - apply (repr_registered _ _ R).
  - apply (repr_keyed _ _ R).
Qed.

(** A process that has created no fold yet is consistent. *)
Lemma start_consistent eh es loopRef :
  (∀ e E, eh !! e = Some E → values E = ∅) →
  (∀ a e, es !! a = Some e → ∃ E, eh !! e = Some E ∧ addr E = a) →
  repr (start eh es loopRef) (λ _ _, []).
Proof.
  intros Hvals Hkeys. constructor; cbn.
  - intros e E v HE. by rewrite (Hvals e E HE), lookup_empty.
  - intros. apply NoDup_nil_2.
  - intros. apply linked_nil.
  - intros p. split; [set_solver |]. intros [Hp | (e & v & Hp)]; [done |]. by apply elem_of_nil in Hp.
  - intros p Hp. set_solver.
  - done.
  - done.
Qed.

(** ** Destroying one fold of a chain *)

Lemma delete_middle (l1 l2 : list foldp) p : delete (length l1) (l1 ++ p :: l2) = l1 ++ l2.
Proof.
  rewrite delete_take_drop, take_app_length.
  rewrite drop_app, drop_ge by lia.
  replace (S (length l1) - length l1)%nat with 1%nat by lia. done.
Qed.

Lemma destroy_chained σ ch ep e v l1 p l2 :
  repr σ ch → ch e v = l1 ++ p :: l2 →
  ∃ σ', hookGoValueDestroyed ep p σ = Return tt σ'
    ∧ repr σ' (setChain ch e v (l1 ++ l2))
    ∧ (∀ q, last l1 = Some q → next <$> heap σ' !! q = Some (head l2))
    ∧ (∀ n, head l2 = Some n → prev <$> heap σ' !! n = Some (last l1))
    ∧ (∀ E', eheap σ' !! e = Some E' → values E' !! v = head (l1 ++ l2))
    ∧ alive σ' = alive σ ∖ {[p]}.
Proof.
  intros R Hch.
  assert (Hi : ch e v !! length l1 = Some p) by (rewrite Hch; apply list_lookup_middle; done).
  destruct (destroy_exec σ ch ep e v (length l1) p R Hi) as (E & HE & Hreg & Hrun).
  pose proof (repr_afterDestroy σ ch e E v (length l1) p R HE Hi) as R'.
  rewrite Hch, delete_middle in R'. rewrite Hch in Hrun.
  eexists. split; [exact Hrun |]. split; [exact R' |].
  pose proof (repr_linked _ _ R' e v) as Hl'. rewrite setChain_eq in Hl'.
  repeat split.
  - intros q Hq. rewrite last_lookup in Hq.
    assert (Hlen : (0 < length l1)%nat) by (destruct l1; [done | cbn; lia]).
    assert (Hq' : (l1 ++ l2) !! pred (length l1) = Some q) by (rewrite lookup_app_l by lia; done).
    destruct (Hl' _ _ Hq') as (F & HF & _ & _ & _ & Hn).
    rewrite HF. cbn. rewrite Hn. f_equal.
    replace (S (pred (length l1))) with (length l1 + 0)%nat by lia.
    rewrite lookup_app_r by lia. replace (length l1 + 0 - length l1)%nat with 0%nat by lia.
    by rewrite head_lookup.
  - intros n Hn. rewrite head_lookup in Hn.
    assert (Hn' : (l1 ++ l2) !! length l1 = Some n).
    { rewrite lookup_app_r by lia. by rewrite Nat.sub_diag. }
    destruct (Hl' _ _ Hn') as (F & HF & _ & _ & Hp & _).
    rewrite HF. cbn. rewrite Hp. f_equal. rewrite last_lookup.
    destruct l1 as [| a l1']; [done |]. cbn [length prevIndex pred].
    rewrite lookup_app_l by (cbn; lia). done.
  - intros E' HE'. rewrite (repr_root _ _ R' e E' v HE'). by rewrite setChain_eq.
Qed.

(** ** What every operation keeps *)

Lemma keeps_bind {A B} Q (m : M A) (k : A → M B) :
  keeps Q m → (∀ a, keeps Q (k a)) → keeps Q (bind m k).
Proof.
  intros Hm Hk σ HQ. unfold bind. pose proof (Hm σ HQ) as H1.
  destruct (m σ) as [a σ' | msg σ' | σ']; cbn in *; [by apply Hk | done | done].
Qed.

Lemma keeps_ret {A} Q (a : A) : keeps Q (ret a).
Proof. by intros σ HQ. Qed.

Lemma keeps_panic {A} Q msg : keeps Q (@panic A msg).
Proof. by intros σ HQ. Qed.

Lemma keeps_gets {A} Q (f : state → A) : keeps Q (gets f).
Proof. by intros σ HQ. Qed.

Lemma keeps_modify Q g : (∀ σ, Q σ → Q (g σ)) → keeps Q (modify g).
Proof. intros Hg σ HQ. by apply Hg. Qed.

Lemma keeps_load_fold Q p : keeps Q (load_fold p).
Proof. intros σ HQ. unfold load_fold. by destruct (heap σ !! p). Qed.

Lemma keeps_load_engine Q e : keeps Q (load_engine e).
Proof. intros σ HQ. unfold load_engine. by destruct (eheap σ !! e). Qed.

Lemma keeps_diverge {A} Q : keeps Q (λ σ, @Diverged A σ).
Proof. by intros σ HQ. Qed.

Lemma keeps_lastFold Q fuel p : keeps Q (lastFold fuel p).
Proof.
  revert p. induction fuel as [| fuel IH]; intros p; cbn.
  - apply keeps_bind; [apply keeps_load_fold |]. intros P.
    destruct (next P); [apply keeps_diverge | apply keeps_ret].
  - apply keeps_bind; [apply keeps_load_fold |]. intros P.
    destruct (next P); [apply IH | apply keeps_ret].
Qed.

Lemma keeps_update_fold Q p g :
  (∀ σ, Q σ → Q (set_heap (alter g p (heap σ)) σ)) → keeps Q (update_fold p g).
Proof.
  intros Hg. unfold update_fold.
  apply keeps_bind; [apply keeps_load_fold |]. intros ?. by apply keeps_modify.
Qed.

Lemma keeps_update_engine Q e g :
  (∀ σ, Q σ → Q (set_eheap (alter g e (eheap σ)) σ)) → keeps Q (update_engine e g).
Proof.
  intros Hg. unfold update_engine.
  apply keeps_bind; [apply keeps_load_engine |]. intros ?. by apply keeps_modify.
Qed.

Lemma keeps_delete_typeNew Q p msg :
  (∀ σ, Q σ → Q (set_typeNew (typeNew σ ∖ {[p]}) σ)) → keeps Q (delete_typeNew p msg).
Proof.
  intros Hg. unfold delete_typeNew.
  apply keeps_bind; [apply keeps_gets |]. intros before.
  apply keeps_bind; [by apply keeps_modify |]. intros ?.
  apply keeps_bind; [apply keeps_gets |]. intros after.
  destruct (decide (after = before)); [apply keeps_panic | apply keeps_ret].
Qed.

(** The shape of the properties followed below: they depend on the
    pending set, on the [engine] field of one fold in the heap and on the
    calls of its initializer only. *)
Record foldProperty (f : foldp) (Q : state → Prop) : Prop := {
  fp_alter : ∀ σ p g, Q σ → (p = f → ∀ F, engine (g F) = engine F) →
             Q (set_heap (alter g p (heap σ)) σ);
  fp_fresh : ∀ σ F, Q σ → Q (set_heap (<[fresh (dom (heap σ)) := F]> (heap σ)) σ);
  fp_typeNew : ∀ σ F, Q σ →
      Q (set_typeNew (typeNew σ ∪ {[fresh (dom (heap σ))]})
           (set_heap (<[fresh (dom (heap σ)) := F]> (heap σ)) σ));
  fp_eheap : ∀ σ h, Q σ → Q (set_eheap h σ);
  fp_engines : ∀ σ m, Q σ → Q (set_engines m σ);
  fp_alive : ∀ σ n s, Q σ → Q (set_alive n s σ);
  fp_log : ∀ σ ev, Q σ → isInitOf f ev = false → Q (set_log (log σ ++ [ev]) σ);
  fp_pending_del : ∀ σ p, Q σ → p ≠ f → Q (set_typeNew (typeNew σ ∖ {[p]}) σ)
}.

Section keeps_fold_property.
Context (f : foldp) (Q : state → Prop) (HQ : foldProperty f Q).

Lemma keeps_call ev : isInitOf f ev = false → keeps Q (call ev).
Proof. intros Hev. apply keeps_modify. intros σ Hσ. by apply (fp_log f Q HQ). Qed.

Lemma keeps_relink p g : (∀ F, engine (g F) = engine F) → keeps Q (update_fold p g).
Proof. intros Hg. apply keeps_update_fold. intros σ Hσ. apply (fp_alter f Q HQ); auto. Qed.

Lemma keeps_stats delta p : keeps Q (stats_valuesAlive delta p).
Proof. apply keeps_modify. intros σ Hσ. by apply (fp_alive f Q HQ). Qed.

Lemma keeps_set_values e g : keeps Q (update_engine e g).
Proof. apply keeps_update_engine. intros σ Hσ. by apply (fp_eheap f Q HQ). Qed.

Lemma keeps_new_fold F : keeps Q (new_fold F).
Proof. intros σ Hσ. unfold new_fold. cbn. by apply (fp_fresh f Q HQ). Qed.

Lemma keeps_wrapGoValue ref cnew e v ow : keeps Q (wrapGoValue ref cnew e v ow).
Proof.
  unfold wrapGoValue.
  destruct (bool_decide (kind v = Struct) && negb (hashable v)); [apply keeps_panic |].
  destruct (bool_decide (kind v = Ptr) && bool_decide (elemKind v = Ptr)); [apply keeps_panic |].
  apply keeps_bind; [apply keeps_gets |]. intros paintRef.
  apply keeps_bind; [apply keeps_load_engine |]. intros E.
  apply keeps_bind.
  { destruct (values E !! v); [| apply keeps_ret].
    apply keeps_bind; [apply keeps_load_fold |]. intros P.
    destruct (_ || _); apply keeps_ret. }
  intros [c |]; [apply keeps_ret |].
  destruct (bool_decide (ref = paintRef)); [apply keeps_panic |].
  apply keeps_bind; [apply keeps_new_fold |]. intros fold.
  apply keeps_bind; [by apply keeps_call |]. intros ?.
  apply keeps_bind; [by apply keeps_relink |]. intros ?.
  apply keeps_bind.
  { destruct (values E !! v).
    - apply keeps_bind; [by apply keeps_relink |]. intros ?. by apply keeps_relink.
    - apply keeps_set_values. }
  intros ?. apply keeps_bind; [apply keeps_stats |]. intros ?.
  apply keeps_bind; [by apply keeps_call |]. intros ?.
  apply keeps_bind; [| intros ?; apply keeps_ret].
  destruct (decide (ow = cppOwner)); [by apply keeps_call |].
  destruct (decide (ow = jsOwner)); [by apply keeps_call | apply keeps_ret].
Qed.

Lemma keeps_hookGoValueTypeNew a c spec : keeps Q (hookGoValueTypeNew a c spec).
Proof.
  intros σ Hσ. rewrite typeNew_exec. cbn.
  apply (fp_alive f Q HQ). by apply (fp_typeNew f Q HQ).
Qed.

Lemma keeps_hookGoValueDestroyed ep p : p ≠ f → keeps Q (hookGoValueDestroyed ep p).
Proof.
  intros Hp. unfold hookGoValueDestroyed.
  apply keeps_bind; [apply keeps_load_fold |]. intros F.
  apply keeps_bind; [| intros ?; apply keeps_stats].
  destruct (engine F) as [e |].
  - apply keeps_bind; [apply keeps_load_engine |]. intros E.
    apply keeps_bind; [apply keeps_gets |]. intros [e' |]; [| apply keeps_panic].
    destruct (prev F) as [q |]; [| destruct (next F) as [n |]].
    + apply keeps_bind; [apply keeps_load_fold |]. intros F1.
      apply keeps_bind; [by apply keeps_relink |]. intros ?.
      apply keeps_bind; [apply keeps_load_fold |]. intros F2.
      destruct (next F2); [by apply keeps_relink | apply keeps_ret].
    + apply keeps_bind; [by apply keeps_relink |]. intros ?.
      apply keeps_bind; [apply keeps_load_fold |]. intros F2.
      destruct (prev F2); [by apply keeps_relink | apply keeps_set_values].
    + apply keeps_bind; [apply keeps_gets |]. intros before.
      apply keeps_bind; [apply keeps_set_values |]. intros ?.
      apply keeps_bind; [apply keeps_load_engine |]. intros E'.
      destruct (decide _); [apply keeps_panic |].
      destruct (_ && _); [| apply keeps_ret].
      apply keeps_modify. intros σ Hσ. by apply (fp_engines f Q HQ).
  - apply keeps_delete_typeNew. intros σ Hσ. by apply (fp_pending_del f Q HQ).
Qed.

Lemma keeps_ensureEngine ep p : p ≠ f → keeps Q (ensureEngine ep p).
Proof.
  intros Hp. unfold ensureEngine.
  apply keeps_bind; [apply keeps_load_fold |]. intros F.
  destruct (engine F); [apply keeps_ret |].
  destruct (decide (ep = nilPtr)); [apply keeps_panic |].
  apply keeps_bind; [apply keeps_gets |]. intros [e |]; [| apply keeps_panic].
  apply keeps_bind.
  { apply keeps_update_fold. intros σ Hσ. apply (fp_alter f Q HQ); [done |]. by intros ->. }
  intros ?. apply keeps_bind; [apply keeps_load_engine |]. intros E.
  apply keeps_bind.
  { destruct (values E !! gvalue F).
    - apply keeps_bind; [apply keeps_gets |]. intros fuel.
      apply keeps_bind; [apply keeps_lastFold |]. intros last.
      apply keeps_bind; [by apply keeps_relink |]. intros ?. by apply keeps_relink.
    - apply keeps_set_values. }
  intros ?. apply keeps_bind.
  { apply keeps_delete_typeNew. intros σ Hσ. by apply (fp_pending_del f Q HQ). }
  intros ?. apply keeps_bind; [apply keeps_load_fold |]. intros F'.
  apply keeps_bind; [| intros ?; apply keeps_ret].
  destruct (init F'); [| apply keeps_panic].
  apply keeps_call. cbn. by apply bool_decide_eq_false_2.
Qed.

Lemma keeps_exec o : spares f o → keeps Q (exec o).
Proof.
  destruct o as [ref cnew e v ow | a c spec | ep p | ep p]; cbn; intros Hs.
  - apply keeps_bind; [apply keeps_wrapGoValue | intros ?; apply keeps_ret].
  - apply keeps_bind; [apply keeps_hookGoValueTypeNew | intros ?; apply keeps_ret].
  - apply keeps_bind; [by apply keeps_ensureEngine | intros ?; apply keeps_ret].
  - by apply keeps_hookGoValueDestroyed.
Qed.

Lemma keeps_run ops : Forall (spares f) ops → keeps Q (run ops).
Proof.
  induction 1 as [| o ops Ho _ IH]; cbn; [apply keeps_ret |].
  apply keeps_bind; [by apply keeps_exec | intros ?; exact IH].
Qed.
End keeps_fold_property.

(** ** Pending and resolved folds along a run *)

Lemma initCalls_snoc f l ev :
  initCalls f (l ++ [ev]) = (initCalls f l + if isInitOf f ev then 1 else 0)%nat.
Proof.
  unfold initCalls. rewrite filter_app, length_app. f_equal.
  rewrite filter_cons, filter_nil. destruct (isInitOf f ev); cbn.
  - by rewrite decide_True.
  - by rewrite decide_False.
Qed.

Lemma engine_alter σ p g f :
  (p = f → ∀ F, engine (g F) = engine F) →
  (engine <$> alter g p (heap σ) !! f) = (engine <$> heap σ !! f).
Proof.
  intros Hg. destruct (decide (p = f)) as [-> |].
  - rewrite lookup_alter_eq. destruct (heap σ !! f) as [F |]; [| done]. cbn. by rewrite Hg.
  - by rewrite lookup_alter_ne.
Qed.

Lemma engine_fresh σ F f x :
  (engine <$> heap σ !! f) = Some x →
  f ≠ fresh (dom (heap σ))
  ∧ (engine <$> <[fresh (dom (heap σ)) := F]> (heap σ) !! f) = Some x.
Proof.
  intros Hf.
  assert (f ≠ fresh (dom (heap σ))).
  { intros ->. rewrite fresh_fold_None in Hf. discriminate. }
  split; [done |]. by rewrite lookup_insert_ne.
Qed.

Lemma pendingWith_property f n : foldProperty f (pendingWith f n).
Proof.
  constructor; unfold pendingWith; cbn.
  - intros σ p g (Hp & He & Hn) Hg. by rewrite engine_alter.
  - intros σ F (Hp & He & Hn). by destruct (engine_fresh σ F f None He) as [_ ->].
  - intros σ F (Hp & He & Hn). destruct (engine_fresh σ F f None He) as [_ ->].
    split; [| by split]. apply elem_of_union. by left.
  - done.
  - done.
  - done.
  - intros σ ev (Hp & He & Hn) Hev. rewrite initCalls_snoc, Hev.
    split; [done |]. split; [done | lia].
  - intros σ p (Hp & He & Hn) Hne. split; [| by split].
    apply elem_of_difference. split; [done |]. by rewrite elem_of_singleton.
Qed.

Lemma resolvedWith_property f n : foldProperty f (resolvedWith f n).
Proof.
  constructor; unfold resolvedWith; cbn.
  - intros σ p g (Hp & [e He] & Hn) Hg. rewrite engine_alter by done. eauto.
  - intros σ F (Hp & [e He] & Hn). destruct (engine_fresh σ F f _ He) as [_ ->]. eauto.
  - intros σ F (Hp & [e He] & Hn). destruct (engine_fresh σ F f _ He) as [Hne ->].
    split; [| split; [eauto | done]].
    rewrite elem_of_union, elem_of_singleton. tauto.
  - done.
  - done.
  - done.
  - intros σ ev (Hp & He & Hn) Hev. rewrite initCalls_snoc, Hev.
    split; [done |]. split; [done | lia].
  - intros σ p (Hp & He & Hn) Hne. split; [| by split].
    rewrite elem_of_difference. tauto.
Qed.

(** A pending fold stays pending, its initializer not called, whatever
    is done to other folds. *)
Lemma pending_until_resolved f n ops σ :
  Forall (spares f) ops → pendingWith f n σ → pendingWith f n (final (run ops σ)).
Proof. intros Hops. by apply (keeps_run f _ (pendingWith_property f n)). Qed.

(** A resolved fold is never pending again and its initializer is not
    called again, whatever is done, resolves of the fold included. *)
Lemma resolved_for_good f n ops σ :
  Forall (λ o, ∀ ep, o ≠ Destroy ep f) ops →
  resolvedWith f n σ → resolvedWith f n (final (run ops σ)).
Proof.
  intros Hops. revert σ. induction Hops as [| o ops Ho _ IH]; intros σ Hσ; [done |].
  rewrite run_cons.
  assert (Hexec : resolvedWith f n (final (exec o σ))).
  { destruct (decide (spares f o)) as [Hs | Hs].
    - by apply (keeps_exec f _ (resolvedWith_property f n)).
    - destruct o as [| | ep p | ep p]; cbn in Hs; try tauto.
      + assert (p = f) as -> by (destruct (decide (p = f)); tauto).
        destruct Hσ as (Hp & [e He] & Hn).
        destruct (heap σ !! f) as [F |] eqn:HF; [| discriminate].
        cbn in He. injection He as He.
        cbn. unfold bind. rewrite (ensureEngine_resolved ep f F e σ HF He). cbn.
        split; [done |]. split; [| done]. exists e. by rewrite HF, <- He.
      + assert (p = f) as -> by (destruct (decide (p = f)); tauto).
        by destruct (Ho ep). }
  destruct (exec o σ) as [[] σ' | msg σ' | σ']; cbn in *; [by apply IH | done | done].
Qed.
(** ** Well-formed states *)

Lemma sameClass_refl F : sameClass F F.
Proof. by split. Qed.

Lemma sameClass_sym F G : sameClass F G → sameClass G F.
Proof. intros [? ?]. by split. Qed.

Lemma sameClass_trans F G H : sameClass F G → sameClass G H → sameClass F H.
Proof. intros [? ?] [? ?]. split; congruence. Qed.

Lemma rank_bound (h : gmap foldp valueFold) (rank : foldp → nat) :
  ∃ M, ∀ p, is_Some (h !! p) → (rank p ≤ M)%nat.
Proof.
  exists (max_list (rank <$> elements (dom h))). intros p Hp.
  apply max_list_elem_of_le. apply list_elem_of_fmap. exists p. split; [done |].
  by apply elem_of_elements, elem_of_dom.
Qed.

(** From every fold of a well-formed heap the [next] links make a path
    that ends, through folds of the same engine and value. *)
Lemma wf_path σ rank :
  wf σ rank →
  ∀ p P, heap σ !! p = Some P →
    ∃ l, forward (heap σ) (p :: l) ∧ NoDup (p :: l)
      ∧ ∀ x, x ∈ p :: l →
          (rank p ≤ rank x)%nat ∧ ∃ X, heap σ !! x = Some X ∧ sameClass P X.
Proof.
  intros W. destruct (rank_bound (heap σ) rank) as [M HM].
  intros p. remember (M - rank p)%nat as k eqn:Hk. revert p Hk.
  induction (lt_wf k) as [k _ IH]. intros p Hk P HP.
  destruct (next P) as [q |] eqn:Hn.
  - destruct (wf_next _ _ W p P q HP Hn) as (G & HG & _ & Hc & Hr).
    assert (rank q ≤ M)%nat by (apply HM; eauto).
    destruct (IH (M - rank q)%nat ltac:(lia) q eq_refl G HG) as (l & Hl & Hnd & Hx).
    exists (q :: l). split; [| split].
    + intros [| i] x Hi.
      * injection Hi as <-. exists P. by split.
      * apply (Hl i x Hi).
    + apply NoDup_cons. split; [| done].
      intros Hin. destruct (Hx p Hin) as [? _]. lia.
    + intros x Hin. apply elem_of_cons in Hin as [-> | Hin].
      * split; [lia |]. exists P. split; [done | apply sameClass_refl].
      * destruct (Hx x Hin) as (? & X & HX & HcX). split; [lia |].
        exists X. split; [done |]. by eapply sameClass_trans.
  - exists []. split; [| split].
    + intros [| i] x Hi; [| done]. injection Hi as <-. exists P. by split.
    + apply NoDup_singleton.
    + intros x Hin. apply list_elem_of_singleton in Hin as ->.
      split; [lia |]. exists P. split; [done | apply sameClass_refl].
Qed.

(** The chain of an engine for a value in a well-formed state. *)
Lemma foldChain_wf σ rank e E v :
  wf σ rank → eheap σ !! e = Some E →
  match values E !! v with
  | None => foldChain σ e v = []
  | Some p =>
      ∃ l, foldChain σ e v = p :: l ∧ forward (heap σ) (p :: l) ∧ NoDup (p :: l)
        ∧ ∀ x, x ∈ p :: l →
            ∃ X, heap σ !! x = Some X ∧ engine X = Some e ∧ gvalue X = v
  end.
Proof.
  intros W HE. unfold foldChain. rewrite HE.
  destruct (values E !! v) as [p |] eqn:Hv.
  - destruct (wf_root _ _ W e E v p HE Hv) as (P & HP & HPe & HPv).
    destruct (wf_path σ rank W p P HP) as (l & Hl & Hnd & Hx).
    exists l. split; [| split; [done | split; [done |]]].
    + change (Some p) with ((p :: l) !! 0%nat).
      rewrite (chainFrom_forward _ _ Hl); [done |].
      pose proof (forward_length_le _ _ Hnd Hl). lia.
    + intros x Hin. destruct (Hx x Hin) as (_ & X & HX & Hc1 & Hc2).
      exists X. split; [done |]. split; congruence.
  - by destruct (size (heap σ)).
Qed.

Lemma foldChain_wf_class σ rank e v x :
  wf σ rank → x ∈ foldChain σ e v →
  ∃ X, heap σ !! x = Some X ∧ engine X = Some e ∧ gvalue X = v.
Proof.
  intros W Hin. destruct (eheap σ !! e) as [E |] eqn:HE.
  - pose proof (foldChain_wf σ rank e E v W HE) as H.
    destruct (values E !! v) as [p |].
    + destruct H as (l & Heq & _ & _ & Hx). rewrite Heq in Hin. by apply Hx.
    + rewrite H in Hin. by apply elem_of_nil in Hin.
  - unfold foldChain in Hin. rewrite HE in Hin. by apply elem_of_nil in Hin.
Qed.

(** *** Folds that nothing leads to *)

Lemma detached_fresh σ rank f : wf σ rank → heap σ !! f = None → detached σ f.
Proof.
  intros W Hf. split.
  - intros x X HX. split; intros Hl.
    + destruct (wf_next _ _ W x X f HX Hl) as (G & HG & _). congruence.
    + destruct (wf_prev _ _ W x X f HX Hl) as (G & HG & _). congruence.
  - intros e E v HE Hv. destruct (wf_root _ _ W e E v f HE Hv) as (G & HG & _). congruence.
Qed.

Lemma detached_engineless σ rank f F :
  wf σ rank → heap σ !! f = Some F → engine F = None → detached σ f.
Proof.
  intros W Hf He. split.
  - intros x X HX. split; intros Hl.
    + destruct (wf_next _ _ W x X f HX Hl) as (G & HG & [? HX'] & [Hc _] & _).
      congruence.
    + destruct (wf_prev _ _ W x X f HX Hl) as (G & HG & [? HX'] & [Hc _] & _).
      congruence.
  - intros e E v HE Hv. destruct (wf_root _ _ W e E v f HE Hv) as (G & HG & ? & _).
    congruence.
Qed.
(** *** The three ways the links change *)

Lemma setRank_eq rank f n : setRank rank f n f = n.
Proof. unfold setRank. by rewrite decide_True. Qed.

Lemma setRank_ne rank f n x : x ≠ f → setRank rank f n x = rank x.
Proof. intros Hx. unfold setRank. by rewrite decide_False. Qed.

(** Fold [f], which nothing leads to, is linked after fold [q]. *)
Lemma wf_link_after σ σ' rank q Q f F' :
  wf σ rank → detached σ f →
  heap σ !! q = Some Q → is_Some (engine Q) → q ≠ f →
  heap σ' !! f = Some F' → sameClass Q F' → prev F' = Some q → next F' = None →
  heap σ' !! q = Some (with_next (Some f) Q) →
  (∀ x, x ≠ f → x ≠ q → heap σ' !! x = heap σ !! x) →
  eheap σ' = eheap σ → engines σ' = engines σ →
  (∀ p, p ∈ typeNew σ' → p ∈ typeNew σ ∧ p ≠ f) →
  wf σ' (setRank rank f (S (rank q))).
Proof.
  intros W [Hd1 Hd2] HQ HQe Hqf HF' Hc HFp HFn HQ' Hother Heh Hes Htn.
  assert (Hlook : ∀ x X, x ≠ f → heap σ !! x = Some X →
            ∃ X', heap σ' !! x = Some X' ∧ engine X' = engine X ∧ gvalue X' = gvalue X).
  { intros x X Hxf HX. destruct (decide (x = q)) as [-> |].
    - eexists. split; [exact HQ' |]. assert (X = Q) by congruence. by subst.
    - exists X. by rewrite Hother. }
  split.
  - intros a e Ha. rewrite Heh. rewrite Hes in Ha. by apply (wf_keyed _ _ W a).
  - intros p Hp. destruct (Htn p Hp) as [Hp' Hpf].
    destruct (wf_pending _ _ W p Hp') as (F & HF & He & ?).
    exists F. split; [| done]. rewrite Hother; [done | done |].
    intros ->. destruct HQe as [? HQe]. congruence.
  - intros e E v p HE Hv. rewrite Heh in HE.
    destruct (wf_root _ _ W e E v p HE Hv) as (F & HF & He & Hg).
    assert (p ≠ f) by (intros ->; by apply (Hd2 e E v HE)).
    destruct (Hlook p F) as (X' & HX' & ? & ?); [done | done |].
    exists X'. split; [done |]. split; congruence.
  - intros x X t HX Hn. destruct (decide (x = f)) as [-> | Hxf]; [congruence |].
    destruct (decide (x = q)) as [-> | Hxq].
    + assert (X = with_next (Some f) Q) by congruence. subst X. cbn in Hn.
      injection Hn as <-. exists F'. split; [done |]. split; [done |].
      split; [done |]. rewrite setRank_eq, setRank_ne by done. lia.
    + rewrite Hother in HX by done.
      destruct (wf_next _ _ W x X t HX Hn) as (G & HG & ? & [Hc1 Hc2] & Hr).
      assert (t ≠ f) by (destruct (Hd1 x X HX); congruence).
      destruct (Hlook t G) as (G' & HG' & ? & ?); [done | done |].
      exists G'. split; [done |]. split; [done |].
      split; [split; congruence |]. by rewrite !setRank_ne.
  - intros x X t HX Hp. destruct (decide (x = f)) as [-> | Hxf].
    + assert (X = F') by congruence. subst X.
      assert (t = q) by congruence. subst t.
      eexists. split; [exact HQ' |]. destruct Hc as [Hc1 Hc2].
      split; [by rewrite Hc1 |]. split; [split; cbn; congruence |].
      rewrite setRank_eq, setRank_ne by done. lia.
    + assert (HX0 : ∃ X0, heap σ !! x = Some X0 ∧ prev X0 = Some t
                ∧ engine X0 = engine X ∧ gvalue X0 = gvalue X).
      { destruct (decide (x = q)) as [-> |].
        - exists Q. assert (X = with_next (Some f) Q) by congruence. by subst X.
        - exists X. by rewrite <- Hother. }
      destruct HX0 as (X0 & HX0 & Hp0 & He0 & Hg0).
      destruct (wf_prev _ _ W x X0 t HX0 Hp0) as (G & HG & ? & [Hc1 Hc2] & Hr).
      assert (t ≠ f) by (destruct (Hd1 x X0 HX0); congruence).
      destruct (Hlook t G) as (G' & HG' & ? & ?); [done | done |].
      exists G'. split; [done |]. split; [congruence |].
      split; [split; congruence |]. by rewrite !setRank_ne.
Qed.

(** Fold [f], which nothing leads to, becomes the root of a chain. *)
Lemma wf_new_root σ σ' rank e E f F' :
  wf σ rank → detached σ f → eheap σ !! e = Some E →
  heap σ' !! f = Some F' → engine F' = Some e → prev F' = None → next F' = None →
  (∀ x, x ≠ f → heap σ' !! x = heap σ !! x) →
  eheap σ' = <[e := with_values (<[gvalue F' := f]> (values E)) E]> (eheap σ) →
  engines σ' = engines σ →
  (∀ p, p ∈ typeNew σ' → p ∈ typeNew σ ∧ p ≠ f) →
  wf σ' rank.
Proof.
  intros W [Hd1 Hd2] HE HF' HFe HFp HFn Hother Heh Hes Htn.
  split.
  - intros a e' Ha. rewrite Heh. rewrite Hes in Ha.
    apply lookup_insert_is_Some'. right. by apply (wf_keyed _ _ W a).
  - intros p Hp. destruct (Htn p Hp) as [Hp' Hpf].
    destruct (wf_pending _ _ W p Hp') as (F & HF & ?).
    exists F. split; [| done]. by rewrite Hother.
  - intros e' E' v p HE' Hv. rewrite Heh in HE'.
    destruct (decide (e' = e)) as [-> | Hne].
    + rewrite lookup_insert_eq in HE'. injection HE' as <-. cbn in Hv.
      destruct (decide (v = gvalue F')) as [-> | Hvne].
      * rewrite lookup_insert_eq in Hv. injection Hv as <-. eauto.
      * rewrite lookup_insert_ne in Hv by done.
        destruct (wf_root _ _ W e E v p HE Hv) as (F & HF & ?).
        exists F. split; [| done]. rewrite Hother; [done |].
        intros ->. by apply (Hd2 e E v HE).
    + rewrite lookup_insert_ne in HE' by done.
      destruct (wf_root _ _ W e' E' v p HE' Hv) as (F & HF & ?).
      exists F. split; [| done]. rewrite Hother; [done |].
      intros ->. by apply (Hd2 e' E' v HE').
  - intros x X t HX Hn. destruct (decide (x = f)) as [-> | Hxf]; [congruence |].
    rewrite Hother in HX by done.
    destruct (wf_next _ _ W x X t HX Hn) as (G & HG & ?).
    exists G. split; [| done]. rewrite Hother; [done |].
    destruct (Hd1 x X HX); congruence.
  - intros x X t HX Hp. destruct (decide (x = f)) as [-> | Hxf]; [congruence |].
    rewrite Hother in HX by done.
    destruct (wf_prev _ _ W x X t HX Hp) as (G & HG & ?).
    exists G. split; [| done]. rewrite Hother; [done |].
    destruct (Hd1 x X HX); congruence.
Qed.

(** How the unlinking of fold [p] changes each fold. *)
Lemma unlinkFold_lookup σ rank p F x :
  wf σ rank → heap σ !! p = Some F →
  unlinkFold (heap σ) F !! x = relinked F x <$> heap σ !! x.
Proof.
  intros W HF. unfold unlinkFold.
  assert (Hne : ∀ q n, prev F = Some q → next F = Some n → q ≠ n).
  { intros q n Hp Hn ->.
    destruct (wf_prev _ _ W p F n HF Hp) as (_ & _ & _ & _ & Hr1).
    destruct (wf_next _ _ W p F n HF Hn) as (_ & _ & _ & _ & Hr2). lia. }
  assert (Hleaf : ∀ g : valueFold → valueFold,
            (∀ X, heap σ !! x = Some X → g X = relinked F x X) →
            g <$> heap σ !! x = relinked F x <$> heap σ !! x).
  { intros g Hg. destruct (heap σ !! x) as [X |]; [| done]. cbn. f_equal. by apply Hg. }
  destruct (prev F) as [q |] eqn:Hp; destruct (next F) as [n |] eqn:Hn.
  - specialize (Hne q n eq_refl eq_refl).
    destruct (decide (x = n)) as [-> | Hxn].
    + rewrite lookup_alter_eq, lookup_alter_ne by done. apply Hleaf. intros X _.
      unfold relinked. rewrite Hp, Hn. rewrite decide_True by done.
      rewrite decide_False by congruence. done.
    + rewrite lookup_alter_ne by done.
      destruct (decide (x = q)) as [-> | Hxq].
      * rewrite lookup_alter_eq. apply Hleaf. intros X _.
        unfold relinked. rewrite Hp, Hn. rewrite decide_False by congruence.
        rewrite decide_True by done. done.
      * rewrite lookup_alter_ne by done. rewrite <- (option_fmap_id (heap σ !! x)) at 1.
        apply Hleaf. intros [] _.
        unfold relinked. rewrite Hp, Hn. rewrite !decide_False by congruence. done.
  - destruct (decide (x = q)) as [-> | Hxq].
    + rewrite lookup_alter_eq. apply Hleaf. intros X _.
      unfold relinked. rewrite Hp, Hn. rewrite decide_False by congruence.
      rewrite decide_True by done. done.
    + rewrite lookup_alter_ne by done. rewrite <- (option_fmap_id (heap σ !! x)) at 1.
      apply Hleaf. intros [] _.
      unfold relinked. rewrite Hp, Hn. rewrite !decide_False by congruence. done.
  - destruct (decide (x = n)) as [-> | Hxn].
    + rewrite lookup_alter_eq. apply Hleaf. intros X _.
      unfold relinked. rewrite Hp, Hn. rewrite decide_True by done.
      rewrite decide_False by congruence. done.
    + rewrite lookup_alter_ne by done. rewrite <- (option_fmap_id (heap σ !! x)) at 1.
      apply Hleaf. intros [] _.
      unfold relinked. rewrite Hp, Hn. rewrite !decide_False by congruence. done.
  - rewrite <- (option_fmap_id (heap σ !! x)) at 1.
    apply Hleaf. intros [] _.
    unfold relinked. rewrite Hp, Hn. rewrite !decide_False by congruence. done.
Qed.

(** Fold [p] is unlinked; the maps hold the roots they held, or the
    fold after [p] in the place of [p]. *)
Lemma wf_unlink σ σ' rank p F :
  wf σ rank → heap σ !! p = Some F →
  heap σ' = unlinkFold (heap σ) F →
  (∀ e, is_Some (eheap σ !! e) → is_Some (eheap σ' !! e)) →
  (∀ e E' v r, eheap σ' !! e = Some E' → values E' !! v = Some r →
     (∃ E, eheap σ !! e = Some E ∧ values E !! v = Some r)
     ∨ (engine F = Some e ∧ gvalue F = v ∧ next F = Some r)) →
  (∀ a e, engines σ' !! a = Some e → engines σ !! a = Some e) →
  (∀ x, x ∈ typeNew σ' → x ∈ typeNew σ) →
  wf σ' rank.
Proof.
  intros W HF Hh Heh Hroots Hes Htn.
  assert (Hlook : ∀ x, heap σ' !! x = relinked F x <$> heap σ !! x).
  { intros x. rewrite Hh. by apply (unlinkFold_lookup σ rank p). }
  assert (Htarget : ∀ x X, heap σ !! x = Some X →
            ∃ X', heap σ' !! x = Some X' ∧ engine X' = engine X ∧ gvalue X' = gvalue X).
  { intros x X HX. exists (relinked F x X). by rewrite Hlook, HX. }
  split.
  - intros a e Ha. apply Heh. apply (wf_keyed _ _ W a). by apply Hes.
  - intros x Hx. destruct (wf_pending _ _ W x (Htn x Hx)) as (X & HX & He & Hp & Hn & Hi).
    exists (relinked F x X). split; [by rewrite Hlook, HX |]. cbn.
    split; [done |]. split; [| split; [| done]].
    + destruct (decide (next F = Some x)) as [Hnx |]; [| done].
      destruct (wf_next _ _ W p F x HF Hnx) as (G & HG & [? ?] & [? _] & _). congruence.
    + destruct (decide (prev F = Some x)) as [Hpx |]; [| done].
      destruct (wf_prev _ _ W p F x HF Hpx) as (G & HG & [? ?] & [? _] & _). congruence.
  - intros e E' v r HE' Hv.
    destruct (Hroots e E' v r HE' Hv) as [(E & HE & Hr) | (He & Hg & Hn)].
    + destruct (wf_root _ _ W e E v r HE Hr) as (R & HR & ? & ?).
      destruct (Htarget r R HR) as (R' & HR' & ? & ?).
      exists R'. split; [done |]. split; congruence.
    + destruct (wf_next _ _ W p F r HF Hn) as (G & HG & _ & [? ?] & _).
      destruct (Htarget r G HG) as (G' & HG' & ? & ?).
      exists G'. split; [done |]. split; congruence.
  - intros x X' t HX' Hn. rewrite Hlook in HX'.
    destruct (heap σ !! x) as [X |] eqn:HX; [| done]. injection HX' as <-.
    cbn in Hn. destruct (decide (prev F = Some x)) as [Hpx |].
    + destruct (wf_prev _ _ W p F x HF Hpx) as (X0 & HX0 & HFe & [? ?] & Hr1).
      assert (X0 = X) by congruence. subst X0.
      destruct (wf_next _ _ W p F t HF Hn) as (G & HG & _ & [? ?] & Hr2).
      destruct (Htarget t G HG) as (G' & HG' & ? & ?).
      exists G'. split; [done |]. cbn. split; [congruence |].
      split; [split; cbn; congruence | lia].
    + destruct (wf_next _ _ W x X t HX Hn) as (G & HG & ? & [? ?] & Hr).
      destruct (Htarget t G HG) as (G' & HG' & ? & ?).
      exists G'. split; [done |]. split; [done |]. split; [split; cbn; congruence | done].
  - intros x X' t HX' Hp. rewrite Hlook in HX'.
    destruct (heap σ !! x) as [X |] eqn:HX; [| done]. injection HX' as <-.
    cbn in Hp. destruct (decide (next F = Some x)) as [Hnx |].
    + destruct (wf_next _ _ W p F x HF Hnx) as (X0 & HX0 & HFe & [? ?] & Hr1).
      assert (X0 = X) by congruence. subst X0.
      destruct (wf_prev _ _ W p F t HF Hp) as (G & HG & _ & [? ?] & Hr2).
      destruct (Htarget t G HG) as (G' & HG' & ? & ?).
      exists G'. split; [done |]. cbn. split; [congruence |].
      split; [split; cbn; congruence | lia].
    + destruct (wf_prev _ _ W x X t HX Hp) as (G & HG & ? & [? ?] & Hr).
      destruct (Htarget t G HG) as (G' & HG' & ? & ?).
      exists G'. split; [done |]. split; [done |]. split; [split; cbn; congruence | done].
Qed.
(** *** Every operation keeps the state well formed *)

Lemma wf_same_heap σ σ' rank :
  wf σ rank → heap σ' = heap σ →
  (∀ e, is_Some (eheap σ !! e) → is_Some (eheap σ' !! e)) →
  (∀ e E' v r, eheap σ' !! e = Some E' → values E' !! v = Some r →
     ∃ E, eheap σ !! e = Some E ∧ values E !! v = Some r) →
  (∀ a e, engines σ' !! a = Some e → engines σ !! a = Some e) →
  (∀ x, x ∈ typeNew σ' → x ∈ typeNew σ) →
  wf σ' rank.
Proof.
  intros W Hh Heh Hroots Hes Htn. split.
  - intros a e Ha. apply Heh. apply (wf_keyed _ _ W a). by apply Hes.
  - intros x Hx. rewrite Hh. apply (wf_pending _ _ W). by apply Htn.
  - intros e E' v r HE' Hv. rewrite Hh.
    destruct (Hroots e E' v r HE' Hv) as (E & HE & Hr). by apply (wf_root _ _ W e E).
  - intros x X t. rewrite !Hh. apply (wf_next _ _ W).
  - intros x X t. rewrite !Hh. apply (wf_prev _ _ W).
Qed.

Lemma wf_start eh es loopRef :
  (∀ e E, eh !! e = Some E → values E = ∅) →
  (∀ a e, es !! a = Some e → is_Some (eh !! e)) →
  wf (start eh es loopRef) (λ _, 0%nat).
Proof.
  intros Hempty Hkeyed. split; cbn.
  - done.
  - intros p Hp. by apply elem_of_empty in Hp.
  - intros e E v p HE Hv. rewrite (Hempty e E HE) in Hv. by rewrite lookup_empty in Hv.
  - intros p F q HF. by rewrite lookup_empty in HF.
  - intros p F q HF. by rewrite lookup_empty in HF.
Qed.

Lemma wf_paint σ rank ref : wf σ rank → wf (set_guiPaintRef ref σ) rank.
Proof. intros W. apply (wf_same_heap σ); cbn; eauto. Qed.

Lemma wf_typeNew σ rank a c spec f σ' :
  wf σ rank → hookGoValueTypeNew a c spec σ = Return f σ' → wf σ' rank.
Proof.
  intros W Hrun. rewrite typeNew_exec in Hrun. injection Hrun as <- <-.
  set (f := fresh (dom (heap σ))).
  pose proof (fresh_fold_None σ) as Hf. fold f in Hf.
  assert (Hold : ∀ x X, heap σ !! x = Some X → x ≠ f) by (intros x X HX ->; congruence).
  split; cbn.
  - apply (wf_keyed _ _ W).
  - intros p [Hp | ->%elem_of_singleton]%elem_of_union.
    + destruct (wf_pending _ _ W p Hp) as (F & HF & ?).
      exists F. split; [| done]. rewrite lookup_insert_ne; [done |].
      intros Heq. by apply (Hold p F HF).
    + eexists. split; [apply lookup_insert_eq |]. cbn. eauto.
  - intros e E v p HE Hv. destruct (wf_root _ _ W e E v p HE Hv) as (F & HF & ?).
    exists F. split; [| done]. rewrite lookup_insert_ne; [done |].
    intros Heq. by apply (Hold p F HF).
  - intros x X t HX Hn. destruct (decide (x = f)) as [-> | Hxf].
    + rewrite lookup_insert_eq in HX. injection HX as <-. done.
    + rewrite lookup_insert_ne in HX by done.
      destruct (wf_next _ _ W x X t HX Hn) as (G & HG & ?).
      exists G. split; [| done]. rewrite lookup_insert_ne; [done |].
      intros Heq. by apply (Hold t G HG).
  - intros x X t HX Hp. destruct (decide (x = f)) as [-> | Hxf].
    + rewrite lookup_insert_eq in HX. injection HX as <-. done.
    + rewrite lookup_insert_ne in HX by done.
      destruct (wf_prev _ _ W x X t HX Hp) as (G & HG & ?).
      exists G. split; [| done]. rewrite lookup_insert_ne; [done |].
      intros Heq. by apply (Hold t G HG).
Qed.

Lemma wf_wrap σ rank ref cnew e v ow c σ' :
  wf σ rank → wrapGoValue ref cnew e v ow σ = Return c σ' → wellFormed σ'.
Proof.
  intros W Hrun.
  destruct (admitted v) eqn:Hadm.
  2: { destruct (wrap_not_admitted ref cnew e v ow σ Hadm) as [msg Hp]. congruence. }
  destruct (eheap σ !! e) as [E |] eqn:HE.
  2: { rewrite wrap_admitted_eq in Hrun by done. revert Hrun. msimpl. by rewrite HE. }
  pose proof (fresh_fold_None σ) as Hf.
  destruct (values E !! v) as [p |] eqn:Hv.
  - destruct (wf_root _ _ W e E v p HE Hv) as (P & HP & HPe & HPv).
    destruct (decide (reuses σ ref P ow)) as [Hr | Hr].
    + rewrite (wrap_reuse ref cnew e E v ow p P σ) in Hrun by done.
      injection Hrun as _ <-. by exists rank.
    + destruct (wrap_alias ref cnew e E v ow p P σ Hadm HE Hv HP Hr)
        as (σ1 & Hrun1 & Hf1 & Hp1 & Hother & Heh & Hes & Htn & _).
      rewrite Hrun1 in Hrun. injection Hrun as _ <-.
      exists (setRank rank (fresh (dom (heap σ))) (S (rank p))).
      eapply (wf_link_after σ σ1 rank p P); try done.
      * by apply (detached_fresh σ rank).
      * intros ->. congruence.
      * intros x Hx. rewrite Htn in Hx. split; [done |]. intros ->.
        destruct (wf_pending _ _ W _ Hx) as (F & HF & _). congruence.
  - destruct (decide (ref = guiPaintRef σ)) as [Hp | Hp].
    + rewrite (wrap_fresh_while_painting ref cnew e E v ow σ) in Hrun by done. done.
    + destruct (wrap_first ref cnew e E v ow σ Hadm HE Hv Hp)
        as (σ1 & Hrun1 & Hh & Heh & Hes & Htn & _).
      rewrite Hrun1 in Hrun. injection Hrun as _ <-.
      exists rank. eapply (wf_new_root σ σ1 rank e E (fresh (dom (heap σ)))); try done.
      * by apply (detached_fresh σ rank).
      * rewrite Hh. apply lookup_insert_eq.
      * done.
      * done.
      * done.
      * intros x Hx. rewrite Hh. by rewrite lookup_insert_ne.
      * done.
      * intros x Hx. rewrite Htn in Hx. split; [done |]. intros ->.
        destruct (wf_pending _ _ W _ Hx) as (F & HF & _). congruence.
Qed.

Lemma wf_destroy σ rank ep p σ' :
  wf σ rank → hookGoValueDestroyed ep p σ = Return tt σ' → wf σ' rank.
Proof.
  intros W. unfold hookGoValueDestroyed. msimpl.
  destruct (heap σ !! p) as [F |] eqn:HF; [| done]. msimpl.
  destruct (engine F) as [e |] eqn:He.
  - (* a fold of an engine *)
    msimpl. destruct (eheap σ !! e) as [E |] eqn:HE; [| done]. msimpl.
    destruct (engines σ !! addr E) as [e0 |] eqn:Hreg; [| done].
    destruct (prev F) as [q |] eqn:Hp.
    + destruct (wf_prev _ _ W p F q HF Hp) as (Q & HQ & _ & _ & Hr1).
      assert (q ≠ p) by (intros ->; lia).
      msimpl. rewrite HF. msimpl. rewrite HQ. msimpl.
      rewrite lookup_alter_ne, HF by done. msimpl.
      destruct (next F) as [n |] eqn:Hn.
      * destruct (wf_next _ _ W p F n HF Hn) as (G & HG & _ & _ & Hr2).
        assert (q ≠ n) by (intros ->; lia).
        msimpl. rewrite lookup_alter_ne, HG by done. msimpl.
        intros [= <-]. rewrite Hp.
        apply (wf_unlink σ _ rank p F W HF); cbn; eauto.
        unfold unlinkFold. by rewrite Hp, Hn.
      * msimpl. intros [= <-].
        apply (wf_unlink σ _ rank p F W HF); cbn; eauto.
        unfold unlinkFold. by rewrite Hp, Hn.
    + destruct (next F) as [n |] eqn:Hn.
      * destruct (wf_next _ _ W p F n HF Hn) as (G & HG & _ & _ & Hr2).
        assert (n ≠ p) by (intros ->; lia).
        msimpl. rewrite HG. msimpl. rewrite lookup_alter_ne, HF by done. msimpl.
        rewrite Hp. msimpl. rewrite HE. msimpl. rewrite Hn. cbn.
        intros [= <-].
        apply (wf_unlink σ _ rank p F W HF); cbn; eauto.
        -- unfold unlinkFold. by rewrite Hp, Hn.
        -- intros e' He'. by apply lookup_alter_is_Some.
        -- intros e' E' v r HE' Hv. destruct (decide (e' = e)) as [-> | Hne].
           ++ rewrite lookup_alter_eq, HE in HE'. injection HE' as <-. cbn in Hv.
              destruct (decide (v = gvalue F)) as [-> | Hvne].
              ** rewrite lookup_insert_eq in Hv. injection Hv as <-. right. done.
              ** rewrite lookup_insert_ne in Hv by done. left. eauto.
           ++ rewrite lookup_alter_ne in HE' by done. left. eauto.
      * msimpl. rewrite HE. msimpl. rewrite lookup_alter_eq, HE. msimpl.
        destruct (decide (size (delete (gvalue F) (values E)) = size (values E))); [done |].
        assert (Hroots : ∀ e' E' v r,
                  alter (λ E0, with_values (delete (gvalue F) (values E0)) E0) e (eheap σ) !! e'
                  = Some E' → values E' !! v = Some r →
                  ∃ E0, eheap σ !! e' = Some E0 ∧ values E0 !! v = Some r).
        { intros e' E' v r HE' Hv. destruct (decide (e' = e)) as [-> | Hne].
          - rewrite lookup_alter_eq, HE in HE'. injection HE' as <-. cbn in Hv.
            apply lookup_delete_Some in Hv as [_ Hv]. eauto.
          - rewrite lookup_alter_ne in HE' by done. eauto. }
        destruct (destroyed E && bool_decide (size (delete (gvalue F) (values E)) = 0%nat));
          msimpl; intros [= <-].
        -- apply (wf_same_heap σ _ rank W); cbn; eauto.
           ++ intros e' He'. by apply lookup_alter_is_Some.
           ++ intros a e' Ha. apply lookup_delete_Some in Ha as [_ Ha]. done.
        -- apply (wf_same_heap σ _ rank W); cbn; eauto.
           intros e' He'. by apply lookup_alter_is_Some.
  - (* a pending fold *)
    msimpl.
    destruct (decide (size (typeNew σ ∖ {[p]}) = size (typeNew σ))); [done |]. msimpl.
    intros [= <-]. apply (wf_same_heap σ _ rank W); cbn; eauto.
    intros x Hx. apply elem_of_difference in Hx as [Hx _]. done.
Qed.

Lemma wf_engineDestroy σ rank e σ' :
  wf σ rank → engineDestroy e σ = Return tt σ' → wf σ' rank.
Proof.
  intros W. unfold engineDestroy. msimpl.
  destruct (eheap σ !! e) as [E |] eqn:HE; [| done]. msimpl. rewrite HE. msimpl.
  assert (Hroots : ∀ e' E' v r,
            alter (λ E0, mkEngine (addr E0) (values E0) true) e (eheap σ) !! e' = Some E' →
            values E' !! v = Some r →
            ∃ E0, eheap σ !! e' = Some E0 ∧ values E0 !! v = Some r).
  { intros e' E' v r HE' Hv. destruct (decide (e' = e)) as [-> | Hne].
    - rewrite lookup_alter_eq, HE in HE'. injection HE' as <-. eauto.
    - rewrite lookup_alter_ne in HE' by done. eauto. }
  destruct (decide (size (values E) = 0%nat)); msimpl; intros [= <-].
  - apply (wf_same_heap σ _ rank W); cbn; eauto.
    + intros e' He'. by apply lookup_alter_is_Some.
    + intros a e' Ha. apply lookup_delete_Some in Ha as [_ Ha]. done.
  - apply (wf_same_heap σ _ rank W); cbn; eauto.
    intros e' He'. by apply lookup_alter_is_Some.
Qed.
(** *** [ensureEngine] on a well-formed state *)

Lemma forward_snoc h h' (l : list foldp) f F' :
  forward h l → NoDup l → f ∉ l →
  (∀ x, x ∈ l → Some x ≠ last l → h' !! x = h !! x) →
  (∀ q, last l = Some q → h' !! q = with_next (Some f) <$> h !! q) →
  h' !! f = Some F' → next F' = None →
  forward h' (l ++ [f]).
Proof.
  intros Hl Hnd Hf Hsame Hlast HF' Hn i x Hi.
  destruct (decide (i < length l)%nat) as [Hlt | Hge].
  - rewrite lookup_app_l in Hi by done.
    destruct (Hl i x Hi) as (F & HF & HFn).
    destruct (decide (S i = length l)) as [Hend | Hmid].
    + assert (Hq : last l = Some x).
      { rewrite last_lookup. replace (pred (length l)) with i by lia. done. }
      exists (with_next (Some f) F). rewrite (Hlast x Hq), HF. cbn.
      split; [done |].
      rewrite lookup_app_r by lia. replace (S i - length l)%nat with 0%nat by lia. done.
    + exists F. rewrite Hsame, HF.
      * split; [done |]. rewrite lookup_app_l by lia. done.
      * by eapply list_elem_of_lookup_2.
      * rewrite last_lookup. intros Heq. symmetry in Heq.
        pose proof (NoDup_lookup _ _ _ _ Hnd Hi Heq). lia.
  - assert (i = length l) as ->.
    { apply lookup_lt_Some in Hi. rewrite length_app in Hi. cbn in Hi. lia. }
    rewrite lookup_app_r in Hi by lia. rewrite Nat.sub_diag in Hi. cbn in Hi.
    injection Hi as <-. exists F'. split; [done |].
    rewrite Hn. symmetry. apply lookup_ge_None. rewrite length_app. cbn. lia.
Qed.

(** The first [ensureEngine] of a pending fold with a registered engine
    pointer: the fold leaves the pending set, ends the chain of the
    engine for its value, and its initializer is called. *)
Lemma ensureEngine_pending_wf σ rank ep f e :
  wf σ rank → f ∈ typeNew σ → ep ≠ nilPtr → engines σ !! ep = Some e →
  ∃ σ' F i,
    heap σ !! f = Some F ∧ init F = Some i
    ∧ ensureEngine ep f σ = Return f σ'
    ∧ wellFormed σ'
    ∧ typeNew σ' = typeNew σ ∖ {[f]}
    ∧ log σ' = log σ ++ [initCall f i (gvalue F) e (cvalue F)]
    ∧ (engine <$> heap σ' !! f) = Some (Some e)
    ∧ (gvalue <$> heap σ' !! f) = Some (gvalue F)
    ∧ foldChain σ' e (gvalue F) = foldChain σ e (gvalue F) ++ [f].
Proof.
  intros W Hf Hnil Hep.
  destruct (wf_pending _ _ W f Hf) as (F & HF & HFe & HFp & HFn & [i HFi]).
  destruct (wf_keyed _ _ W ep e Hep) as [E HE].
  set (g := gvalue F).
  assert (Hsz : size (typeNew σ ∖ {[f]}) ≠ size (typeNew σ)).
  { rewrite size_difference by set_solver. rewrite size_singleton.
    assert (size (typeNew σ) ≠ 0%nat); [| lia].
    intros Hz. apply size_empty_inv in Hz. set_solver. }
  pose proof (detached_engineless σ rank f F W HF HFe) as Hdet.
  pose proof (foldChain_wf σ rank e E g W HE) as Hchain.
  unfold ensureEngine. msimpl. rewrite HF. msimpl. rewrite HFe.
  destruct (decide (ep = nilPtr)); [done |]. msimpl. rewrite Hep. msimpl.
  rewrite HF. msimpl. rewrite HE. msimpl. fold g.
  destruct (values E !! g) as [p |] eqn:Hroot.
  - (* the fold is linked after the last fold of the chain *)
    destruct Hchain as (l & Hfc & Hl & Hnd & Hclass).
    assert (Hfl : f ∉ p :: l).
    { intros Hin. destruct (Hclass f Hin) as (X & HX & HXe & _). congruence. }
    msimpl.
    set (σ1 := set_heap (alter (with_engine (Some e)) f (heap σ)) σ).
    assert (Hl1 : forward (heap σ1) (p :: l)).
    { apply (forward_frame (heap σ)); [done |]. intros x Hx. cbn.
      rewrite lookup_alter_ne; [done |]. by intros ->. }
    destruct (lastFold_forward σ1 (p :: l) Hl1
                (size (alter (with_engine (Some e)) f (heap σ))) 0%nat p) as (q & Hq & Hrun).
    { done. }
    { pose proof (forward_length_le _ _ Hnd Hl1) as Hle. cbn in Hle. cbn. lia. }
    rewrite Hrun. unfold σ1. msimpl.
    assert (Hql : q ∈ p :: l).
    { rewrite last_lookup in Hq. by eapply list_elem_of_lookup_2. }
    assert (Hqf : q ≠ f) by (by intros ->).
    destruct (Hclass q Hql) as (Q & HQ & HQe & HQg).
    rewrite lookup_alter_ne, HQ by done. msimpl.
    rewrite lookup_alter_ne, lookup_alter_eq, HF by done. msimpl.
    destruct (decide (size (typeNew σ ∖ {[f]}) = size (typeNew σ))); [done |]. msimpl.
    rewrite lookup_alter_eq, lookup_alter_ne, lookup_alter_eq, HF by done. msimpl.
    rewrite HFi. msimpl.
    eexists _, F, i. split; [done |]. split; [done |]. split; [reflexivity |]. cbn.
    set (h' := alter (with_prev (Some q)) f
                 (alter (with_next (Some f)) q (alter (with_engine (Some e)) f (heap σ)))).
    assert (Hf' : h' !! f = Some (with_prev (Some q) (with_engine (Some e) F))).
    { unfold h'. by rewrite lookup_alter_eq, lookup_alter_ne, lookup_alter_eq, HF. }
    assert (Hq' : h' !! q = Some (with_next (Some f) Q)).
    { unfold h'. by rewrite lookup_alter_ne, lookup_alter_eq, lookup_alter_ne, HQ. }
    assert (Hother : ∀ x, x ≠ f → x ≠ q → h' !! x = heap σ !! x).
    { intros x ? ?. unfold h'. by rewrite !lookup_alter_ne. }
    split; [| split; [done | split; [done | split; [by rewrite Hf' | split; [by rewrite Hf' |]]]]].
    + exists (setRank rank f (S (rank q))).
      eapply (wf_link_after σ _ rank q Q f); cbn; try done.
      intros x Hx. apply elem_of_difference in Hx as [Hx Hne].
      split; [done |]. intros ->. apply Hne. by apply elem_of_singleton.
    + unfold g in *. rewrite Hfc. unfold foldChain. cbn. rewrite HE, Hroot. fold h'.
      assert (Hl' : forward h' ((p :: l) ++ [f])).
      { eapply (forward_snoc (heap σ)); try done.
        - intros x Hx Hne. apply Hother; [by intros -> | congruence].
        - intros q' Hq''. assert (q' = q) by congruence. subst q'. by rewrite Hq', HQ. }
      change (Some p) with (((p :: l) ++ [f]) !! 0%nat).
      rewrite (chainFrom_forward _ _ Hl'); [done |].
      assert (Hnd' : NoDup ((p :: l) ++ [f])).
      { apply NoDup_app. split; [done |]. split; [| apply NoDup_singleton].
        intros x Hx ->%list_elem_of_singleton. done. }
      pose proof (forward_length_le _ _ Hnd' Hl'). lia.
  - (* the fold becomes the root *)
    msimpl. rewrite HE. msimpl.
    destruct (decide (size (typeNew σ ∖ {[f]}) = size (typeNew σ))); [done |]. msimpl.
    rewrite lookup_alter_eq, HF. msimpl. rewrite HFi. msimpl.
    eexists _, F, i. split; [done |]. split; [done |]. split; [reflexivity |]. cbn.
    match goal with |- wellFormed ?s ∧ _ => set (σ' := s) end.
    assert (W' : wf σ' rank).
    { eapply (wf_new_root σ σ' rank e E f (with_engine (Some e) F)); cbn; try done.
      - by rewrite lookup_alter_eq, HF.
      - intros x Hx. by rewrite lookup_alter_ne.
      - rewrite (alter_insert_cell (eheap σ) e E) by done. reflexivity.
      - intros x Hx. apply elem_of_difference in Hx as [Hx Hne].
        split; [done |]. intros ->. apply Hne. by apply elem_of_singleton. }
    split; [by exists rank |]. split; [done |]. split; [done |].
    split; [by rewrite lookup_alter_eq, HF |]. split; [by rewrite lookup_alter_eq, HF |].
    unfold g in *. rewrite Hchain. cbn.
    assert (HE' : eheap σ' !! e = Some (with_values (<[gvalue F := f]> (values E)) E)).
    { cbn. by rewrite lookup_alter_eq, HE. }
    pose proof (foldChain_wf σ' rank e _ (gvalue F) W' HE') as Hc. cbn in Hc.
    rewrite lookup_insert_eq in Hc. destruct Hc as (l & Hfc & Hl & _).
    rewrite Hfc. destruct (Hl 0%nat f eq_refl) as (X & HX & HXn).
    cbn in HX. rewrite lookup_alter_eq, HF in HX. injection HX as <-. cbn in HXn.
    rewrite HFn in HXn. destruct l; [done | discriminate].
Qed.

(** A fold without engine that the pending set does not hold: the fold
    is linked all the same, then the call panics. *)
Lemma ensureEngine_not_pending_wf σ rank ep f F e :
  wf σ rank → heap σ !! f = Some F → engine F = None → f ∉ typeNew σ →
  ep ≠ nilPtr → engines σ !! ep = Some e →
  ∃ σ', ensureEngine ep f σ =
        Panicked "value had no engine, but was not created by a registered type; who created the value?" σ'.
Proof.
  intros W HF HFe Hf Hnil Hep.
  destruct (wf_keyed _ _ W ep e Hep) as [E HE].
  set (g := gvalue F).
  assert (Hsame : typeNew σ ∖ {[f]} = typeNew σ).
  { apply set_eq. intros x. rewrite elem_of_difference, elem_of_singleton.
    split; [tauto |]. intros Hx. split; [done |]. by intros ->. }
  pose proof (foldChain_wf σ rank e E g W HE) as Hchain.
  unfold ensureEngine. msimpl. rewrite HF. msimpl. rewrite HFe.
  destruct (decide (ep = nilPtr)); [done |]. msimpl. rewrite Hep. msimpl.
  rewrite HF. msimpl. rewrite HE. msimpl. fold g.
  destruct (values E !! g) as [p |] eqn:Hroot.
  - destruct Hchain as (l & Hfc & Hl & Hnd & Hclass).
    assert (Hfl : f ∉ p :: l).
    { intros Hin. destruct (Hclass f Hin) as (X & HX & HXe & _). congruence. }
    msimpl.
    set (σ1 := set_heap (alter (with_engine (Some e)) f (heap σ)) σ).
    assert (Hl1 : forward (heap σ1) (p :: l)).
    { apply (forward_frame (heap σ)); [done |]. intros x Hx. cbn.
      rewrite lookup_alter_ne; [done |]. by intros ->. }
    destruct (lastFold_forward σ1 (p :: l) Hl1
                (size (alter (with_engine (Some e)) f (heap σ))) 0%nat p) as (q & Hq & Hrun).
    { done. }
    { pose proof (forward_length_le _ _ Hnd Hl1) as Hle. cbn in Hle. cbn. lia. }
    rewrite Hrun. unfold σ1. msimpl.
    assert (Hql : q ∈ p :: l).
    { rewrite last_lookup in Hq. by eapply list_elem_of_lookup_2. }
    assert (Hqf : q ≠ f) by (by intros ->).
    destruct (Hclass q Hql) as (Q & HQ & _).
    rewrite lookup_alter_ne, HQ by done. msimpl.
    rewrite lookup_alter_ne, lookup_alter_eq, HF by done. msimpl. rewrite Hsame.
    destruct (decide (size (typeNew σ) = size (typeNew σ))); [| done]. eauto.
  - msimpl. rewrite HE. msimpl. rewrite Hsame.
    destruct (decide (size (typeNew σ) = size (typeNew σ))); [| done]. eauto.
Qed.

Lemma wf_ensureEngine σ rank ep f x σ' :
  wf σ rank → ensureEngine ep f σ = Return x σ' → wellFormed σ'.
Proof.
  intros W Hrun.
  destruct (heap σ !! f) as [F |] eqn:HF.
  2: { revert Hrun. unfold ensureEngine. msimpl. by rewrite HF. }
  destruct (engine F) as [e |] eqn:He.
  { rewrite (ensureEngine_resolved ep f F e σ HF He) in Hrun.
    injection Hrun as _ <-. by exists rank. }
  destruct (decide (ep = nilPtr)) as [-> | Hnil].
  { rewrite (ensureEngine_nil_pointer f F σ HF He) in Hrun. done. }
  destruct (engines σ !! ep) as [e |] eqn:Hep.
  2: { destruct (ensureEngine_unknown_engine ep f F σ HF He Hep) as [msg Hp]. congruence. }
  destruct (decide (f ∈ typeNew σ)) as [Hf | Hf].
  - destruct (ensureEngine_pending_wf σ rank ep f e W Hf Hnil Hep)
      as (σ1 & F1 & i & _ & _ & Hrun1 & W1 & _).
    rewrite Hrun1 in Hrun. by injection Hrun as _ <-.
  - destruct (ensureEngine_not_pending_wf σ rank ep f F e W HF He Hf Hnil Hep) as [σ1 Hp].
    congruence.
Qed.

(** *** Reachable states are well formed *)

Lemma wf_exec σ rank o σ' :
  wf σ rank → exec o σ = Return tt σ' → wellFormed σ'.
Proof.
  intros W. destruct o as [ref cnew e v ow | a c spec | ep f | ep f]; cbn; unfold bind, ret.
  - destruct (wrapGoValue ref cnew e v ow σ) as [c σ1 | |] eqn:Hrun; [| done | done].
    intros [= <-]. by eapply wf_wrap.
  - destruct (hookGoValueTypeNew a c spec σ) as [f σ1 | |] eqn:Hrun; [| done | done].
    intros [= <-]. exists rank. by eapply wf_typeNew.
  - destruct (ensureEngine ep f σ) as [x σ1 | |] eqn:Hrun; [| done | done].
    intros [= <-]. by eapply wf_ensureEngine.
  - intros Hrun. exists rank. by eapply wf_destroy.
Qed.

Lemma reachable_wellFormed σ : reachable σ → wellFormed σ.
Proof.
  induction 1 as [eh es r Hempty Hkeyed | σ o σ' _ [rank W] Hrun
                  | σ e σ' _ [rank W] Hrun | σ ref _ [rank W]].
  - eexists. by apply wf_start.
  - by eapply wf_exec.
  - exists rank. by eapply wf_engineDestroy.
  - exists rank. by apply wf_paint.
Qed.

Lemma run_reachable ops : ∀ σ σ', reachable σ → run ops σ = Return tt σ' → reachable σ'.
Proof.
  induction ops as [| o ops IH]; intros σ σ' Hr; cbn.
  - unfold ret. by intros [= <-].
  - unfold bind. destruct (exec o σ) as [[] σ1 | |] eqn:Hrun; [| done | done].
    intros Hrest. apply (IH σ1); [| done]. by apply (reach_exec σ o).
Qed.

(** ** The dispatcher and the lock count *)

Lemma wrap64_small z : - 2 ^ 63 ≤ z < 2 ^ 63 → wrap64 z = z.
Proof. intros Hz. unfold wrap64. rewrite Z.mod_small by lia. lia. Qed.

(** With no sender ready the hook returns to the event loop exactly when
    the lock count is not positive. *)
Lemma hookIdleTimer_idle t w :
  guiFunc w = [] →
  hookIdleTimer t w =
  if decide (guiLock (mem w) > 0) then Blocks (mkWorld (mem w) [] (trace w))
  else Returns (mkWorld (mem w) [] (trace w)).
Proof. intros Hq. unfold hookIdleTimer. rewrite Hq. reflexivity. Qed.

Lemma unlockBody_zero σ :
  guiLock σ = 0 → unlockBody σ = Panicked "qml.Unlock called without lock being held" σ.
Proof. intros Hz. unfold unlockBody. msimpl. rewrite Hz. reflexivity. Qed.

Lemma unlockBody_positive σ :
  guiLock σ ≠ 0 → unlockBody σ = Return tt (set_guiLock (wrap64 (guiLock σ - 1)) σ).
Proof.
  intros Hz. unfold unlockBody. msimpl. by destruct (decide (guiLock σ = 0)).
Qed.

(** [Lock()] and [Unlock()] seen from their caller, the hook serving the
    call when it is marshalled. *)
Lemma session_Lock ref calls w :
  guiFunc w = [] →
  ∃ w', session (Lock ref :: calls) w = session calls w'
        ∧ guiFunc w' = []
        ∧ guiLock (mem w') = wrap64 (guiLock (mem w) + 1)
        ∧ guiLoopRef (mem w') = guiLoopRef (mem w).
Proof.
  intros Hq. cbn [session]. unfold Lock, gui.
  destruct (bool_decide (ref = guiLoopRef (mem w)) || bool_decide (ref = guiPaintRef (mem w))).
  - cbn. eexists. split; [reflexivity |]. cbn. by rewrite Hq.
  - rewrite Hq. cbn. unfold hookIdleTimer. cbn.
    destruct (decide (wrap64 (guiLock (mem w) + 1) > 0));
      (eexists; split; [reflexivity |]; done).
Qed.

Lemma session_Unlock ref calls w :
  guiFunc w = [] → guiLock (mem w) ≠ 0 →
  ∃ w', session (Unlock ref :: calls) w = session calls w'
        ∧ guiFunc w' = []
        ∧ guiLock (mem w') = wrap64 (guiLock (mem w) - 1)
        ∧ guiLoopRef (mem w') = guiLoopRef (mem w).
Proof.
  intros Hq Hz. cbn [session]. unfold Unlock, gui.
  destruct (bool_decide (ref = guiLoopRef (mem w)) || bool_decide (ref = guiPaintRef (mem w))).
  - unfold runClosure. cbn [body]. rewrite unlockBody_positive by done.
    eexists. split; [reflexivity |]. cbn. by rewrite Hq.
  - rewrite Hq. cbn [app]. unfold hookIdleTimer. cbn [guiFunc mem trace serve].
    unfold runClosure. cbn [body mem]. rewrite unlockBody_positive by done. cbn.
    destruct (decide (wrap64 (guiLock (mem w) - 1) > 0));
      (eexists; split; [reflexivity |]; done).
Qed.

Lemma session_Unlock_zero ref calls w :
  guiFunc w = [] → guiLock (mem w) = 0 →
  ∃ w', session (Unlock ref :: calls) w
        = Panics "qml.Unlock called without lock being held" w'
        ∧ guiLock (mem w') = 0.
Proof.
  intros Hq Hz. cbn [session]. unfold Unlock, gui.
  destruct (bool_decide (ref = guiLoopRef (mem w)) || bool_decide (ref = guiPaintRef (mem w))).
  - unfold runClosure. cbn [body]. rewrite unlockBody_zero by done.
    eexists. split; [reflexivity |]. done.
  - rewrite Hq. cbn [app]. unfold hookIdleTimer. cbn [guiFunc mem trace serve].
    unfold runClosure. cbn [body mem]. rewrite unlockBody_zero by done.
    eexists. split; [reflexivity |]. done.
Qed.

(** ** What the hook does with the senders *)

Lemma serve_total t q :
  ∀ σ tr, (∀ c g, (c, g) ∈ q → total g) →
    ∃ w, (serve t q σ tr = Returns w ∨ serve t q σ tr = Blocks w)
         ∧ trace w = tr ++ served t q ∧ guiFunc w = [].
Proof.
  induction q as [| [c g] q IH]; intros σ tr Htot.
  - cbn. destruct (decide (guiLock σ > 0)); eexists; (split; [eauto |]); cbn;
      by rewrite app_nil_r.
  - cbn [serve]. unfold runClosure. cbn [mem guiFunc trace].
    destruct (Htot c g ltac:(left) σ) as [σ' Hb]. rewrite Hb.
    destruct (IH (set_hookWaiting (wrap32 (hookWaiting σ' + -1)) σ')
                 (tr ++ [ran t (label g); finished c (label g)])) as (w & Hw & Htr & Hq).
    { intros c' g' Hin. apply (Htot c' g'). by right. }
    exists w. split; [exact Hw |]. split; [| done].
    rewrite Htr. cbn [served]. by rewrite <- app_assoc.
Qed.

Lemma served_app t q1 q2 : served t (q1 ++ q2) = served t q1 ++ served t q2.
Proof.
  induction q1 as [| [c g] q1 IH]; [done |]. cbn. by rewrite IH.
Qed.

Lemma timesRan_app n tr1 tr2 : timesRan n (tr1 ++ tr2) = (timesRan n tr1 + timesRan n tr2)%nat.
Proof. unfold timesRan. by rewrite filter_app, length_app. Qed.

Lemma timesRan_served_other n t q :
  (∀ c g, (c, g) ∈ q → label g ≠ n) → timesRan n (served t q) = 0%nat.
Proof.
  induction q as [| [c g] q IH]; intros Hq; [done |].
  cbn [served]. unfold timesRan in *.
  rewrite filter_cons. cbn [isRun].
  rewrite bool_decide_eq_false_2 by (apply (Hq c g); left).
  rewrite decide_False by discriminate. rewrite filter_cons. cbn [isRun].
  rewrite decide_False by discriminate. apply IH. intros c' g' Hin. apply (Hq c' g'). by right.
Qed.

(** ** The change notifier on a consistent state *)

Lemma set_log_id σ : set_log (log σ) σ = σ.
Proof. by destruct σ. Qed.

Lemma activateChain_linked h e v off (l : list foldp) :
  linked h e v l →
  ∀ fuel i σ, heap σ = h → (length l - i ≤ fuel)%nat →
    activateChain fuel (l !! i) v off σ
    = Return tt (set_log (log σ ++ (signalOf h v off <$> drop i l)) σ).
Proof.
  intros Hl fuel. induction fuel as [| fuel IH]; intros i σ Hh Hfuel.
  - rewrite drop_ge by lia. rewrite (proj2 (lookup_ge_None l i)) by lia.
    cbn. by rewrite app_nil_r, set_log_id.
  - destruct (l !! i) as [p |] eqn:Hi.
    + destruct (Hl i p Hi) as (F & HF & _ & _ & _ & Hn).
      cbn [activateChain]. msimpl. rewrite Hh, HF. msimpl.
      rewrite Hn. rewrite IH by (done || lia). cbn.
      rewrite (drop_S l p i Hi). cbn. unfold signalOf at 2. rewrite HF. cbn.
      by rewrite <- app_assoc.
    + apply lookup_ge_None in Hi. rewrite drop_ge by lia.
      cbn. by rewrite app_nil_r, set_log_id.
Qed.

Lemma deferPending_valid v off (ps : list foldp) :
  ∀ deferred σ, (∀ p, p ∈ ps → is_Some (heap σ !! p)) →
    deferPending ps v off deferred σ
    = (rev (pendingSignals (heap σ) v off ps) ++ deferred, Return tt σ).
Proof.
  induction ps as [| p ps IH]; intros deferred σ Hvalid; [done |].
  destruct (Hvalid p ltac:(left)) as [F HF].
  cbn [deferPending]. unfold load_fold. rewrite HF.
  unfold pendingSignals. rewrite filter_cons, HF. cbn [fmap option_fmap option_map].
  destruct (decide (gvalue F = v)) as [Hv | Hv].
  - rewrite decide_True by (by rewrite Hv).
    rewrite IH by (intros q Hq; apply Hvalid; by right).
    cbn [fmap list_fmap rev]. unfold signalOf at 2. rewrite HF. cbn.
    by rewrite <- app_assoc.
  - rewrite decide_False by (intros [= ?]; done).
    apply IH. intros q Hq. apply Hvalid. by right.
Qed.

Lemma loopDeferred_log rangeTypeNew σ l v off (es : list enginep) :
  ∀ i deferred,
    loopDeferred rangeTypeNew (set_log l σ) v off i es deferred
    = loopDeferred rangeTypeNew σ v off i es deferred.
Proof. induction es as [| e es IH]; intros i deferred; [done |]. cbn. apply IH. Qed.

(** The passes over the engines [es]: the signals of their chains for
    [v] are emitted, engine after engine, nothing else changes, and the
    signals of the pending folds are on the stack of deferred calls. *)
Lemma changedLoop_repr rangeTypeNew ch v off (es : list enginep) :
  (∀ i s, rangeTypeNew i s ≡ₚ elements s) →
  ∀ i deferred σ, repr σ ch → (∀ e, e ∈ es → is_Some (eheap σ !! e)) →
    changedLoop es i rangeTypeNew v off deferred σ
    = (loopDeferred rangeTypeNew σ v off i es deferred,
       Return tt (set_log (log σ ++ (es ≫= λ e, signalOf (heap σ) v off <$> ch e v)) σ)).
Proof.
  intros Hrange. induction es as [| e es IH]; intros i deferred σ R Hvalid.
  - cbn. by rewrite app_nil_r, set_log_id.
  - destruct (Hvalid e ltac:(left)) as [E HE].
    cbn [changedLoop]. msimpl. rewrite HE. msimpl.
    rewrite (repr_root _ _ R e E v HE), head_lookup.
    rewrite (activateChain_linked (heap σ) e v off (ch e v) (repr_linked _ _ R e v))
      by (done || (pose proof (linked_length_le _ _ _ _ (repr_nodup _ _ R e v)
                                 (repr_linked _ _ R e v)); lia)).
    rewrite drop_0.
    set (σ1 := set_log _ σ).
    assert (R1 : repr σ1 ch) by (by destruct R; constructor).
    rewrite deferPending_valid.
    2:{ intros p Hp. rewrite Hrange, elem_of_elements in Hp.
        destruct (repr_pending _ _ R p Hp) as (F & HF & _). eauto. }
    rewrite (IH (S i) _ σ1 R1) by (intros e' He'; apply Hvalid; by right).
    cbn. rewrite <- app_assoc. f_equal. unfold σ1. apply loopDeferred_log.
Qed.

Lemma bind_nil_all {A B} (g : A → list B) (l : list A) :
  (∀ x, x ∈ l → g x = []) → l ≫= g = [].
Proof.
  induction l as [| x l IH]; intros Hg; [done |]. cbn.
  rewrite (Hg x) by left. cbn. apply IH. intros y Hy. apply Hg. by right.
Qed.

(** Two elements of a duplicate-free list carry all that the others do
    not contribute. *)
Lemma bind_two {A B} `{EqDecision A} (g : A → list B) (l : list A) x y :
  NoDup l → x ∈ l → y ∈ l → x ≠ y →
  (∀ z, z ∈ l → z ≠ x → z ≠ y → g z = []) →
  l ≫= g ≡ₚ g x ++ g y.
Proof.
  intros Hnd Hx Hy Hxy Hrest.
  apply elem_of_Permutation in Hx as [k Hk].
  assert (Hyk : y ∈ k).
  { rewrite Hk in Hy. apply elem_of_cons in Hy as [-> | ?]; done. }
  apply elem_of_Permutation in Hyk as [k' Hk'].
  assert (Hl : l ≡ₚ x :: y :: k') by (by rewrite Hk, Hk').
  rewrite Hl in Hnd. apply NoDup_cons in Hnd as [Hxn Hnd]. apply NoDup_cons in Hnd as [Hyn _].
  rewrite Hl. cbn. rewrite (bind_nil_all g k'); [by rewrite app_nil_r |].
  intros z Hz. apply Hrest.
  - rewrite Hl. right. by right.
  - intros ->. apply Hxn. by right.
  - by intros ->.
Qed.

Lemma registry_NoDup σ ch : repr σ ch → NoDup ((map_to_list (engines σ)).*2).
Proof.
  intros R. apply NoDup_fmap_2_strong; [| apply NoDup_map_to_list].
  intros [a e] [a' e'] Ha Ha' Heq. cbn in Heq. subst e'.
  apply elem_of_map_to_list in Ha, Ha'.
  destruct (repr_keyed _ _ R a e Ha) as (E & HE & Haddr).
  destruct (repr_keyed _ _ R a' e Ha') as (E' & HE' & Haddr'). congruence.
Qed.

Lemma registry_elem σ e :
  e ∈ (map_to_list (engines σ)).*2 ↔ ∃ a, engines σ !! a = Some e.
Proof.
  rewrite list_elem_of_fmap. split.
  - intros ([a e'] & -> & Hin). apply elem_of_map_to_list in Hin. eauto.
  - intros [a Ha]. exists (a, e). split; [done |]. by apply elem_of_map_to_list.
Qed.

Lemma pendingSignals_spec h v off ps ev :
  ev ∈ pendingSignals h v off ps ↔
  ∃ p, p ∈ ps ∧ (gvalue <$> h !! p) = Some v ∧ ev = signalOf h v off p.
Proof.
  unfold pendingSignals. rewrite list_elem_of_fmap. split.
  - intros (p & -> & Hp). apply list_elem_of_filter in Hp as [Hv Hp]. eauto.
  - intros (p & Hp & Hv & ->). exists p. split; [done |]. by apply list_elem_of_filter.
Qed.

Lemma elem_of_rev {A} (l : list A) x : x ∈ rev l ↔ x ∈ l.
Proof. rewrite !list_elem_of_In. symmetry. apply in_rev. Qed.

Lemma loopDeferred_spec rangeTypeNew σ v off (es : list enginep) :
  (∀ i s, rangeTypeNew i s ≡ₚ elements s) →
  ∀ i deferred ev,
    ev ∈ loopDeferred rangeTypeNew σ v off i es deferred ↔
    ev ∈ deferred
    ∨ (es ≠ [] ∧ ∃ p, p ∈ typeNew σ ∧ (gvalue <$> heap σ !! p) = Some v
                      ∧ ev = signalOf (heap σ) v off p).
Proof.
  intros Hrange. induction es as [| e es IH]; intros i deferred ev.
  - cbn. split; [by left |]. intros [? | [? _]]; done.
  - cbn [loopDeferred]. rewrite IH, elem_of_app, elem_of_rev, pendingSignals_spec.
    setoid_rewrite Hrange. setoid_rewrite elem_of_elements. split.
    + intros [[Hp | Hd] | [_ Hp]]; [right | by left | right]; (split; [done | exact Hp]).
    + intros [Hd | [_ Hp]]; [left; by right | left; by left].
Qed.

(** ** Conversions of a field write *)

Lemma convertElems_Forall2 convert elemType data ys :
  convertElems convert elemType data = Some ys ↔
  Forall2 (λ x y, ∃ x', x = Some x' ∧ convert x' elemType = Some y) data ys.
Proof.
  split.
  - revert ys. induction data as [| x data IH]; intros ys; cbn.
    + intros [= <-]. constructor.
    + destruct x as [x' |]; [| discriminate].
      destruct (convert x' elemType) as [y |] eqn:Hc; [| discriminate].
      destruct (convertElems convert elemType data) as [ys' |]; [| discriminate].
      intros [= <-]. constructor; [eauto | by apply IH].
  - induction 1 as [| x y data ys (x' & -> & Hc) _ IH]; cbn; [done |].
    by rewrite Hc, IH.
Qed.

Lemma convertElems_failure convert elemType data :
  Exists (λ x, ∀ x', x = Some x' → convert x' elemType = None) data →
  convertElems convert elemType data = None.
Proof.
  induction 1 as [x data Hx | x data _ IH]; cbn.
  - destruct x as [x' |]; [| done]. by rewrite (Hx x').
  - destruct x as [x' |]; [| done]. destruct (convert x' elemType); [| done]. by rewrite IH.
Qed.

Lemma kindOf_Slice_elemOf t : kindOf t = Slice → is_Some (elemOf t).
Proof. induction t; cbn; try discriminate; eauto. Qed.

(** Once both types are known, a panic can only carry the message of the
    deferred function. *)
Lemma convertAndSet_panic_message convert to fromv setMethod toType pv :
  targetType to setMethod = inl toType →
  convertAndSet convert to (Some fromv) setMethod = panicked pv →
  pv = byBridge (cannotUse (typeOf fromv) toType).
Proof.
  intros Ht. unfold convertAndSet. rewrite Ht.
  destruct (converted convert fromv (typeOf fromv) toType) as [v | pv'].
  - destruct (assign to setMethod v); [discriminate | discriminate |]. by intros [= <-].
  - by intros [= <-].
Qed.
(** ** Reasoning with pre- and postconditions *)

Lemma bind_return {A B} (m : M A) (k : A → M B) σ a σ' :
  m σ = Return a σ' → bind m k σ = k a σ'.
Proof. intros Hm. unfold bind. by rewrite Hm. Qed.

Lemma bind_panicked {A B} (m : M A) (k : A → M B) σ msg σ' :
  m σ = Panicked msg σ' → bind m k σ = Panicked msg σ'.
Proof. intros Hm. unfold bind. by rewrite Hm. Qed.

Lemma triple_bind {A B} P (m : M A) (k : A → M B) R R' X :
  triple P m R X → (∀ a, triple (R a) (k a) R' X) → triple P (bind m k) R' X.
Proof.
  intros Hm Hk σ Hσ. unfold bind. specialize (Hm σ Hσ).
  destruct (m σ) as [a σ' | |]; [| done | done]. by apply Hk.
Qed.

Lemma triple_weaken {A} (P P' : state → Prop) (m : M A) (R R' : A → state → Prop) X :
  (∀ σ, P' σ → P σ) → (∀ a σ, R a σ → R' a σ) → triple P m R X → triple P' m R' X.
Proof.
  intros HP HR Hm σ Hσ. specialize (Hm σ (HP σ Hσ)).
  destruct (m σ) as [a σ' | |]; [| done | done]. by apply HR.
Qed.

Lemma triple_conseq {A} (P P' : state → Prop) (m : M A) (R R' : A → state → Prop)
    (X X' : state → Prop) :
  (∀ σ, P' σ → P σ) → (∀ a σ, R a σ → R' a σ) → (∀ σ, X σ → X' σ) →
  triple P m R X → triple P' m R' X'.
Proof.
  intros HP HR HX Hm σ Hσ. specialize (Hm σ (HP σ Hσ)).
  destruct (m σ) as [a σ' | |]; [by apply HR | by apply HX | by apply HX].
Qed.

Lemma triple_pure {A} (φ : Prop) P (m : M A) R X :
  (φ → triple P m R X) → triple (λ σ, P σ ∧ φ) m R X.
Proof. intros Hm σ [Hσ Hφ]. by apply Hm. Qed.

Lemma triple_ret {A} (a : A) P X : triple P (ret a) (λ _, P) X.
Proof. intros σ Hσ. exact Hσ. Qed.

Lemma triple_panic {A} msg P (R : A → state → Prop) : triple P (panic msg) R P.
Proof. intros σ Hσ. exact Hσ. Qed.

Lemma triple_gets {A} (g : state → A) P X : triple P (gets g) (λ _, P) X.
Proof. intros σ Hσ. exact Hσ. Qed.

Lemma triple_modify g P P' X : (∀ σ, P σ → P' (g σ)) → triple P (modify g) (λ _, P') X.
Proof. intros Hg σ Hσ. exact (Hg σ Hσ). Qed.

Lemma triple_load_fold p P :
  triple P (load_fold p) (λ F σ, P σ ∧ heap σ !! p = Some F) P.
Proof.
  intros σ Hσ. unfold load_fold. destruct (heap σ !! p) as [F |] eqn:HF; cbn; [| done].
  by split.
Qed.

Lemma triple_load_engine e P :
  triple P (load_engine e) (λ E σ, P σ ∧ eheap σ !! e = Some E) P.
Proof.
  intros σ Hσ. unfold load_engine. destruct (eheap σ !! e) as [E |] eqn:HE; cbn; [| done].
  by split.
Qed.

Lemma triple_update_fold p g P P' :
  (∀ σ F, P σ → heap σ !! p = Some F → P' (set_heap (alter g p (heap σ)) σ)) →
  triple P (update_fold p g) (λ _, P') P.
Proof.
  intros Hg σ Hσ. unfold update_fold, bind, load_fold, modify.
  destruct (heap σ !! p) as [F |] eqn:HF; cbn; [| done]. by apply (Hg σ F).
Qed.

Lemma triple_update_engine e g P P' :
  (∀ σ, P σ → P' (set_eheap (alter g e (eheap σ)) σ)) →
  triple P (update_engine e g) (λ _, P') P.
Proof.
  intros Hg σ Hσ. unfold update_engine, bind, load_engine, modify.
  destruct (eheap σ !! e); cbn; [| done]. by apply Hg.
Qed.

Lemma triple_lastFold fuel p P : triple P (lastFold fuel p) (λ _, P) P.
Proof.
  revert p. induction fuel as [| fuel IH]; intros p σ Hσ; cbn;
    unfold bind, load_fold, ret; destruct (heap σ !! p) as [F |]; try done;
    destruct (next F); try done.
  by apply IH.
Qed.

Lemma triple_delete_typeNew p msg P :
  (∀ σ, P σ → P (set_typeNew (typeNew σ ∖ {[p]}) σ)) →
  triple P (delete_typeNew p msg) (λ _, P) P.
Proof.
  intros Hd σ Hσ. unfold delete_typeNew, bind, gets, modify, panic, ret. cbn.
  destruct (decide _); by apply Hd.
Qed.

(** *** What no operation does to a fold *)

Lemma sameFold_start f F σ : heap σ !! f = Some F → sameFold f F σ.
Proof. intros HF. exists F. by repeat split. Qed.

Lemma sameFold_frame f F σ σ' :
  sameFold f F σ → heap σ' !! f = heap σ !! f → sameFold f F σ'.
Proof. intros (F' & HF' & ?) Heq. exists F'. by rewrite Heq. Qed.

Lemma sameFold_relink f F σ p g :
  relinks g → sameFold f F σ → sameFold f F (set_heap (alter g p (heap σ)) σ).
Proof.
  intros Hg (F' & HF' & Hv & Hc & Hi & Ho & He).
  destruct (decide (p = f)) as [-> | Hne].
  - destruct (Hg F') as (? & ? & ? & ? & ?).
    exists (g F'). cbn. rewrite lookup_alter_eq, HF'. cbn.
    split; [done |]. repeat split; try congruence. intros HF. rewrite <- (He HF). done.
  - exists F'. cbn. by rewrite lookup_alter_ne.
Qed.

Lemma sameFold_other f F σ p g :
  p ≠ f → sameFold f F σ → sameFold f F (set_heap (alter g p (heap σ)) σ).
Proof.
  intros Hne HS. apply (sameFold_frame f F σ); [done |]. cbn. by rewrite lookup_alter_ne.
Qed.

Lemma sameFold_fresh f F σ G :
  sameFold f F σ →
  sameFold f F (set_heap (<[fresh (dom (heap σ)) := G]> (heap σ)) σ)
  ∧ fresh (dom (heap σ)) ≠ f.
Proof.
  intros HS. assert (Hne : fresh (dom (heap σ)) ≠ f).
  { intros Heq. destruct HS as (F' & HF' & _).
    pose proof (fresh_fold_None σ) as Hn. rewrite Heq in Hn. congruence. }
  split; [| done]. apply (sameFold_frame f F σ); [done |]. cbn. by rewrite lookup_insert_ne.
Qed.

(** The first engine of a fold. *)
Lemma sameFold_engine f F σ p F0 e :
  heap σ !! p = Some F0 → engine F0 = None → sameFold f F σ →
  sameFold f F (set_heap (alter (with_engine (Some e)) p (heap σ)) σ).
Proof.
  intros HF0 He0 (F' & HF' & Hv & Hc & Hi & Ho & He).
  destruct (decide (p = f)) as [-> | Hne].
  - assert (F0 = F') by congruence. subst F0.
    exists (with_engine (Some e) F'). cbn. rewrite lookup_alter_eq, HF'. cbn.
    split; [done |]. repeat split; try done.
    intros HF. rewrite (He HF) in He0. destruct HF as [? HF]. congruence.
  - exists F'. cbn. by rewrite lookup_alter_ne.
Qed.

Lemma relinks_with_prev q : relinks (with_prev q).
Proof. by intros []. Qed.
Lemma relinks_with_next q : relinks (with_next q).
Proof. by intros []. Qed.

Ltac same_step :=
  first
    [ apply triple_ret
    | apply triple_panic
    | apply triple_gets
    | apply triple_lastFold
    | apply triple_modify; intros ? ?; assumption
    | apply triple_update_engine; intros ? ?; assumption
    | apply triple_delete_typeNew; intros ? ?; assumption
    | apply triple_update_fold; intros ? ? ? ?;
      first [ apply sameFold_relink; [apply relinks_with_prev | assumption]
            | apply sameFold_relink; [apply relinks_with_next | assumption] ] ].

Lemma same_call f F ev : triple (sameFold f F) (call ev) (λ _, sameFold f F) (sameFold f F).
Proof. apply triple_modify. by intros σ HS. Qed.

Lemma same_stats f F delta p :
  triple (sameFold f F) (stats_valuesAlive delta p) (λ _, sameFold f F) (sameFold f F).
Proof. apply triple_modify. by intros σ HS. Qed.

Lemma same_load_fold f F p :
  triple (sameFold f F) (load_fold p) (λ _, sameFold f F) (sameFold f F).
Proof.
  eapply triple_weaken; [| | apply triple_load_fold]; [done |]. by intros a σ [HS _].
Qed.

Lemma same_load_engine f F e :
  triple (sameFold f F) (load_engine e) (λ _, sameFold f F) (sameFold f F).
Proof.
  eapply triple_weaken; [| | apply triple_load_engine]; [done |]. by intros a σ [HS _].
Qed.

Lemma same_wrapGoValue f F ref cnew e v ow :
  triple (sameFold f F) (wrapGoValue ref cnew e v ow) (λ _, sameFold f F) (sameFold f F).
Proof.
  unfold wrapGoValue.
  destruct (bool_decide (kind v = Struct) && negb (hashable v)); [apply triple_panic |].
  destruct (bool_decide (kind v = Ptr) && bool_decide (elemKind v = Ptr)); [apply triple_panic |].
  eapply triple_bind; [apply triple_gets |]. intros paintRef.
  eapply triple_bind; [apply same_load_engine |]. intros E.
  eapply triple_bind with (R := λ _, sameFold f F).
  { destruct (values E !! v); [| apply triple_ret].
    eapply triple_bind; [apply same_load_fold |]. intros P.
    destruct (_ || _); apply triple_ret. }
  intros [c |]; [apply triple_ret |].
  destruct (bool_decide (ref = paintRef)); [apply triple_panic |].
  eapply triple_bind with (R := λ a σ, sameFold f F σ ∧ a ≠ f).
  { intros σ HS. unfold new_fold. by apply sameFold_fresh. }
  intros a. apply triple_pure. intros Ha.
  eapply triple_bind; [apply same_call |]. intros ?.
  eapply triple_bind with (R := λ _, sameFold f F).
  { apply triple_update_fold. intros σ G HS _. by apply sameFold_other. }
  intros ?. eapply triple_bind with (R := λ _, sameFold f F).
  { destruct (values E !! v).
    - eapply triple_bind with (R := λ _, sameFold f F); [same_step |].
      intros ?. same_step.
    - same_step. }
  intros ?. eapply triple_bind; [apply same_stats |]. intros ?.
  eapply triple_bind; [apply same_call |]. intros ?.
  eapply triple_bind with (R := λ _, sameFold f F); [| intros ?; apply triple_ret].
  destruct (decide (ow = cppOwner)); [apply same_call |].
  destruct (decide (ow = jsOwner)); [apply same_call | apply triple_ret].
Qed.

Lemma same_hookGoValueTypeNew f F a c spec :
  triple (sameFold f F) (hookGoValueTypeNew a c spec) (λ _, sameFold f F) (sameFold f F).
Proof.
  intros σ HS. rewrite typeNew_exec.
  destruct (sameFold_fresh f F σ
              (mkFold None (mkGoValue Ptr (initElemKind spec) true "" a) c
                      (Some (Init spec)) None None jsOwner) HS) as [HS' _].
  exact HS'.
Qed.

Lemma same_hookGoValueDestroyed f F ep p :
  triple (sameFold f F) (hookGoValueDestroyed ep p) (λ _, sameFold f F) (sameFold f F).
Proof.
  unfold hookGoValueDestroyed.
  eapply triple_bind; [apply same_load_fold |]. intros G.
  eapply triple_bind with (R := λ _, sameFold f F); [| intros ?; apply same_stats].
  destruct (engine G) as [e |]; [| same_step].
  eapply triple_bind; [apply same_load_engine |]. intros E.
  eapply triple_bind; [apply triple_gets |]. intros [e' |]; [| apply triple_panic].
  destruct (prev G) as [q |].
  - eapply triple_bind; [apply same_load_fold |]. intros F1.
    eapply triple_bind with (R := λ _, sameFold f F); [same_step |]. intros ?.
    eapply triple_bind; [apply same_load_fold |]. intros F2.
    destruct (next F2); same_step.
  - destruct (next G) as [n |].
    + eapply triple_bind with (R := λ _, sameFold f F); [same_step |]. intros ?.
      eapply triple_bind; [apply same_load_fold |]. intros F2.
      destruct (prev F2); same_step.
    + eapply triple_bind; [apply triple_gets |]. intros before.
      eapply triple_bind with (R := λ _, sameFold f F); [same_step |]. intros ?.
      eapply triple_bind; [apply same_load_engine |]. intros E'.
      destruct (decide _); [apply triple_panic |].
      destruct (_ && _); same_step.
Qed.

Lemma same_ensureEngine f F ep p :
  triple (sameFold f F) (ensureEngine ep p) (λ _, sameFold f F) (sameFold f F).
Proof.
  unfold ensureEngine.
  eapply triple_bind; [apply triple_load_fold |]. intros G.
  destruct (engine G) as [e0 |] eqn:HGe.
  { intros σ [HS _]. exact HS. }
  destruct (decide (ep = nilPtr)).
  { intros σ [HS _]. exact HS. }
  eapply triple_bind with (R := λ _ σ, sameFold f F σ ∧ heap σ !! p = Some G).
  { intros σ HS. exact HS. }
  intros [e |].
  2: { intros σ [HS _]. exact HS. }
  eapply triple_bind with (R := λ _, sameFold f F).
  { intros σ [HS HG]. unfold update_fold, bind, load_fold, modify. rewrite HG.
    by apply (sameFold_engine f F σ p G e). }
  intros ?. eapply triple_bind; [apply same_load_engine |]. intros E.
  eapply triple_bind with (R := λ _, sameFold f F).
  { destruct (values E !! gvalue G) as [r |].
    - eapply triple_bind; [apply triple_gets |]. intros fuel.
      eapply triple_bind; [apply triple_lastFold |]. intros q.
      eapply triple_bind with (R := λ _, sameFold f F); [same_step |].
      intros ?. same_step.
    - same_step. }
  intros ?. eapply triple_bind with (R := λ _, sameFold f F); [same_step |]. intros ?.
  eapply triple_bind; [apply same_load_fold |]. intros F'.
  eapply triple_bind with (R := λ _, sameFold f F); [| intros ?; apply triple_ret].
  destruct (init F'); [apply same_call | apply triple_panic].
Qed.

Lemma same_exec f F o :
  triple (sameFold f F) (exec o) (λ _, sameFold f F) (sameFold f F).
Proof.
  destruct o as [ref cnew e v ow | a c spec | ep p | ep p]; cbn.
  - eapply triple_bind; [apply same_wrapGoValue |]. intros ?. apply triple_ret.
  - eapply triple_bind; [apply same_hookGoValueTypeNew |]. intros ?. apply triple_ret.
  - eapply triple_bind; [apply same_ensureEngine |]. intros ?. apply triple_ret.
  - apply same_hookGoValueDestroyed.
Qed.

Lemma same_run f F ops :
  triple (sameFold f F) (run ops) (λ _, sameFold f F) (sameFold f F).
Proof.
  induction ops as [| o ops IH]; cbn; [apply triple_ret |].
  eapply triple_bind; [apply same_exec |]. intros ?. exact IH.
Qed.
(** ** [hookGoValueDestroyed] called twice *)

Lemma difference_twice (s : gset foldp) p : s ∖ {[p]} ∖ {[p]} = s ∖ {[p]}.
Proof. apply set_eq. intros x. rewrite !elem_of_difference. tauto. Qed.

Lemma size_difference_elem (s : gset foldp) p : p ∈ s → size (s ∖ {[p]}) ≠ size s.
Proof.
  intros Hp. rewrite size_difference by set_solver. rewrite size_singleton.
  assert (size s ≠ 0%nat); [| lia].
  intros Hz. apply size_empty_inv in Hz. set_solver.
Qed.

Lemma destroy_pending_exec ep p F σ :
  heap σ !! p = Some F → engine F = None → p ∈ typeNew σ →
  hookGoValueDestroyed ep p σ
  = Return tt (set_alive (valuesAlive σ + -1) (alive σ ∖ {[p]})
                 (set_typeNew (typeNew σ ∖ {[p]}) σ)).
Proof.
  intros HF He Hp. unfold hookGoValueDestroyed. msimpl. rewrite HF. msimpl. rewrite He. msimpl.
  destruct (decide (size (typeNew σ ∖ {[p]}) = size (typeNew σ))) as [Hsz |].
  { by destruct (size_difference_elem (typeNew σ) p Hp). }
  msimpl. destruct (decide (0 < -1)); [lia | done].
Qed.

Lemma destroy_not_pending_exec ep p F σ :
  heap σ !! p = Some F → engine F = None → p ∉ typeNew σ →
  hookGoValueDestroyed ep p σ
  = Panicked "destroying value without an associated engine; who created the value?" σ.
Proof.
  intros HF He Hp. unfold hookGoValueDestroyed. msimpl. rewrite HF. msimpl. rewrite He. msimpl.
  assert (Hsame : typeNew σ ∖ {[p]} = typeNew σ).
  { apply set_eq. intros x. rewrite elem_of_difference, elem_of_singleton.
    split; [tauto |]. intros Hx. split; [done |]. by intros ->. }
  rewrite Hsame. destruct (decide (size (typeNew σ) = size (typeNew σ))); [| done].
  f_equal. by destruct σ.
Qed.

(** A fold with neither [prev] nor [next] whose value the map holds. *)
Lemma destroy_alone_exec ep p F e E e0 r σ :
  heap σ !! p = Some F → engine F = Some e → prev F = None → next F = None →
  eheap σ !! e = Some E → engines σ !! addr E = Some e0 →
  values E !! gvalue F = Some r →
  let E' := with_values (delete (gvalue F) (values E)) E in
  hookGoValueDestroyed ep p σ
  = Return tt (set_alive (valuesAlive σ + -1) (alive σ ∖ {[p]})
                 (set_engines
                    (if destroyed E && bool_decide (size (values E') = 0%nat)
                     then delete (addr E) (engines σ) else engines σ)
                    (set_eheap (<[e := E']> (eheap σ)) σ))).
Proof.
  intros HF He Hp Hn HE Hreg Hr E'.
  unfold hookGoValueDestroyed. msimpl. rewrite HF. msimpl. rewrite He. msimpl.
  rewrite HE. msimpl. rewrite Hreg, Hp, Hn. msimpl. rewrite HE. msimpl.
  rewrite lookup_alter_eq, HE. msimpl.
  rewrite (alter_insert_cell (eheap σ) e E) by done.
  destruct (decide (size (delete (gvalue F) (values E)) = size (values E))) as [Hsz |].
  { rewrite map_size_delete, Hr in Hsz.
    assert (size (values E) ≠ 0%nat); [| lia].
    intros Hz. apply map_size_empty_inv in Hz. rewrite Hz in Hr. by rewrite lookup_empty in Hr. }
  fold E'. destruct (destroyed E && bool_decide (size (values E') = 0%nat)) eqn:Hd;
    unfold E' in Hd; cbn in Hd; rewrite Hd; msimpl;
    destruct (decide (0 < -1)); try lia; reflexivity.
Qed.

(** The same fold when the map does not hold its value, or the engine
    is not registered: the two assertions of the code. *)
Lemma destroy_alone_panics ep p F e E σ :
  heap σ !! p = Some F → engine F = Some e → prev F = None → next F = None →
  eheap σ !! e = Some E →
  engines σ !! addr E = None ∨ values E !! gvalue F = None →
  ∃ σ', hookGoValueDestroyed ep p σ
        = Panicked (match engines σ !! addr E with
                    | None => "engine " +:+ formatPtr (addr E)
                              +:+ " was released from global list while its values were still alive"
                    | Some _ => "destroying value that knows about the engine, but the engine doesn't know about the value; who cleared the engine?"
                    end) σ'
    ∧ heap σ' = heap σ ∧ valuesAlive σ' = valuesAlive σ.
Proof.
  intros HF He Hp Hn HE Hor.
  unfold hookGoValueDestroyed. msimpl. rewrite HF. msimpl. rewrite He. msimpl.
  rewrite HE. msimpl.
  destruct (engines σ !! addr E) as [e0 |] eqn:Hreg; [| by eexists].
  destruct Hor as [? | Hr]; [done |].
  rewrite Hp, Hn. msimpl. rewrite HE. msimpl. rewrite lookup_alter_eq, HE. msimpl.
  rewrite delete_id by done.
  destruct (decide (size (values E) = size (values E))); [| done].
  by eexists.
Qed.

(** A fold with a predecessor. *)
Lemma destroy_with_prev_exec ep p F q Q e E e0 σ :
  heap σ !! p = Some F → engine F = Some e → prev F = Some q → q ≠ p →
  heap σ !! q = Some Q →
  (∀ n, next F = Some n → n ≠ p ∧ is_Some (heap σ !! n)) →
  eheap σ !! e = Some E → engines σ !! addr E = Some e0 →
  hookGoValueDestroyed ep p σ
  = Return tt (set_alive (valuesAlive σ + -1) (alive σ ∖ {[p]})
                 (set_heap (unlinkFold (heap σ) F) σ)).
Proof.
  intros HF He Hp Hqp HQ Hnext HE Hreg.
  unfold hookGoValueDestroyed, unlinkFold. msimpl. rewrite HF. msimpl. rewrite He. msimpl.
  rewrite HE. msimpl. rewrite Hreg, Hp. msimpl. rewrite HF. msimpl. rewrite HQ. msimpl.
  rewrite lookup_alter_ne, HF by done. msimpl.
  destruct (next F) as [n |] eqn:Hn.
  - destruct (Hnext n eq_refl) as [Hnp [N HN]]. msimpl.
    assert (HN' : is_Some (alter (with_next (Some n)) q (heap σ) !! n)).
    { by apply lookup_alter_is_Some. }
    destruct HN' as [N' HN']. rewrite HN'. msimpl. rewrite Hp.
    destruct (decide (0 < -1)); [lia | done].
  - msimpl. destruct (decide (0 < -1)); [lia | done].
Qed.

Lemma unlinkFold_twice σ rank p F :
  wf σ rank → heap σ !! p = Some F →
  unlinkFold (unlinkFold (heap σ) F) F = unlinkFold (heap σ) F.
Proof.
  intros W HF. apply map_eq. intros x.
  set (h1 := unlinkFold (heap σ) F).
  assert (H1 : ∀ y, h1 !! y = relinked F y <$> heap σ !! y).
  { intros y. by apply (unlinkFold_lookup σ rank p). }
  unfold unlinkFold at 1.
  assert (Hdone : ∀ y Y, h1 !! y = Some Y →
            (prev F = Some y → with_next (next F) Y = Y)
            ∧ (next F = Some y → with_prev (prev F) Y = Y)).
  { intros y Y HY. rewrite H1 in HY. destruct (heap σ !! y) as [Y0 |]; [| done].
    injection HY as <-. unfold relinked. split; intros Heq.
    - rewrite (decide_True (P := prev F = Some y)) by done. done.
    - rewrite (decide_True (P := next F = Some y)) by done. done. }
  assert (Hstep : ∀ (g : valueFold → valueFold) y (h : gmap foldp valueFold),
            (∀ Y, h !! y = Some Y → g Y = Y) → alter g y h = h).
  { intros g y h Hg. apply map_eq. intros z. destruct (decide (z = y)) as [-> |].
    - rewrite lookup_alter_eq. destruct (h !! y) as [Y |] eqn:HY; [| done].
      cbn. by rewrite (Hg Y).
    - by rewrite lookup_alter_ne. }
  assert (Hfirst : match prev F with
                   | Some q => alter (with_next (next F)) q h1
                   | None => h1
                   end = h1).
  { destruct (prev F) as [q |] eqn:Hp; [| done].
    apply Hstep. intros Y HY. by apply (Hdone q Y HY). }
  rewrite Hfirst. destruct (next F) as [n |] eqn:Hn; [| done].
  rewrite Hstep; [done |]. intros Y HY. by apply (Hdone n Y HY).
Qed.
(** ** More on the hook and the lock count *)

Lemma wrap32_small z : - 2 ^ 31 ≤ z < 2 ^ 31 → wrap32 z = z.
Proof. intros Hz. unfold wrap32. rewrite Z.mod_small by lia. lia. Qed.

(** How the loop of the hook can end. *)
Lemma serve_ends t q :
  ∀ σ tr,
    match serve t q σ tr with
    | Returns w => (guiLock (mem w) ≤ 0)%Z ∧ guiFunc w = []
    | Blocks w => (guiLock (mem w) > 0)%Z ∧ guiFunc w = []
    | Panics _ w | Loops w => ∃ c g, (c, g) ∈ q ∧ last (trace w) = Some (ran t (label g))
    end.
Proof.
  induction q as [| [c g] q IH]; intros σ tr; cbn.
  - destruct (decide (guiLock σ > 0)); cbn; [done | split; [lia | done]].
  - unfold runClosure. cbn. destruct (body g σ) as [[] σ' | msg σ' | σ'] eqn:Hb.
    + specialize (IH (set_hookWaiting (wrap32 (hookWaiting σ' + -1)) σ')
                     (tr ++ [ran t (label g); finished c (label g)])).
      destruct (serve t q _ _) as [w | w | msg w | w]; [done | done | |].
      * destruct IH as (c' & g' & Hin & Hlast). exists c', g'. split; [by right | done].
      * destruct IH as (c' & g' & Hin & Hlast). exists c', g'. split; [by right | done].
    + exists c, g. split; [left |]. cbn. by rewrite last_snoc.
    + exists c, g. split; [left |]. cbn. by rewrite last_snoc.
Qed.

Lemma session_nil w : session [] w = Returns w.
Proof. done. Qed.

(** Any number of [Lock]s. *)
Lemma session_Locks ref calls n :
  ∀ w, guiFunc w = [] → (0 ≤ guiLock (mem w))%Z → (guiLock (mem w) + Z.of_nat n < 2 ^ 63)%Z →
    ∃ w', session (replicate n (Lock ref) ++ calls) w = session calls w'
          ∧ guiFunc w' = []
          ∧ guiLock (mem w') = guiLock (mem w) + Z.of_nat n
          ∧ guiLoopRef (mem w') = guiLoopRef (mem w).
Proof.
  induction n as [| n IH]; intros w Hq H0 Hmax.
  - exists w. cbn [replicate app]. split; [done |]. split; [done |]. split; [lia | done].
  - cbn [replicate app].
    destruct (session_Lock ref (replicate n (Lock ref) ++ calls) w Hq) as (w1 & Hs & Hq1 & Hl1 & Hr1).
    rewrite wrap64_small in Hl1 by lia.
    destruct (IH w1 Hq1) as (w' & Hs' & Hq' & Hl' & Hr'); [lia | lia |].
    exists w'. split; [by rewrite Hs, Hs' |]. split; [done |]. split; [lia | congruence].
Qed.

(** Any number of [Unlock]s that the count allows. *)
Lemma session_Unlocks ref calls m :
  ∀ w, guiFunc w = [] → (Z.of_nat m ≤ guiLock (mem w) < 2 ^ 63)%Z →
    ∃ w', session (replicate m (Unlock ref) ++ calls) w = session calls w'
          ∧ guiFunc w' = []
          ∧ guiLock (mem w') = guiLock (mem w) - Z.of_nat m
          ∧ guiLoopRef (mem w') = guiLoopRef (mem w).
Proof.
  induction m as [| m IH]; intros w Hq Hc.
  - exists w. cbn [replicate app]. split; [done |]. split; [done |]. split; [lia | done].
  - cbn [replicate app].
    destruct (session_Unlock ref (replicate m (Unlock ref) ++ calls) w Hq)
      as (w1 & Hs & Hq1 & Hl1 & Hr1); [lia |].
    rewrite wrap64_small in Hl1 by lia.
    destruct (IH w1 Hq1) as (w' & Hs' & Hq' & Hl' & Hr'); [lia |].
    exists w'. split; [by rewrite Hs, Hs' |]. split; [done |]. split; [lia | congruence].
Qed.
(** ** The change notifier on a well-formed state *)

Lemma activateChain_forward h v off (l : list foldp) :
  forward h l →
  ∀ fuel i σ, heap σ = h → (length l - i ≤ fuel)%nat →
    activateChain fuel (l !! i) v off σ
    = Return tt (set_log (log σ ++ (signalOf h v off <$> drop i l)) σ).
Proof.
  intros Hl fuel. induction fuel as [| fuel IH]; intros i σ Hh Hfuel.
  - rewrite drop_ge by lia. rewrite (proj2 (lookup_ge_None l i)) by lia.
    cbn. by rewrite app_nil_r, set_log_id.
  - destruct (l !! i) as [p |] eqn:Hi.
    + destruct (Hl i p Hi) as (F & HF & Hn).
      cbn [activateChain]. msimpl. rewrite Hh, HF. msimpl.
      rewrite Hn. rewrite IH by (done || lia). cbn.
      rewrite (drop_S l p i Hi). cbn. unfold signalOf at 2. rewrite HF. cbn.
      by rewrite <- app_assoc.
    + apply lookup_ge_None in Hi. rewrite drop_ge by lia.
      cbn. by rewrite app_nil_r, set_log_id.
Qed.

Lemma wf_set_log σ rank l : wf σ rank → wf (set_log l σ) rank.
Proof. intros W. apply (wf_same_heap σ); cbn; eauto. Qed.

Lemma foldChain_set_log σ l e v : foldChain (set_log l σ) e v = foldChain σ e v.
Proof. done. Qed.

(** The passes over the engines [es] on a well-formed state: the
    signals of the folds met on the walks from the maps, engine after
    engine; nothing else changes; the signals of the pending folds are
    on the stack of deferred calls. *)
Lemma changedLoop_wf rangeTypeNew rank v off (es : list enginep) :
  (∀ i s, rangeTypeNew i s ≡ₚ elements s) →
  ∀ i deferred σ, wf σ rank → (∀ e, e ∈ es → is_Some (eheap σ !! e)) →
    changedLoop es i rangeTypeNew v off deferred σ
    = (loopDeferred rangeTypeNew σ v off i es deferred,
       Return tt (set_log (log σ ++ (es ≫= λ e, signalOf (heap σ) v off <$> foldChain σ e v)) σ)).
Proof.
  intros Hrange. induction es as [| e es IH]; intros i deferred σ W Hvalid.
  - cbn. by rewrite app_nil_r, set_log_id.
  - destruct (Hvalid e ltac:(left)) as [E HE].
    assert (Hfirst : (let* E := load_engine e in
                      let* fuel := gets (λ σ, size (heap σ)) in
                      activateChain fuel (values E !! v) v off) σ
                     = Return tt (set_log (log σ ++ (signalOf (heap σ) v off <$> foldChain σ e v)) σ)).
    { msimpl. rewrite HE. msimpl.
      pose proof (foldChain_wf σ rank e E v W HE) as Hc.
      destruct (values E !! v) as [p |] eqn:Hv.
      - destruct Hc as (l & Hfc & Hl & Hnd & _). rewrite Hfc.
        change (Some p) with ((p :: l) !! 0%nat).
        rewrite (activateChain_forward (heap σ) v off (p :: l) Hl); [done | done |].
        pose proof (forward_length_le _ _ Hnd Hl). lia.
      - rewrite Hc. destruct (size (heap σ)); cbn; by rewrite app_nil_r, set_log_id. }
    cbn [changedLoop]. rewrite Hfirst.
    set (σ1 := set_log _ σ).
    assert (W1 : wf σ1 rank) by (by apply wf_set_log).
    rewrite deferPending_valid.
    2:{ intros p Hp. rewrite Hrange, elem_of_elements in Hp.
        destruct (wf_pending _ _ W1 p Hp) as (F & HF & _). eauto. }
    rewrite (IH (S i) _ σ1 W1) by (intros e' He'; apply Hvalid; by right).
    cbn. rewrite <- app_assoc. f_equal. unfold σ1. apply loopDeferred_log.
Qed.

Lemma loopDeferred_length rangeTypeNew σ v off (es : list enginep) :
  (∀ i s, rangeTypeNew i s ≡ₚ elements s) →
  ∀ i deferred,
    length (loopDeferred rangeTypeNew σ v off i es deferred)
    = (length deferred
       + length es * length (filter (λ p, (gvalue <$> heap σ !! p) = Some v)
                               (elements (typeNew σ))))%nat.
Proof.
  intros Hrange. induction es as [| e es IH]; intros i deferred; cbn; [lia |].
  rewrite IH, length_app, length_rev. unfold pendingSignals. rewrite length_fmap.
  assert (Hlen : length (filter (λ p, (gvalue <$> heap σ !! p) = Some v)
                           (rangeTypeNew i (typeNew σ)))
                 = length (filter (λ p, (gvalue <$> heap σ !! p) = Some v)
                             (elements (typeNew σ)))).
  { apply Permutation_length. by rewrite Hrange. }
  rewrite Hlen. lia.
Qed.

(** What [Changed] does once its checks are passed, on the event-loop
    thread and in a well-formed state. *)
Lemma Changed_wf rangeEngines rangeTypeNew ref w v rank vaddr vsize fsize off :
  (∀ m, rangeEngines m ≡ₚ (map_to_list m).*2) →
  (∀ i s, rangeTypeNew i s ≡ₚ elements s) →
  wf (mem w) rank → ref = guiLoopRef (mem w) →
  fsize ≠ 0 → (0 ≤ off < vsize)%Z → (vsize ≤ 2 ^ 31)%Z →
  Changed rangeEngines rangeTypeNew ref v vaddr vsize (vaddr + off) fsize w
  = Returns
      (mkWorld
         (set_log
            (log (mem w)
             ++ (rangeEngines (engines (mem w)) ≫= λ e,
                   signalOf (heap (mem w)) v off <$> foldChain (mem w) e v)
             ++ loopDeferred rangeTypeNew (mem w) v off 0
                  (rangeEngines (engines (mem w))) [])
            (mem w))
         (guiFunc w) (trace w ++ [ran ref 3%nat; finished ref 3%nat])).
Proof.
  intros Hre Hrt W Href Hfs Hoff Hvs.
  set (σ := mem w) in *. set (es := rangeEngines (engines σ)).
  assert (Hvalid : ∀ e, e ∈ es → is_Some (eheap σ !! e)).
  { intros e He. unfold es in He. rewrite Hre in He. apply registry_elem in He as [a Ha].
    by apply (wf_keyed _ _ W a). }
  assert (Hbody : changedBody rangeEngines rangeTypeNew v off σ
                  = Return tt (set_log (log σ
                      ++ (es ≫= λ e, signalOf (heap σ) v off <$> foldChain σ e v)
                      ++ loopDeferred rangeTypeNew σ v off 0 es []) σ)).
  { unfold changedBody. fold es.
    rewrite (changedLoop_wf rangeTypeNew rank v off es Hrt 0%nat [] σ W Hvalid).
    cbn. by rewrite <- app_assoc. }
  unfold Changed. rewrite decide_False by done.
  replace ((vaddr + off - vaddr) mod 2 ^ 64) with off
    by (rewrite Z.mod_small by lia; lia).
  rewrite (bool_decide_eq_true_2 (0 ≤ off)%Z) by lia.
  rewrite (bool_decide_eq_true_2 (off < vsize)%Z) by lia. cbn [andb negb].
  replace (wrap32 off) with off by (unfold wrap32; rewrite Z.mod_small by lia; lia).
  unfold gui. fold σ. rewrite (bool_decide_eq_true_2 (ref = guiLoopRef σ)) by done.
  cbn [orb]. unfold runClosure. cbn [body label]. fold σ. rewrite Hbody. reflexivity.
Qed.
(** ** Slices and the list hooks *)

Lemma holds_length m s l : holds m s l → length l = len s.
Proof.
  intros (a & Ha & Hcap & Hlen & ->). rewrite length_take, length_drop. lia.
Qed.

Lemma holds_entries m s l : holds m s l → entries m s = l.
Proof. intros (a & Ha & Hcap & Hlen & ->). unfold entries. by rewrite Ha. Qed.

Lemma holds_readAt m s l i : holds m s l → (i < len s)%nat → readAt m s i = l !! i.
Proof.
  intros (a & Ha & Hcap & Hlen & ->) Hi. unfold readAt. rewrite Ha. cbn.
  rewrite lookup_take_lt by done. by rewrite lookup_drop.
Qed.

Lemma take_snoc_app {A} (l r : list A) x : take (S (length l)) (l ++ x :: r) = l ++ [x].
Proof. induction l as [| y l IH]; cbn; [by rewrite take_0 | by rewrite IH]. Qed.

(** [append] on a slice that reads as [l]: the new slice reads as [l]
    with the new entry at its end, the old one still as [l]. *)
Lemma append_holds grow m s l x :
  holds m s l →
  holds (append grow s x m).2 (append grow s x m).1 (l ++ [x])
  ∧ holds (append grow s x m).2 s l
  ∧ fields (append grow s x m).2 = fields m
  ∧ len (append grow s x m).1 = S (len s).
Proof.
  intros Hs. pose proof (holds_length m s l Hs) as Hl.
  pose proof (holds_entries m s l Hs) as He.
  destruct Hs as (a & Ha & Hcap & Hlen & Heq). unfold append.
  destruct (decide (len s < cap s)%nat) as [Hlt | Hge]; cbn.
  - split; [| split; [| done]].
    + exists (<[(off s + len s)%nat := x]> a). cbn. rewrite lookup_alter_eq, Ha. cbn.
      split; [done |]. rewrite length_insert. split; [done |]. split; [lia |].
      rewrite drop_insert_ge by lia. replace (off s + len s - off s)%nat with (len s) by lia.
      rewrite (take_S_r _ _ x).
      * rewrite take_insert_ge by lia. by rewrite Heq.
      * apply list_lookup_insert_eq. rewrite length_drop. lia.
    + exists (<[(off s + len s)%nat := x]> a). cbn. rewrite lookup_alter_eq, Ha. cbn.
      split; [done |]. rewrite length_insert. split; [done |]. split; [done |].
      rewrite drop_insert_ge by lia. replace (off s + len s - off s)%nat with (len s) by lia.
      rewrite take_insert_ge by lia. done.
  - split; [| split; [| done]].
    + eexists. cbn. rewrite lookup_insert_eq. split; [done |].
      rewrite He. rewrite length_app. cbn. rewrite length_replicate.
      split; [lia |]. split; [lia |]. rewrite drop_0, <- Hl. by rewrite take_snoc_app.
    + exists a. cbn. rewrite lookup_insert_ne; [done |].
      intros Heq'. pose proof (is_fresh (dom (arrays m))) as Hf. rewrite Heq' in Hf.
      apply Hf. apply elem_of_dom. eauto.
Qed.

(** What the two reading hooks give on a field whose slice reads as
    [l]. *)
Lemma At_holds σ fold F ri si index m s l :
  heap σ !! fold = Some F → fields m !! (gvalue F, ri) = Some s → holds m s l →
  hookListPropertyAt σ fold ri si index m
  = if decide (0 ≤ index < Z.of_nat (length l))%Z then
      match l !! Z.to_nat index with
      | Some (Some o) => LReturn (objAddr o) m
      | _ => LPanic nilDeref m
      end
    else LPanic indexOutOfRange m.
Proof.
  intros HF Hs Hl. unfold hookListPropertyAt, listSlice. rewrite HF, Hs, Hs.
  rewrite (holds_length m s l Hl).
  destruct (decide (0 ≤ index < Z.of_nat (len s))%Z); [| done].
  rewrite (holds_readAt m s l) by (done || lia). done.
Qed.

Lemma Count_holds σ fold F ri si m s l :
  heap σ !! fold = Some F → fields m !! (gvalue F, ri) = Some s → holds m s l →
  hookListPropertyCount σ fold ri si m = LReturn (wrap32 (Z.of_nat (length l))) m.
Proof.
  intros HF Hs Hl. unfold hookListPropertyCount, listSlice. rewrite HF, Hs, Hs.
  by rewrite (holds_length m s l Hl).
Qed.

Lemma clearEntries_holds m s l :
  holds m s l →
  holds (clearEntries m s) s (replicate (len s) None)
  ∧ holds (clearEntries m s) (mkSlice (arr s) (off s) 0 (cap s)) []
  ∧ dom (arrays (clearEntries m s)) = dom (arrays m).
Proof.
  intros (a & Ha & Hcap & Hlen & Heq). unfold clearEntries.
  split; [| split].
  - eexists. cbn. rewrite lookup_alter_eq, Ha. cbn. split; [done |].
    rewrite length_inserts. split; [done |]. split; [done |].
    apply list_eq. intros j. destruct (decide (j < len s)%nat) as [Hj | Hj].
    + rewrite lookup_replicate_2 by done. rewrite lookup_take_lt by done. rewrite lookup_drop.
      rewrite list_lookup_inserts by (rewrite ?length_replicate; lia).
      replace (off s + j - off s)%nat with j by lia. by rewrite lookup_replicate_2.
    + rewrite (proj1 (lookup_replicate_None _ _ _)) by lia. symmetry.
      apply lookup_take_ge. lia.
  - eexists. cbn. rewrite lookup_alter_eq, Ha. cbn. split; [done |].
    rewrite length_inserts. split; [done |]. split; [lia |]. by rewrite take_0.
  - cbn. apply set_eq. intros x. rewrite !elem_of_dom.
    destruct (decide (x = arr s)) as [-> |].
    + rewrite lookup_alter_eq, Ha. cbn. split; eauto.
    + by rewrite lookup_alter_ne.
Qed.

Lemma holds_fields m s l f : holds m s l → holds (mkLmem (arrays m) f) s l.
Proof. done. Qed.
(** ** The loop over the parameters of a method *)

Section call_method_lemmas.
Context {DV : Type}.
Context (unpackDataValue : DV → option enginep → M (option rvalue)).
Context (packDataValue : rvalue → option enginep → valueOwner → M DV).
Context (convert : rvalue → rtype → rvalue + goPanic).
Context (goSyntax : rvalue → string).
Context (MaxParams : nat).

Lemma unpackParam_decoded e name args i argt p q σ :
  unpackDataValue (args (S i)) e σ = Return (Some p) σ →
  converts convert p argt q → (i < MaxParams)%nat →
  unpackParam unpackDataValue convert goSyntax MaxParams e name args i argt σ = Return q σ.
Proof.
  intros Hu Hc Hi. unfold unpackParam.
  rewrite (bind_return _ _ σ (Some p) σ Hu). unfold converts in Hc.
  destruct (decide (typeOf p = argt)) as [Ht | Ht].
  - subst q. rewrite decide_False by (intros Hn; by apply Hn).
    unfold bind, ret. by rewrite decide_True.
  - rewrite decide_True by done. unfold convertParam. rewrite Hc.
    unfold bind, ret. by rewrite decide_True.
Qed.

Lemma unpackParam_beyond e name args i argt p q σ :
  unpackDataValue (args (S i)) e σ = Return (Some p) σ →
  converts convert p argt q → ¬ (i < MaxParams)%nat →
  unpackParam unpackDataValue convert goSyntax MaxParams e name args i argt σ
  = Panicked indexOutOfRange σ.
Proof.
  intros Hu Hc Hi. unfold unpackParam.
  rewrite (bind_return _ _ σ (Some p) σ Hu). unfold converts in Hc.
  destruct (decide (typeOf p = argt)) as [Ht | Ht].
  - subst q. rewrite decide_False by (intros Hn; by apply Hn).
    unfold bind, ret. by rewrite decide_False.
  - rewrite decide_True by done. unfold convertParam. rewrite Hc.
    unfold bind, ret. by rewrite decide_False.
Qed.

Lemma unpackParam_failed e name args i argt p σ :
  unpackDataValue (args (S i)) e σ = Return (Some p) σ →
  typeOf p ≠ argt →
  unpackParam unpackDataValue convert goSyntax MaxParams e name args i argt σ
  = match convert p argt with
    | inl q => if decide (i < MaxParams)%nat then Return q σ else Panicked indexOutOfRange σ
    | inr (StringPanic s) =>
        if String.prefix convertPrefix s
        then Panicked (cannotConvert goSyntax name i p argt) σ
        else Panicked s σ
    | inr (ErrorPanic text) => Panicked text σ
    end.
Proof.
  intros Hu Ht. unfold unpackParam.
  rewrite (bind_return _ _ σ (Some p) σ Hu).
  rewrite decide_True by done. unfold convertParam.
  destruct (convert p argt) as [q | [s | text]]; [| | done].
  - unfold bind, ret. by destruct (decide (i < MaxParams)%nat).
  - by destruct (String.prefix convertPrefix s).
Qed.

(** The loop when every parameter is decoded. *)
Lemma unpackParams_decoded e name args σ ps argts qs :
  Forall3 (converts convert) ps argts qs →
  ∀ i, (∀ k p, ps !! k = Some p →
          unpackDataValue (args (S (i + k))) e σ = Return (Some p) σ) →
    (i + length ps ≤ MaxParams)%nat →
    unpackParams unpackDataValue convert goSyntax MaxParams e name args i argts σ
    = Return qs σ.
Proof.
  induction 1 as [| p argt q ps argts qs Hc _ IH]; intros i Hu Hmax; [done |].
  cbn [unpackParams length] in *.
  rewrite (bind_return _ _ σ q σ).
  2: { apply (unpackParam_decoded e name args i argt p q σ); [| done | lia].
       specialize (Hu 0%nat p eq_refl). by rewrite Nat.add_0_r in Hu. }
  rewrite (bind_return _ _ σ qs σ); [done |].
  apply IH; [| lia]. intros k p' Hk. specialize (Hu (S k) p' Hk).
  by replace (S i + k)%nat with (i + S k)%nat by lia.
Qed.

(** The loop when the parameter after the decoded ones does not go
    through. *)
Lemma unpackParams_stopped e name args σ ps argts qs argt rest msg :
  Forall3 (converts convert) ps argts qs →
  ∀ i, (∀ k p, ps !! k = Some p →
          unpackDataValue (args (S (i + k))) e σ = Return (Some p) σ) →
    (i + length ps ≤ MaxParams)%nat →
    unpackParam unpackDataValue convert goSyntax MaxParams e name args
      (i + length ps) argt σ = Panicked msg σ →
    unpackParams unpackDataValue convert goSyntax MaxParams e name args i
      (argts ++ argt :: rest) σ
    = Panicked msg σ.
Proof.
  induction 1 as [| p argt0 q ps argts qs Hc _ IH]; intros i Hu Hmax Hfail.
  - cbn [app unpackParams length] in *. rewrite Nat.add_0_r in Hfail.
    by apply bind_panicked.
  - cbn [app unpackParams length] in *.
    rewrite (bind_return _ _ σ q σ).
    2: { apply (unpackParam_decoded e name args i argt0 p q σ); [| done | lia].
         specialize (Hu 0%nat p eq_refl). by rewrite Nat.add_0_r in Hu. }
    apply bind_panicked. apply IH; [| lia |].
    + intros k p' Hk. specialize (Hu (S k) p' Hk).
      by replace (S i + k)%nat with (i + S k)%nat by lia.
    + by replace (S i + length ps)%nat with (i + S (length ps))%nat by lia.
Qed.

(** The hook up to the loop, on a fold that has its engine. *)
Lemma callMethod_resolved methods ep f F e ri args method σ :
  heap σ !! f = Some F → engine F = Some e → methods (gvalue F) ri = Some method →
  hookGoValueCallMethod unpackDataValue packDataValue convert goSyntax MaxParams
    methods ep f ri args σ
  = (let* params := unpackParams unpackDataValue convert goSyntax MaxParams
                      (Some e) (methodName method) args 0 (methodIn method) in
     let* result := methodCall method params in
     packOutcome packDataValue MaxParams (Some e) result) σ.
Proof.
  intros HF He Hm. unfold hookGoValueCallMethod.
  rewrite (bind_return _ _ σ f σ) by (by apply (ensureEngine_resolved ep f F e)).
  rewrite (bind_return _ _ σ F σ) by (unfold load_fold; by rewrite HF).
  rewrite Hm, He. reflexivity.
Qed.

End call_method_lemmas.

(** * The value-fold registry: reuse, rejection and chains *)

(** C1 (as amended).  For a value that passes the admission checks of
    [wrapGoValue] and already has a fold in the engine's value map, the
    call hands back the existing fold's native handle and leaves the
    state untouched (no fold, no native handle allocated) if and only if
    the existing fold's ownership equals the requested one, or the
    request is not native-owned, or the calling thread is the one
    painting; in every other case a new fold with a new native handle is
    created and returned. *)
Theorem wrap_existing_fold_policy ref cnew e E v ow p P σ :
  admitted v = true →
  eheap σ !! e = Some E → values E !! v = Some p → heap σ !! p = Some P →
  (wrapGoValue ref cnew e v ow σ = Return (cvalue P) σ ↔ reuses σ ref P ow)
  ∧ (¬ reuses σ ref P ow →
     ∃ σ' f, wrapGoValue ref cnew e v ow σ = Return cnew σ'
       ∧ heap σ !! f = None
       ∧ heap σ' !! f = Some (mkFold (Some e) v cnew None (Some p) None ow)
       ∧ alive σ' = alive σ ∪ {[f]}
       ∧ log σ' = log σ ++ [newGoValue f v (addr E) cnew;
                            engineSetContextForObject (addr E) cnew;
                            engineSetOwnershipCPP (addr E) cnew]).
Proof.
  intros Hadm HE Hv HP.
  assert (Hnew : ¬ reuses σ ref P ow →
     ∃ σ' f, wrapGoValue ref cnew e v ow σ = Return cnew σ'
       ∧ heap σ !! f = None
       ∧ heap σ' !! f = Some (mkFold (Some e) v cnew None (Some p) None ow)
       ∧ alive σ' = alive σ ∪ {[f]}
       ∧ log σ' = log σ ++ [newGoValue f v (addr E) cnew;
                            engineSetContextForObject (addr E) cnew;
                            engineSetOwnershipCPP (addr E) cnew]).
  { intros Hr.
    destruct (wrap_alias ref cnew e E v ow p P σ Hadm HE Hv HP Hr)
      as (σ' & Hrun & Hf & _ & _ & _ & _ & _ & Hal & _ & Hlog).
    exists σ', (fresh (dom (heap σ))). repeat split; try done. apply fresh_fold_None. }
  split; [| exact Hnew]. split.
  - intros Hrun. destruct (decide (reuses σ ref P ow)) as [| Hr]; [done |].
    destruct (Hnew Hr) as (σ' & f & Hrun' & Hnone & Hsome & _).
    rewrite Hrun in Hrun'. injection Hrun' as _ <-. congruence.
  - intros Hr. by apply (wrap_reuse ref cnew e E v ow p P σ).
Qed.

Lemma wrap_existing_fold_policy_witness :
  ∃ σ', wrapGoValue 1 12%N 0%nat structPtr cppOwner
          (final (run [Wrap 1 11%N 0%nat structPtr jsOwner] oneEngine)) = Return 12%N σ'.
Proof.
  destruct (wrap_existing_fold_policy 1 12%N 0%nat
              (mkEngine 7%N {[ structPtr := 0%nat ]} false) structPtr cppOwner 0%nat
              (mkFold (Some 0%nat) structPtr 11%N None None None jsOwner)
              (final (run [Wrap 1 11%N 0%nat structPtr jsOwner] oneEngine)))
    as [_ Hnew]; try (vm_compute; reflexivity).
  destruct Hnew as (σ' & f & Hrun & _).
  - unfold reuses. vm_compute. intros [H | [H | H]]; try discriminate. by apply H.
  - by exists σ'.
Defined.

(** C1 as stated fails: a pointer to a pointer that already has a fold in
    the value map, wrapped again with the fold's own ownership, is not
    handed back; the call panics. *)
Lemma wrap_existing_pointer_of_pointer_panics :
  ∃ E P, eheap resolvedPtrPtr !! 0%nat = Some E
    ∧ values E !! ptrPtr = Some 0%nat
    ∧ heap resolvedPtrPtr !! 0%nat = Some P
    ∧ reuses resolvedPtrPtr 1 P jsOwner
    ∧ wrapGoValue 1 22%N 0%nat ptrPtr jsOwner resolvedPtrPtr =
      Panicked "cannot hand pointer of pointer to QML logic; use a simple pointer instead"
               resolvedPtrPtr
    ∧ wrapGoValue 1 22%N 0%nat ptrPtr jsOwner resolvedPtrPtr ≠ Return (cvalue P) resolvedPtrPtr.
Proof.
  exists (mkEngine 7%N {[ ptrPtr := 0%nat ]} false),
         (mkFold (Some 0%nat) ptrPtr 21%N (Some 5%nat) None None jsOwner).
  split; [vm_compute; reflexivity |]. split; [vm_compute; reflexivity |].
  split; [vm_compute; reflexivity |]. split; [by left |].
  rewrite wrap_pointer_of_pointer by done. split; [done | discriminate].
Qed.

(** C6.  [wrapGoValue] panics, leaving the state as it found it (so no
    fold is created), when the value is a struct that is not hashable,
    when it is a pointer to a pointer, and when the calling thread is
    painting and no existing fold can be handed back. *)
Theorem wrap_rejects ref cnew e v ow σ :
  (kind v = Struct ∧ hashable v = false)
  ∨ (kind v = Ptr ∧ elemKind v = Ptr)
  ∨ (ref = guiPaintRef σ
     ∧ ∀ E p P, eheap σ !! e = Some E → values E !! v = Some p →
                heap σ !! p = Some P → ¬ reuses σ ref P ow) →
  ∃ msg, wrapGoValue ref cnew e v ow σ = Panicked msg σ.
Proof.
  intros [[Hk Hh] | [[Hk He] | [Hp Hno]]].
  - rewrite wrap_unhashable_struct by done. eauto.
  - rewrite wrap_pointer_of_pointer by done. eauto.
  - by apply wrap_painting_panics.
Qed.

Lemma wrap_rejects_witness :
  (∃ msg, wrapGoValue 1 11%N 0%nat (mkGoValue Struct Invalid false "Point" 3) jsOwner oneEngine
          = Panicked msg oneEngine)
  ∧ (∃ msg, wrapGoValue 1 11%N 0%nat ptrPtr jsOwner oneEngine = Panicked msg oneEngine)
  ∧ (∃ msg, wrapGoValue 9 11%N 0%nat structPtr jsOwner (set_guiPaintRef 9 oneEngine)
            = Panicked msg (set_guiPaintRef 9 oneEngine)).
Proof.
  split; [| split].
  - apply wrap_rejects. left. split; reflexivity.
  - apply wrap_rejects. right. left. split; reflexivity.
  - apply wrap_rejects. right. right. split; [reflexivity |].
    intros E p P HE Hv. vm_compute in HE. injection HE as <-.
    vm_compute in Hv. discriminate.
Defined.

(** C2, evaluated where it fails.  After a value is wrapped once
    script-owned and twice native-owned, every call returns, the chain of
    the value walked from the root in the engine's map is [0; 2], and
    fold 1, alive, for the same value and engine, is not on it: the third
    call linked its fold after the root (whose [next] it overwrote)
    instead of after the tail.  The state is not consistent. *)
Theorem wrap_links_after_root_not_tail :
  let σ2 := final (run (take 2 aliasTwice) oneEngine) in
  let σ3 := final (run aliasTwice oneEngine) in
  returned (run aliasTwice oneEngine) = true
  ∧ foldChain σ2 0%nat structPtr = [0; 1]%nat
  ∧ foldChain σ3 0%nat structPtr = [0; 2]%nat
  ∧ 1%nat ∈ alive σ3
  ∧ heap σ3 !! 1%nat = Some (mkFold (Some 0%nat) structPtr 12%N None (Some 0%nat) None cppOwner)
  ∧ next <$> heap σ3 !! 0%nat = Some (Some 2%nat)
  ∧ ¬ consistent σ3.
Proof.
  intros σ2 σ3. unfold σ2. clear σ2.
  assert (Hchain : foldChain σ3 0%nat structPtr = [0; 2]%nat) by (vm_compute; reflexivity).
  assert (Halive : 1%nat ∈ alive σ3) by (apply (bool_decide_unpack _); vm_compute; exact I).
  assert (Hfold : heap σ3 !! 1%nat
                  = Some (mkFold (Some 0%nat) structPtr 12%N None (Some 0%nat) None cppOwner))
    by (vm_compute; reflexivity).
  split; [vm_compute; reflexivity |]. split; [vm_compute; reflexivity |].
  split; [done |]. split; [done |]. split; [done |]. split; [vm_compute; reflexivity |].
  intros [ch R].
  apply (repr_alive _ _ R) in Halive as [Hp | (e & v & Hin)].
  - destruct (repr_pending _ _ R _ Hp) as (F & HF & He & _).
    assert (HF' : Some F = Some (mkFold (Some 0%nat) structPtr 12%N None (Some 0%nat) None cppOwner))
      by (rewrite <- HF; exact Hfold).
    injection HF' as ->. discriminate.
  - destruct (linked_lookup _ _ _ _ _ (repr_linked _ _ R e v) Hin) as (F & HF & He & Hv).
    assert (HF' : Some F = Some (mkFold (Some 0%nat) structPtr 12%N None (Some 0%nat) None cppOwner))
      by (rewrite <- HF; exact Hfold).
    injection HF' as ->. cbn in He, Hv. injection He as <-. subst v.
    rewrite <- (foldChain_repr _ _ _ _ R), Hchain in Hin.
    apply elem_of_cons in Hin as [? | Hin]; [done |].
    apply elem_of_cons in Hin as [? | Hin]; [done |]. by apply elem_of_nil in Hin.
Qed.


(** X8.  Destruction on a consistent state.  Destroying, in any order, the
    live folds of an engine whose [destroyed] flag is set succeeds; the
    engine is still in [engines] after every proper prefix and is gone
    from it once the last fold is destroyed.  Destroying any one fold of
    a chain leaves a consistent state in which the chain is the old one
    without that fold: the predecessor's [next] is the successor, the
    successor's [prev] the predecessor, and the engine's map holds the
    new root. *)
Theorem destroy_bookkeeping σ ep :
  consistent σ →
  (∀ e E l, eheap σ !! e = Some E → destroyed E = true →
     l ≡ₚ elements (engineFolds σ e) → l ≠ [] →
     ∀ k, (k ≤ length l)%nat →
       ∃ σk, run (Destroy ep <$> take k l) σ = Return tt σk
             ∧ engines σk !! addr E = if decide (k = length l) then None else Some e)
  ∧ (∀ e v l1 p l2, foldChain σ e v = l1 ++ p :: l2 →
       ∃ σ', hookGoValueDestroyed ep p σ = Return tt σ'
         ∧ consistent σ'
         ∧ foldChain σ' e v = l1 ++ l2
         ∧ (∀ q, last l1 = Some q → next <$> heap σ' !! q = Some (head l2))
         ∧ (∀ n, head l2 = Some n → prev <$> heap σ' !! n = Some (last l1))
         ∧ (∀ E', eheap σ' !! e = Some E' → values E' !! v = head (l1 ++ l2))
         ∧ alive σ' = alive σ ∖ {[p]}).
Proof.
  intros [ch R]. split.
  - intros e E l HE Hd Hperm Hne k Hk.
    apply (destroy_all_steps ep e l σ ch E); try done.
    + rewrite Hperm. apply NoDup_elements.
    + intros p. rewrite Hperm, elem_of_elements. by apply engineFolds_repr.
  - intros e v l1 p l2 Hch. rewrite (foldChain_repr _ _ _ _ R) in Hch.
    destruct (destroy_chained σ ch ep e v l1 p l2 R Hch)
      as (σ' & Hrun & R' & Hq & Hn & Hroot & Hal).
    exists σ'. split; [done |]. split; [by eexists |].
    split; [| done].
    rewrite (foldChain_repr _ _ _ _ R'). by rewrite setChain_eq.
Qed.

(** C5, evaluated where it fails.  The engine of the value wrapped three
    times is torn down, then its second alias and its root are
    destroyed: both calls return and the engine is gone from [engines],
    although the third fold of the engine is still alive; destroying
    that fold then panics, the engine having been released while its
    values were still alive. *)
Theorem engine_released_before_last_fold :
  returned (run aliasTwice oneEngine) = true
  ∧ elements (engineFolds tornDown 0%nat) = [2; 1; 0]%nat
  ∧ engines tornDown !! 7%N = Some 0%nat
  ∧ returned (run [Destroy 7%N 1%nat; Destroy 7%N 0%nat] tornDown) = true
  ∧ engines twoDestroyed !! 7%N = None
  ∧ elements (engineFolds twoDestroyed 0%nat) = [2%nat]
  ∧ hookGoValueDestroyed 7%N 2%nat twoDestroyed
    = Panicked "engine 0x7 was released from global list while its values were still alive"
               twoDestroyed.
Proof. repeat split; vm_compute; reflexivity. Qed.

(** * The dispatcher and the lock *)

(** C7.  From a lock count [c] that is not negative: after
    [Lock(); Lock(); Unlock()] the count is [c + 1], positive, and the
    hook does not return to the event loop (it stays in its blocking
    receive).  From a count of zero, one more [Unlock()] brings the count
    to zero and lets the hook return, and the [Unlock()] after that
    panics with the count still zero; so does any [Unlock()] at count
    zero. *)
Theorem lock_is_reentrant ref w :
  guiFunc w = [] → 0 ≤ guiLock (mem w) < 2 ^ 63 - 2 →
  (∃ w3, session [Lock ref; Lock ref; Unlock ref] w = Returns w3
     ∧ guiLock (mem w3) = guiLock (mem w) + 1 ∧ guiLock (mem w3) > 0
     ∧ ∃ w', hookIdleTimer (guiLoopRef (mem w3)) w3 = Blocks w')
  ∧ (guiLock (mem w) = 0 →
     ∃ w4, session [Lock ref; Lock ref; Unlock ref; Unlock ref] w = Returns w4
       ∧ guiLock (mem w4) = 0
       ∧ (∃ w', hookIdleTimer (guiLoopRef (mem w4)) w4 = Returns w')
       ∧ ∃ w5, session [Lock ref; Lock ref; Unlock ref; Unlock ref; Unlock ref] w
               = Panics "qml.Unlock called without lock being held" w5
               ∧ guiLock (mem w5) = 0)
  ∧ (guiLock (mem w) = 0 →
     ∃ w', session [Unlock ref] w = Panics "qml.Unlock called without lock being held" w'
           ∧ guiLock (mem w') = 0).
Proof.
  intros Hq Hc.
  destruct (session_Lock ref [Lock ref; Unlock ref] w Hq) as (w1 & Hs1 & Hq1 & Hl1 & Hr1).
  destruct (session_Lock ref [Unlock ref] w1 Hq1) as (w2 & Hs2 & Hq2 & Hl2 & Hr2).
  rewrite wrap64_small in Hl1 by lia. rewrite Hl1, wrap64_small in Hl2 by lia.
  destruct (session_Unlock ref [] w2 Hq2) as (w3 & Hs3 & Hq3 & Hl3 & Hr3); [lia |].
  rewrite Hl2, wrap64_small in Hl3 by lia.
  split; [| split].
  - exists w3. split; [by rewrite Hs1, Hs2, Hs3 |]. split; [lia |]. split; [lia |].
    rewrite hookIdleTimer_idle by done. destruct (decide (guiLock (mem w3) > 0)); [eauto | lia].
  - intros Hz.
    destruct (session_Lock ref [Lock ref; Unlock ref; Unlock ref] w Hq) as (v1 & Ht1 & Hv1 & Hm1 & _).
    destruct (session_Lock ref [Unlock ref; Unlock ref] v1 Hv1) as (v2 & Ht2 & Hv2 & Hm2 & _).
    rewrite wrap64_small in Hm1 by lia. rewrite Hm1, wrap64_small in Hm2 by lia.
    destruct (session_Unlock ref [Unlock ref] v2 Hv2) as (v3 & Ht3 & Hv3 & Hm3 & _); [lia |].
    rewrite Hm2, wrap64_small in Hm3 by lia.
    destruct (session_Unlock ref [] v3 Hv3) as (v4 & Ht4 & Hv4 & Hm4 & _); [lia |].
    rewrite Hm3, wrap64_small in Hm4 by lia.
    exists v4. split; [by rewrite Ht1, Ht2, Ht3, Ht4 |]. split; [lia |]. split.
    + rewrite hookIdleTimer_idle by done. destruct (decide (guiLock (mem v4) > 0)); [lia | eauto].
    + destruct (session_Lock ref [Lock ref; Unlock ref; Unlock ref; Unlock ref] w Hq)
        as (u1 & Hu1 & Hp1 & Hn1 & _).
      destruct (session_Lock ref [Unlock ref; Unlock ref; Unlock ref] u1 Hp1)
        as (u2 & Hu2 & Hp2 & Hn2 & _).
      rewrite wrap64_small in Hn1 by lia. rewrite Hn1, wrap64_small in Hn2 by lia.
      destruct (session_Unlock ref [Unlock ref; Unlock ref] u2 Hp2)
        as (u3 & Hu3 & Hp3 & Hn3 & _); [lia |].
      rewrite Hn2, wrap64_small in Hn3 by lia.
      destruct (session_Unlock ref [Unlock ref] u3 Hp3) as (u4 & Hu4 & Hp4 & Hn4 & _); [lia |].
      rewrite Hn3, wrap64_small in Hn4 by lia.
      destruct (session_Unlock_zero ref [] u4 Hp4) as (u5 & Hu5 & Hn5); [lia |].
      exists u5. split; [by rewrite Hu1, Hu2, Hu3, Hu4, Hu5 | done].
  - intros Hz. by apply session_Unlock_zero.
Qed.

Lemma lock_is_reentrant_witness :
  ∃ w3, session [Lock 5; Lock 5; Unlock 5] (mkWorld oneEngine [] []) = Returns w3
        ∧ guiLock (mem w3) > 0.
Proof.
  destruct (lock_is_reentrant 5 (mkWorld oneEngine [] [])) as [(w3 & Hs & _ & Hpos & _) _].
  - reflexivity.
  - vm_compute. split; [discriminate | reflexivity].
  - exists w3. split; [exact Hs | exact Hpos].
Defined.




(** * The change notifier *)

(** The notifier on a consistent state.  [Changed] called on the
    event-loop thread for a field at offset [off] inside the value, where
    the value has a single fold in each of two registered engines and
    none in any other: the call returns; it first emits two signals, one
    for the native handle of each of the two folds, each with the offset
    [off]; the signals of the pending folds that hold the value come
    after them, at the end of the call; with no such pending fold the two
    signals are all that is emitted. *)
Theorem changed_signals_two_aliases rangeEngines rangeTypeNew ref w v
    a1 a2 e1 e2 f1 f2 vaddr vsize fsize off :
  (∀ m, rangeEngines m ≡ₚ (map_to_list m).*2) →
  (∀ i s, rangeTypeNew i s ≡ₚ elements s) →
  consistent (mem w) → ref = guiLoopRef (mem w) →
  engines (mem w) !! a1 = Some e1 → engines (mem w) !! a2 = Some e2 → e1 ≠ e2 →
  foldChain (mem w) e1 v = [f1] → foldChain (mem w) e2 v = [f2] →
  (∀ a e, engines (mem w) !! a = Some e → e ≠ e1 → e ≠ e2 → foldChain (mem w) e v = []) →
  fsize ≠ 0 → (0 ≤ off < vsize)%Z → (vsize ≤ 2 ^ 31)%Z →
  ∃ w' F1 F2 immediate deferred,
    Changed rangeEngines rangeTypeNew ref v vaddr vsize (vaddr + off) fsize w = Returns w'
    ∧ heap (mem w) !! f1 = Some F1 ∧ heap (mem w) !! f2 = Some F2
    ∧ log (mem w') = log (mem w) ++ immediate ++ deferred
    ∧ immediate ≡ₚ [goValueActivate (cvalue F1) v off; goValueActivate (cvalue F2) v off]
    ∧ (∀ ev, ev ∈ deferred ↔
         ∃ p, p ∈ typeNew (mem w) ∧ (gvalue <$> heap (mem w) !! p) = Some v
              ∧ ev = signalOf (heap (mem w)) v off p)
    ∧ ((∀ p, p ∈ typeNew (mem w) → (gvalue <$> heap (mem w) !! p) ≠ Some v) →
       deferred = []).
Proof.
  intros Hre Hrt [ch R] Href Ha1 Ha2 Hne Hc1 Hc2 Hrest Hfs Hoff Hvs.
  set (σ := mem w) in *. set (es := rangeEngines (engines σ)).
  rewrite (foldChain_repr _ _ _ _ R) in Hc1. rewrite (foldChain_repr _ _ _ _ R) in Hc2.
  assert (Hvalid : ∀ e, e ∈ es → is_Some (eheap σ !! e)).
  { intros e He. unfold es in He. rewrite Hre in He. apply registry_elem in He as [a Ha].
    destruct (repr_keyed _ _ R a e Ha) as (E & HE & _). eauto. }
  assert (Hin1 : e1 ∈ es) by (unfold es; rewrite Hre; apply registry_elem; eauto).
  assert (Hin2 : e2 ∈ es) by (unfold es; rewrite Hre; apply registry_elem; eauto).
  assert (Hnd : NoDup es) by (unfold es; rewrite Hre; by eapply registry_NoDup).
  destruct (linked_lookup _ _ _ _ f1 (repr_linked _ _ R e1 v)) as (F1 & HF1 & _);
    [rewrite Hc1; left |].
  destruct (linked_lookup _ _ _ _ f2 (repr_linked _ _ R e2 v)) as (F2 & HF2 & _);
    [rewrite Hc2; left |].
  set (immediate := es ≫= λ e, signalOf (heap σ) v off <$> ch e v).
  set (deferred := loopDeferred rangeTypeNew σ v off 0 es []).
  assert (Hbody : changedBody rangeEngines rangeTypeNew v off σ
                  = Return tt (set_log (log σ ++ immediate ++ deferred) σ)).
  { unfold changedBody. fold es.
    rewrite (changedLoop_repr rangeTypeNew ch v off es Hrt 0%nat [] σ R Hvalid).
    cbn. by rewrite <- app_assoc. }
  eexists _, F1, F2, immediate, deferred.
  split; [| split; [exact HF1 | split; [exact HF2 |]]].
  - unfold Changed. rewrite decide_False by done.
    replace ((vaddr + off - vaddr) mod 2 ^ 64) with off
      by (rewrite Z.mod_small by lia; lia).
    rewrite (bool_decide_eq_true_2 (0 ≤ off)%Z) by lia.
    rewrite (bool_decide_eq_true_2 (off < vsize)%Z) by lia. cbn [andb negb].
    replace (wrap32 off) with off by (unfold wrap32; rewrite Z.mod_small by lia; lia).
    unfold gui. fold σ. rewrite (bool_decide_eq_true_2 (ref = guiLoopRef σ)) by done.
    cbn [orb]. unfold runClosure. cbn [body]. fold σ. rewrite Hbody. reflexivity.
  - cbn. split; [reflexivity |]. split; [| split].
    + unfold immediate.
      rewrite (bind_two _ es e1 e2 Hnd Hin1 Hin2 Hne).
      * rewrite Hc1, Hc2. cbn. unfold signalOf. by rewrite HF1, HF2.
      * intros e He H1 H2. unfold es in He. rewrite Hre in He.
        apply registry_elem in He as [a Ha].
        pose proof (Hrest a e Ha H1 H2) as Hnil.
        rewrite (foldChain_repr _ _ _ _ R) in Hnil. by rewrite Hnil.
    + intros ev. unfold deferred. rewrite (loopDeferred_spec _ _ _ _ _ Hrt). split.
      * intros [Hin | [_ Hp]]; [by apply elem_of_nil in Hin | exact Hp].
      * intros Hp. right. split; [| exact Hp]. intros Hnil. rewrite Hnil in Hin1.
        by apply elem_of_nil in Hin1.
    + intros Hnone. destruct deferred as [| ev d] eqn:Hd; [done |].
      assert (Hev : ev ∈ loopDeferred rangeTypeNew σ v off 0 es []).
      { fold deferred. rewrite Hd. left. }
      apply (loopDeferred_spec _ _ _ _ _ Hrt) in Hev as [Hin | [_ (p & Hp & Hv & _)]].
      * by apply elem_of_nil in Hin.
      * by destruct (Hnone p Hp).
Qed.

(** C4, evaluated where it fails.  The value has exactly two live folds,
    fold 1 in the first engine and fold 3 in the second, both resolved
    and both engines registered; [Changed] for a field at offset 8
    returns having emitted a single signal, for the handle of fold 3:
    fold 1, cut off its chain by the third wrap, is not reached from the
    first engine's map. *)
Theorem changed_misses_orphaned_fold :
  elements (alive orphanAcrossEngines) = [3; 1]%nat
  ∧ heap orphanAcrossEngines !! 1%nat
    = Some (mkFold (Some 0%nat) structPtr 12%N None (Some 0%nat) None cppOwner)
  ∧ heap orphanAcrossEngines !! 3%nat
    = Some (mkFold (Some 1%nat) structPtr 14%N None None None jsOwner)
  ∧ engines orphanAcrossEngines !! 7%N = Some 0%nat
  ∧ engines orphanAcrossEngines !! 8%N = Some 1%nat
  ∧ typeNew orphanAcrossEngines = ∅
  ∧ ∃ w', Changed (λ m, (map_to_list m).*2) (λ _ s, elements s) 1 structPtr 1000 16 1008 8
            (mkWorld orphanAcrossEngines [] []) = Returns w'
          ∧ log (mem w') = log orphanAcrossEngines ++ [goValueActivate 14%N structPtr 8].
Proof.
  repeat split; try (vm_compute; reflexivity).
  eexists. split; vm_compute; reflexivity.
Qed.

(** * Field writes *)


(** C10 (as amended).  Once the value written is a valid one, so that
    its type is known and the deferred function is in place, every panic
    of a field write reaches the caller as the message
    [cannot use <source type> as a <target type>] and never with its own
    value; this holds for the panic of a setter too. *)
Theorem field_write_masks_panics convert to fromv setMethod toType :
  targetType to setMethod = inl toType →
  (∀ pv, convertAndSet convert to (Some fromv) setMethod = panicked pv →
         pv = byBridge (cannotUse (typeOf fromv) toType))
  ∧ (∀ m v pv, setMethod = Some m → length (params m) = 1%nat →
       converted convert fromv (typeOf fromv) toType = inl v →
       raises m v = Some pv →
       convertAndSet convert to (Some fromv) setMethod
       = panicked (byBridge (cannotUse (typeOf fromv) toType))).
Proof.
  intros Ht. split.
  - intros pv. by apply convertAndSet_panic_message.
  - intros m v pv -> Hlen Hc Hr. unfold convertAndSet. rewrite Ht, Hc. cbn.
    rewrite decide_True by done. by rewrite Hr.
Qed.

(** ** The scenarios are consistent states *)

Lemma oneEngine_start_repr d :
  repr (start {[ 0%nat := mkEngine 7%N ∅ d ]} {[ 7%N := 0%nat ]} 1) (λ _ _, []).
Proof.
  apply start_consistent.
  - intros e E HE. apply lookup_singleton_Some in HE as [_ <-]. done.
  - intros a e Ha. apply lookup_singleton_Some in Ha as [<- <-].
    eexists. by rewrite lookup_singleton_eq.
Qed.

Lemma twoAliases_consistent : consistent twoAliases.
Proof.
  pose proof (oneEngine_start_repr true) as R0. fold oneDestroyedEngine in R0.
  destruct (wrap_first_repr oneDestroyedEngine _ 1 11%N 0%nat (mkEngine 7%N ∅ true)
              structPtr jsOwner R0) as (σ1 & Hrun1 & R1 & _);
    [reflexivity | reflexivity | reflexivity | reflexivity | discriminate |].
  assert (Hσ1 : σ1 = final (wrapGoValue 1 11%N 0%nat structPtr jsOwner oneDestroyedEngine))
    by (by rewrite Hrun1).
  destruct (wrap_alias_repr σ1 _ 1 12%N 0%nat
              (mkEngine 7%N {[ structPtr := 0%nat ]} true) structPtr cppOwner 0%nat
              (mkFold (Some 0%nat) structPtr 11%N None None None jsOwner) R1)
    as (σ2 & Hrun2 & R2 & _).
  - reflexivity.
  - rewrite Hσ1. vm_compute. reflexivity.
  - rewrite setChain_eq. vm_compute. reflexivity.
  - rewrite Hσ1. vm_compute. reflexivity.
  - unfold reuses. rewrite Hσ1. vm_compute.
    intros [H | [H | H]]; try discriminate. by apply H.
  - eexists. unfold twoAliases.
    rewrite (run_wrap_cons _ _ _ _ _ _ _ _ _ Hrun1), (run_wrap_cons _ _ _ _ _ _ _ _ _ Hrun2).
    exact R2.
Qed.

Lemma destroy_bookkeeping_witness :
  (∃ σ1, run [Destroy 7%N 1%nat] twoAliases = Return tt σ1
         ∧ engines σ1 !! 7%N = Some 0%nat)
  ∧ (∃ σ2, run [Destroy 7%N 1%nat; Destroy 7%N 0%nat] twoAliases = Return tt σ2
           ∧ engines σ2 !! 7%N = None)
  ∧ (∃ σ', hookGoValueDestroyed 7%N 0%nat twoAliases = Return tt σ'
           ∧ foldChain σ' 0%nat structPtr = [1%nat]).
Proof.
  destruct (destroy_bookkeeping twoAliases 7%N twoAliases_consistent) as [Hall Hone].
  assert (HE : eheap twoAliases !! 0%nat
               = Some (mkEngine 7%N {[ structPtr := 0%nat ]} true))
    by (vm_compute; reflexivity).
  assert (Hperm : [1; 0]%nat ≡ₚ elements (engineFolds twoAliases 0%nat))
    by (vm_compute; reflexivity).
  split; [| split].
  - destruct (Hall _ _ [1; 0]%nat HE eq_refl Hperm) with (k := 1%nat)
      as (σ1 & Hrun & Hreg); [discriminate | cbn; lia |].
    exists σ1. split; [exact Hrun | exact Hreg].
  - destruct (Hall _ _ [1; 0]%nat HE eq_refl Hperm) with (k := 2%nat)
      as (σ2 & Hrun & Hreg); [discriminate | cbn; lia |].
    exists σ2. split; [exact Hrun | exact Hreg].
  - destruct (Hone 0%nat structPtr [] 0%nat [1%nat]) as (σ' & Hrun & _ & Hch & _).
    + vm_compute. reflexivity.
    + exists σ'. split; [exact Hrun | exact Hch].
Defined.

Lemma oneEngine_reachable : reachable oneEngine.
Proof.
  apply reach_start.
  - intros e E HE. apply lookup_singleton_Some in HE as [_ <-]. done.
  - intros a e Ha. apply lookup_singleton_Some in Ha as [<- <-].
    by rewrite lookup_singleton_eq.
Qed.


Lemma aliasedAcrossEngines_consistent : consistent aliasedAcrossEngines.
Proof.
  assert (R0 : repr twoEngines (λ _ _, [])).
  { apply start_consistent.
    - intros e E HE. apply lookup_insert_Some in HE as [[_ <-] | [_ HE]]; [done |].
      apply lookup_singleton_Some in HE as [_ <-]. done.
    - intros a e Ha. apply lookup_insert_Some in Ha as [[<- <-] | [_ Ha]].
      + eexists. split; [by rewrite lookup_insert_eq | done].
      + apply lookup_singleton_Some in Ha as [<- <-].
        eexists. split; [by rewrite lookup_insert_ne, lookup_singleton_eq | done]. }
  destruct (wrap_first_repr twoEngines _ 1 11%N 0%nat (mkEngine 7%N ∅ false)
              structPtr jsOwner R0) as (σ1 & Hrun1 & R1 & _);
    [reflexivity | reflexivity | reflexivity | reflexivity | discriminate |].
  assert (Hσ1 : σ1 = final (wrapGoValue 1 11%N 0%nat structPtr jsOwner twoEngines))
    by (by rewrite Hrun1).
  destruct (wrap_first_repr σ1 _ 1 12%N 1%nat (mkEngine 8%N ∅ false)
              structPtr jsOwner R1) as (σ2 & Hrun2 & R2 & _).
  - reflexivity.
  - rewrite Hσ1. vm_compute. reflexivity.
  - rewrite Hσ1. vm_compute. reflexivity.
  - reflexivity.
  - rewrite Hσ1. vm_compute. discriminate.
  - eexists. unfold aliasedAcrossEngines.
    rewrite (run_wrap_cons _ _ _ _ _ _ _ _ _ Hrun1), (run_wrap_cons _ _ _ _ _ _ _ _ _ Hrun2).
    exact R2.
Qed.

Lemma changed_signals_two_aliases_witness :
  ∃ w' immediate,
    Changed (λ m, (map_to_list m).*2) (λ _ s, elements s) 1 structPtr 1000 16 1008 8
            (mkWorld aliasedAcrossEngines [] []) = Returns w'
    ∧ log (mem w') = log aliasedAcrossEngines ++ immediate
    ∧ immediate ≡ₚ [goValueActivate 11%N structPtr 8; goValueActivate 12%N structPtr 8].
Proof.
  destruct (changed_signals_two_aliases (λ m, (map_to_list m).*2) (λ _ s, elements s)
              1 (mkWorld aliasedAcrossEngines [] []) structPtr 7%N 8%N 0%nat 1%nat
              0%nat 1%nat 1000 16 8 8)
    as (w' & F1 & F2 & immediate & deferred & Hrun & HF1 & HF2 & Hlog & Him & _ & Hno).
  - done.
  - done.
  - exact aliasedAcrossEngines_consistent.
  - reflexivity.
  - vm_compute. reflexivity.
  - vm_compute. reflexivity.
  - discriminate.
  - vm_compute. reflexivity.
  - vm_compute. reflexivity.
  - intros a e Ha H0 H1. exfalso. cbn [mem] in Ha.
    assert (Hreg : engines aliasedAcrossEngines = {[ 7%N := 0%nat; 8%N := 1%nat ]})
      by (vm_compute; reflexivity).
    rewrite Hreg in Ha. apply lookup_insert_Some in Ha as [[_ <-] | [_ Ha]]; [done |].
    apply lookup_singleton_Some in Ha as [_ <-]. done.
  - discriminate.
  - lia.
  - lia.
  - cbn [mem] in *.
    assert (F1 = mkFold (Some 0%nat) structPtr 11%N None None None jsOwner) as ->.
    { vm_compute in HF1. by injection HF1 as <-. }
    assert (F2 = mkFold (Some 1%nat) structPtr 12%N None None None jsOwner) as ->.
    { vm_compute in HF2. by injection HF2 as <-. }
    rewrite Hno in Hlog.
    + exists w', immediate. split; [exact Hrun |]. split; [| exact Him].
      by rewrite app_nil_r in Hlog.
    + intros p Hp. vm_compute in Hp. discriminate.
Defined.


Lemma field_write_masks_panics_witness :
  convertAndSet numberConvert None (Some (mkValue TInt64 (PScalar (-3)))) (Some pickySetter)
  = panicked (byBridge "cannot use int64 as a int").
Proof.
  destruct (field_write_masks_panics numberConvert None (mkValue TInt64 (PScalar (-3)))
              (Some pickySetter) TInt eq_refl) as [_ Hsetter].
  apply (Hsetter pickySetter (mkValue TInt (PScalar (-3))) (byHost 7));
    reflexivity.
Defined.

(** C10 as stated fails: when the value written is nil, the target type
    is determined, then [from.Type()] panics before the deferred
    function is in place, and the caller gets that panic's own value. *)
Lemma field_write_of_nil_keeps_panic :
  targetType (Some (mkField TInt true)) None = inl TInt
  ∧ convertAndSet numberConvert (Some (mkField TInt true)) None None
    = panicked (byReflect "reflect: call of reflect.Value.Type on zero Value")
  ∧ ∀ msg, convertAndSet numberConvert (Some (mkField TInt true)) None None
           ≠ panicked (byBridge msg).
Proof. split; [reflexivity |]. split; [reflexivity |]. intros msg. discriminate. Qed.
(** * Further properties of the value-fold registry *)

(** X1.  In every state the process can reach, the [next] links never
    come back on themselves: the walk from the entry of an engine's map
    for a value meets each fold once, meets only folds of that engine for
    that value, and the loop [for prev.next != nil] of [ensureEngine]
    started there stops, at the last fold of the walk, whose [next] is
    nil; started at any fold at all, it stops at a fold of the same
    engine and value whose [next] is nil. *)
Theorem reachable_chains_end σ :
  reachable σ →
  (∀ e E v, eheap σ !! e = Some E →
     head (foldChain σ e v) = values E !! v
     ∧ NoDup (foldChain σ e v)
     ∧ (∀ p, p ∈ foldChain σ e v →
          ∃ F, heap σ !! p = Some F ∧ engine F = Some e ∧ gvalue F = v)
     ∧ (∀ p, values E !! v = Some p →
          ∃ q, last (foldChain σ e v) = Some q
            ∧ lastFold (size (heap σ)) p σ = Return q σ
            ∧ (next <$> heap σ !! q) = Some None))
  ∧ (∀ p P, heap σ !! p = Some P →
       ∃ q Q, lastFold (size (heap σ)) p σ = Return q σ
         ∧ heap σ !! q = Some Q ∧ next Q = None ∧ sameClass P Q).
Proof.
  intros Hreach. destruct (reachable_wellFormed σ Hreach) as [rank W].
  assert (Hwalk : ∀ p l, forward (heap σ) (p :: l) → NoDup (p :: l) →
            ∃ q Q, last (p :: l) = Some q ∧ lastFold (size (heap σ)) p σ = Return q σ
              ∧ heap σ !! q = Some Q ∧ next Q = None).
  { intros p l Hl Hnd.
    destruct (lastFold_forward σ (p :: l) Hl (size (heap σ)) 0%nat p) as (q & Hq & Hrun).
    { done. }
    { pose proof (forward_length_le _ _ Hnd Hl) as Hle. cbn in Hle. cbn. lia. }
    rewrite last_lookup in Hq. destruct (Hl _ q Hq) as (Q & HQ & Hn).
    exists q, Q. split; [by rewrite last_lookup |]. split; [done |]. split; [done |].
    rewrite Hn. apply lookup_ge_None. cbn. lia. }
  split.
  - intros e E v HE. pose proof (foldChain_wf σ rank e E v W HE) as Hc.
    destruct (values E !! v) as [p |] eqn:Hv.
    + destruct Hc as (l & Hfc & Hl & Hnd & Hclass). rewrite Hfc.
      split; [done |]. split; [done |]. split; [done |].
      intros p' [= <-]. destruct (Hwalk p l Hl Hnd) as (q & Q & Hq & Hrun & HQ & Hn).
      exists q. split; [done |]. split; [done |]. by rewrite HQ, <- Hn.
    + rewrite Hc. split; [done |]. split; [apply NoDup_nil_2 |].
      split; [intros p Hp; by apply elem_of_nil in Hp | done].
  - intros p P HP. destruct (wf_path σ rank W p P HP) as (l & Hl & Hnd & Hx).
    destruct (Hwalk p l Hl Hnd) as (q & Q & Hq & Hrun & HQ & Hn).
    exists q, Q. split; [done |]. split; [done |]. split; [done |].
    rewrite last_lookup in Hq. apply list_elem_of_lookup_2 in Hq.
    destruct (Hx q Hq) as (_ & Q' & HQ' & Hc). congruence.
Qed.

(** X2.  In every state the process can reach, a pending fold has no
    engine and no link, carries its initializer, is on no chain walked
    from an engine's map, and no [prev] or [next] of any fold leads to
    it. *)
Theorem pending_folds_are_apart σ p :
  reachable σ → p ∈ typeNew σ →
  ∃ F, heap σ !! p = Some F
    ∧ engine F = None ∧ prev F = None ∧ next F = None ∧ is_Some (init F)
    ∧ (∀ e v, p ∉ foldChain σ e v)
    ∧ (∀ x X, heap σ !! x = Some X → next X ≠ Some p ∧ prev X ≠ Some p).
Proof.
  intros Hreach Hp. destruct (reachable_wellFormed σ Hreach) as [rank W].
  destruct (wf_pending _ _ W p Hp) as (F & HF & He & Hpr & Hn & Hi).
  exists F. split; [done |]. split; [done |]. split; [done |]. split; [done |].
  split; [done |]. split.
  - intros e v Hin.
    destruct (foldChain_wf_class σ rank e v p W Hin) as (X & HX & HXe & _). congruence.
  - by destruct (detached_engineless σ rank p F W HF He) as [Hd _].
Qed.

(** X3.  No sequence of registry operations, whether it returns or
    panics on the way, takes a fold out of the heap or changes its
    value, its native handle, its initializer or its ownership; and the
    engine of a fold, once set, is never changed. *)
Theorem fold_identity_is_kept f F ops σ :
  heap σ !! f = Some F →
  ∃ F', heap (final (run ops σ)) !! f = Some F'
    ∧ gvalue F' = gvalue F ∧ cvalue F' = cvalue F
    ∧ init F' = init F ∧ owner F' = owner F
    ∧ (is_Some (engine F) → engine F' = engine F).
Proof.
  intros HF. pose proof (same_run f F ops σ (sameFold_start f F σ HF)) as H.
  by destruct (run ops σ).
Qed.

(** X4.  A second destruction callback for the same fold is caught in
    two cases: for a pending fold, and for a fold that stands alone on
    the chain of its value (no [prev], no [next], its value in the
    engine's map).  The first call returns; the second panics, with one
    of the assertions of the code, and counts nothing. *)
Theorem second_destroy_is_caught ep p F σ :
  heap σ !! p = Some F →
  (engine F = None ∧ p ∈ typeNew σ)
  ∨ (∃ e E e0 r, engine F = Some e ∧ prev F = None ∧ next F = None
       ∧ eheap σ !! e = Some E ∧ engines σ !! addr E = Some e0
       ∧ values E !! gvalue F = Some r) →
  ∃ σ1 msg σ2,
    hookGoValueDestroyed ep p σ = Return tt σ1
    ∧ valuesAlive σ1 = valuesAlive σ - 1
    ∧ hookGoValueDestroyed ep p σ1 = Panicked msg σ2
    ∧ valuesAlive σ2 = valuesAlive σ1
    ∧ msg ∈ [ "destroying value without an associated engine; who created the value?";
              "destroying value that knows about the engine, but the engine doesn't know about the value; who cleared the engine?";
              "engine " +:+ formatPtr (default nilPtr (addr <$> (engine F ≫= λ e, eheap σ !! e)))
                +:+ " was released from global list while its values were still alive" ].
Proof.
  intros HF [[He Hp] | (e & E & e0 & r & He & Hpr & Hn & HE & Hreg & Hr)].
  - eexists _, _, _. split; [by apply (destroy_pending_exec ep p F) |].
    split; [cbn; lia |]. split.
    + apply (destroy_not_pending_exec ep p F); cbn; [done | done |].
      rewrite elem_of_difference, elem_of_singleton. tauto.
    + split; [done |]. rewrite !elem_of_cons. auto.
  - rewrite (destroy_alone_exec ep p F e E e0 r σ) by done.
    set (E' := with_values (delete (gvalue F) (values E)) E).
    set (σ1 := set_alive _ _ _).
    destruct (destroy_alone_panics ep p F e E' σ1) as (σ2 & Hrun & _ & Hcount); try done.
    { unfold σ1. cbn. by rewrite lookup_insert_eq. }
    { right. cbn. by rewrite lookup_delete_eq. }
    eexists σ1, _, σ2. split; [reflexivity |]. split; [cbn; lia |].
    split; [exact Hrun |]. split; [done |].
    rewrite He. cbn. rewrite HE. cbn. change (addr E') with (addr E).
    rewrite !elem_of_cons.
    match goal with |- context [match ?x with Some _ => _ | None => _ end] => destruct x end;
      auto.
Qed.

(** X5.  A second destruction callback for a fold that has a predecessor
    is not caught.  In a state the process can reach, with the engine of
    the fold registered, both calls return: the second leaves the links
    as the first made them and counts the fold a second time. *)
Theorem second_destroy_goes_unnoticed ep p F q e E e0 σ :
  reachable σ → heap σ !! p = Some F → prev F = Some q →
  engine F = Some e → eheap σ !! e = Some E → engines σ !! addr E = Some e0 →
  ∃ σ1 σ2,
    hookGoValueDestroyed ep p σ = Return tt σ1
    ∧ hookGoValueDestroyed ep p σ1 = Return tt σ2
    ∧ heap σ2 = heap σ1
    ∧ valuesAlive σ1 = valuesAlive σ - 1
    ∧ valuesAlive σ2 = valuesAlive σ - 2.
Proof.
  intros Hreach HF Hp He HE Hreg.
  destruct (reachable_wellFormed σ Hreach) as [rank W].
  destruct (wf_prev _ _ W p F q HF Hp) as (Q & HQ & _ & _ & Hr1).
  assert (Hqp : q ≠ p) by (intros ->; lia).
  assert (Hnext : ∀ n, next F = Some n → n ≠ p ∧ is_Some (heap σ !! n)).
  { intros n Hn. destruct (wf_next _ _ W p F n HF Hn) as (N & HN & _ & _ & Hr2).
    split; [intros ->; lia | eauto]. }
  rewrite (destroy_with_prev_exec ep p F q Q e E e0 σ) by done.
  set (σ1 := set_alive _ _ _).
  assert (Hlook : ∀ x, heap σ1 !! x = relinked F x <$> heap σ !! x).
  { intros x. unfold σ1. cbn. by apply (unlinkFold_lookup σ rank p). }
  assert (HF1 : heap σ1 !! p = Some F).
  { rewrite Hlook, HF. cbn. f_equal. unfold relinked.
    rewrite decide_False, decide_False; [by destruct F | |].
    - rewrite Hp. congruence.
    - intros Hn. by destruct (Hnext p Hn). }
  assert (HQ1 : is_Some (heap σ1 !! q)) by (rewrite Hlook, HQ; eauto).
  destruct HQ1 as [Q1 HQ1].
  assert (Hrun2 : hookGoValueDestroyed ep p σ1
                  = Return tt (set_alive (valuesAlive σ1 + -1) (alive σ1 ∖ {[p]})
                                 (set_heap (unlinkFold (heap σ1) F) σ1))).
  { apply (destroy_with_prev_exec ep p F q Q1 e E e0 σ1); try done.
    intros n Hn. destruct (Hnext n Hn) as [? [N HN]]. split; [done |].
    rewrite Hlook, HN. eauto. }
  eexists σ1, _. split; [reflexivity |]. split; [exact Hrun2 |].
  split; [| split; cbn; lia].
  cbn. by apply (unlinkFold_twice σ rank p).
Qed.

(** X6.  In every state the process can reach, what [wrapGoValue]
    returns is the native handle of a fold of the engine for the value
    that the walk from the engine's map meets after the call; that fold
    has the ownership asked for, unless the request was not for native
    ownership or came from the painting thread. *)
Theorem wrap_returns_chained_handle ref cnew e v ow σ c σ' :
  reachable σ → wrapGoValue ref cnew e v ow σ = Return c σ' →
  ∃ f F, f ∈ foldChain σ' e v ∧ heap σ' !! f = Some F ∧ cvalue F = c
    ∧ engine F = Some e ∧ gvalue F = v
    ∧ (owner F = ow ∨ ow ≠ cppOwner ∨ ref = guiPaintRef σ).
Proof.
  intros Hreach Hrun.
  assert (Hreach' : reachable σ').
  { apply (reach_exec σ (Wrap ref cnew e v ow)); [done |]. unfold exec, bind. by rewrite Hrun. }
  destruct (reachable_wellFormed σ Hreach) as [rank W].
  destruct (reachable_wellFormed σ' Hreach') as [rank' W'].
  destruct (admitted v) eqn:Hadm.
  2: { destruct (wrap_not_admitted ref cnew e v ow σ Hadm) as [msg Hp]. congruence. }
  destruct (eheap σ !! e) as [E |] eqn:HE.
  2: { rewrite wrap_admitted_eq in Hrun by done. revert Hrun. msimpl. by rewrite HE. }
  destruct (values E !! v) as [p |] eqn:Hv.
  - destruct (wf_root _ _ W e E v p HE Hv) as (P & HP & HPe & HPv).
    destruct (decide (reuses σ ref P ow)) as [Hr | Hr].
    + rewrite (wrap_reuse ref cnew e E v ow p P σ) in Hrun by done.
      injection Hrun as <- <-. exists p, P.
      pose proof (foldChain_wf σ rank e E v W HE) as Hc. rewrite Hv in Hc.
      destruct Hc as (l & Hfc & _). rewrite Hfc.
      split; [left |]. done.
    + destruct (wrap_alias ref cnew e E v ow p P σ Hadm HE Hv HP Hr)
        as (σ1 & Hrun1 & Hf1 & Hp1 & _ & Heh & _).
      rewrite Hrun1 in Hrun. injection Hrun as <- <-.
      eexists _, _. split; [| split; [exact Hf1 |]]; [| cbn; by auto].
      rewrite <- Heh in HE.
      pose proof (foldChain_wf σ1 rank' e E v W' HE) as Hc. rewrite Hv in Hc.
      destruct Hc as (l & Hfc & Hl & _). rewrite Hfc.
      destruct (Hl 0%nat p eq_refl) as (P' & HP' & Hn).
      rewrite Hp1 in HP'. injection HP' as <-. cbn in Hn.
      right. by eapply list_elem_of_lookup_2.
  - destruct (decide (ref = guiPaintRef σ)) as [Hp | Hp].
    + rewrite (wrap_fresh_while_painting ref cnew e E v ow σ) in Hrun by done. done.
    + destruct (wrap_first ref cnew e E v ow σ Hadm HE Hv Hp)
        as (σ1 & Hrun1 & Hh & Heh & _).
      rewrite Hrun1 in Hrun. injection Hrun as <- <-.
      eexists _, _. split; [| split; [rewrite Hh; apply lookup_insert_eq |]]; [| cbn; by auto].
      assert (HE' : eheap σ1 !! e = Some (with_values (<[v := fresh (dom (heap σ))]> (values E)) E)).
      { rewrite Heh. apply lookup_insert_eq. }
      pose proof (foldChain_wf σ1 rank' e _ v W' HE') as Hc. cbn in Hc.
      rewrite lookup_insert_eq in Hc. destruct Hc as (l & Hfc & _). rewrite Hfc. left.
Qed.
(** * Further properties of the dispatcher *)

(** X9.  [hookIdleTimer] gives control back to the event loop only with
    the lock count not positive and no sender left on the channel; it
    stays in its blocking receive only with the count positive; and when
    it ends otherwise, the last thing it did was to call a closure it
    had received, which panicked or never came back. *)
Theorem hook_yields_only_unlocked t w :
  match hookIdleTimer t w with
  | Returns w' => (guiLock (mem w') ≤ 0)%Z ∧ guiFunc w' = []
  | Blocks w' => (guiLock (mem w') > 0)%Z ∧ guiFunc w' = []
  | Panics _ w' | Loops w' =>
      ∃ c g, (c, g) ∈ guiFunc w ∧ last (trace w') = Some (ran t (label g))
  end.
Proof. apply serve_ends. Qed.

(** X10.  The lock count is the number of [Lock]s less the number of
    [Unlock]s: from a count [c], [n] calls of [Lock] followed by [m] of
    [Unlock], with [m] at most [c + n], all return and leave the count
    at [c + n - m]; the hook is then in its blocking receive exactly
    when that count is positive; and one [Unlock] more than [c + n]
    panics, with the count at zero. *)
Theorem lock_count_is_locks_less_unlocks ref n m w :
  guiFunc w = [] → (0 ≤ guiLock (mem w))%Z → (guiLock (mem w) + Z.of_nat n < 2 ^ 63)%Z →
  ((Z.of_nat m ≤ guiLock (mem w) + Z.of_nat n)%Z →
     ∃ w', session (replicate n (Lock ref) ++ replicate m (Unlock ref)) w = Returns w'
       ∧ guiLock (mem w') = guiLock (mem w) + Z.of_nat n - Z.of_nat m
       ∧ hookIdleTimer (guiLoopRef (mem w')) w'
         = if decide (guiLock (mem w') > 0)%Z then Blocks w' else Returns w')
  ∧ (Z.of_nat m = guiLock (mem w) + Z.of_nat n + 1 →
     ∃ w', session (replicate n (Lock ref) ++ replicate m (Unlock ref)) w
           = Panics "qml.Unlock called without lock being held" w'
       ∧ guiLock (mem w') = 0).
Proof.
  intros Hq H0 Hmax.
  destruct (session_Locks ref (replicate m (Unlock ref)) n w Hq H0 Hmax)
    as (w1 & Hs1 & Hq1 & Hl1 & Hr1).
  split.
  - intros Hm.
    destruct (session_Unlocks ref [] m w1 Hq1) as (w2 & Hs2 & Hq2 & Hl2 & Hr2); [lia |].
    rewrite app_nil_r in Hs2.
    exists w2. split; [by rewrite Hs1, Hs2 |]. split; [lia |].
    rewrite hookIdleTimer_idle by done.
    destruct w2 as [σ2 q2 tr2]. cbn in Hq2. subst q2. done.
  - intros Hm. destruct m as [| m]; [lia |].
    replace (S m) with (m + 1)%nat in * by lia.
    rewrite replicate_add in Hs1 |- *. cbn [replicate] in *.
    destruct (session_Unlocks ref [Unlock ref] m w1 Hq1) as (w2 & Hs2 & Hq2 & Hl2 & Hr2); [lia |].
    destruct (session_Unlock_zero ref [] w2 Hq2) as (w3 & Hs3 & Hl3); [lia |].
    exists w3. split; [| done]. by rewrite Hs1, Hs2, Hs3.
Qed.


(** X12.  A panic of a closure marshalled from another thread is raised
    in [hookIdleTimer], on the event-loop thread, and not in the caller:
    [gui] leaves the caller blocked; the hook calls the closure and
    panics with the closure's panic, before it has sent on [guiDone] and
    before it has taken the caller off [hookWaiting]. *)
Theorem marshalled_panic_is_raised_in_the_hook ref f w msg σ' :
  ref ≠ guiLoopRef (mem w) → ref ≠ guiPaintRef (mem w) → guiFunc w = [] →
  body f (mem (worldOf (gui ref f w))) = Panicked msg σ' →
  ∃ w1,
    gui ref f w = Blocks w1
    ∧ hookIdleTimer (guiLoopRef (mem w)) w1
      = Panics msg (mkWorld σ' [] (trace w ++ [ran (guiLoopRef (mem w)) (label f)]))
    ∧ hookWaiting (mem w1) = wrap32 (hookWaiting (mem w) + 1).
Proof.
  intros Hloop Hpaint Hq. unfold gui.
  rewrite !bool_decide_eq_false_2 by done. cbn [orb worldOf mem].
  intros Hb. eexists. split; [reflexivity |]. split; [| done].
  unfold hookIdleTimer. cbn [guiFunc mem trace]. rewrite Hq. cbn [app serve].
  unfold runClosure. cbn [body mem]. rewrite Hb. reflexivity.
Qed.

(** * Further properties of the change notifier *)

(** X14.  The checks of [Changed].  With addresses that are [uintptr]s
    and a value that ends within the address space: a field of size zero
    is refused; so is a field that does not start inside the value, also
    when it lies below the value, where the unsigned difference wraps
    around; nothing is sent to the event loop in either case.  A field
    that starts inside the value passes, and the offset handed on is the
    difference of the addresses. *)
Theorem changed_checks_the_field rangeEngines rangeTypeNew ref v vaddr vsize faddr fsize w :
  (0 ≤ vaddr < 2 ^ 64)%Z → (0 ≤ faddr < 2 ^ 64)%Z →
  (0 ≤ vsize ≤ 2 ^ 31)%Z → (vaddr + vsize ≤ 2 ^ 64)%Z →
  (fsize = 0 →
     Changed rangeEngines rangeTypeNew ref v vaddr vsize faddr fsize w
     = Panics "cannot report changes on zero-sized fields" w)
  ∧ (fsize ≠ 0 → ¬ (vaddr ≤ faddr < vaddr + vsize)%Z →
     Changed rangeEngines rangeTypeNew ref v vaddr vsize faddr fsize w
     = Panics "provided field is not a member of the given value" w)
  ∧ (fsize ≠ 0 → (vaddr ≤ faddr < vaddr + vsize)%Z →
     Changed rangeEngines rangeTypeNew ref v vaddr vsize faddr fsize w
     = gui ref (mkClosure 3 (changedBody rangeEngines rangeTypeNew v (faddr - vaddr))) w).
Proof.
  intros Hv Hf Hs Hend. unfold Changed. split; [| split].
  - intros ->. by rewrite decide_True.
  - intros Hfs Hout. rewrite decide_False by done.
    assert (Hoff : ¬ ((faddr - vaddr) mod 2 ^ 64 < vsize)%Z).
    { destruct (decide (vaddr ≤ faddr)%Z).
      - rewrite Z.mod_small by lia. lia.
      - replace ((faddr - vaddr) mod 2 ^ 64)%Z with (faddr - vaddr + 2 ^ 64)%Z; [lia |].
        symmetry. rewrite <- (Z.mod_small (faddr - vaddr + 2 ^ 64) (2 ^ 64)) by lia.
        rewrite <- Z.add_mod_idemp_r by lia. rewrite Z.mod_same by lia.
        by rewrite Z.add_0_r. }
    rewrite (bool_decide_eq_false_2 _ Hoff). by rewrite andb_false_r.
  - intros Hfs Hin. rewrite decide_False by done.
    rewrite Z.mod_small by lia.
    rewrite (bool_decide_eq_true_2 (0 ≤ faddr - vaddr)%Z) by lia.
    rewrite (bool_decide_eq_true_2 (faddr - vaddr < vsize)%Z) by lia. cbn [andb negb].
    by rewrite wrap32_small by lia.
Qed.

(** X15.  In every state the process can reach, [Changed] on the
    event-loop thread, its checks passed, returns: it neither panics nor
    loops.  It emits a signal, with the offset of the field, for each
    fold met on the walk from the map of each registered engine, engine
    after engine, then the deferred signals; and it changes nothing but
    the log. *)
Theorem changed_signals_every_chain rangeEngines rangeTypeNew ref w v vaddr vsize fsize off :
  (∀ m, rangeEngines m ≡ₚ (map_to_list m).*2) →
  (∀ i s, rangeTypeNew i s ≡ₚ elements s) →
  reachable (mem w) → ref = guiLoopRef (mem w) →
  fsize ≠ 0 → (0 ≤ off < vsize)%Z → (vsize ≤ 2 ^ 31)%Z →
  ∃ w' deferred,
    Changed rangeEngines rangeTypeNew ref v vaddr vsize (vaddr + off) fsize w = Returns w'
    ∧ log (mem w')
      = log (mem w)
        ++ (rangeEngines (engines (mem w)) ≫= λ e,
              signalOf (heap (mem w)) v off <$> foldChain (mem w) e v)
        ++ deferred
    ∧ mem w' = set_log (log (mem w')) (mem w)
    ∧ guiFunc w' = guiFunc w.
Proof.
  intros Hre Hrt Hreach Href Hfs Hoff Hvs.
  destruct (reachable_wellFormed _ Hreach) as [rank W].
  rewrite (Changed_wf rangeEngines rangeTypeNew ref w v rank vaddr vsize fsize off) by done.
  eexists _, _. split; [reflexivity |]. cbn. split; [reflexivity |]. done.
Qed.

(** X16.  The pending folds.  In every state the process can reach,
    the signals of [Changed] for the pending folds come after all the
    others, at the end of the call, and there is one of them for each
    pending fold that holds the value and each registered engine: none
    at all when no engine is registered, two for each such fold with two
    engines. *)
Theorem changed_defers_once_per_engine rangeEngines rangeTypeNew ref w v vaddr vsize fsize off :
  (∀ m, rangeEngines m ≡ₚ (map_to_list m).*2) →
  (∀ i s, rangeTypeNew i s ≡ₚ elements s) →
  reachable (mem w) → ref = guiLoopRef (mem w) →
  fsize ≠ 0 → (0 ≤ off < vsize)%Z → (vsize ≤ 2 ^ 31)%Z →
  ∃ w' immediate deferred,
    Changed rangeEngines rangeTypeNew ref v vaddr vsize (vaddr + off) fsize w = Returns w'
    ∧ log (mem w') = log (mem w) ++ immediate ++ deferred
    ∧ length immediate
      = length (rangeEngines (engines (mem w)) ≫= λ e, foldChain (mem w) e v)
    ∧ length deferred
      = (size (engines (mem w))
         * length (filter (λ p, (gvalue <$> heap (mem w) !! p) = Some v)
                     (elements (typeNew (mem w)))))%nat
    ∧ (∀ ev, ev ∈ deferred →
         ∃ p, p ∈ typeNew (mem w) ∧ (gvalue <$> heap (mem w) !! p) = Some v
              ∧ ev = signalOf (heap (mem w)) v off p).
Proof.
  intros Hre Hrt Hreach Href Hfs Hoff Hvs.
  destruct (reachable_wellFormed _ Hreach) as [rank W].
  rewrite (Changed_wf rangeEngines rangeTypeNew ref w v rank vaddr vsize fsize off) by done.
  eexists _, _, _. split; [reflexivity |]. cbn [mem log set_log].
  split; [reflexivity |]. split; [| split].
  - generalize (rangeEngines (engines (mem w))). intros es.
    induction es as [| e es IH]; [done |]. cbn. rewrite !length_app, length_fmap. by rewrite IH.
  - rewrite (loopDeferred_length _ _ _ _ _ Hrt). cbn. f_equal.
    rewrite (Permutation_length (Hre (engines (mem w)))).
    by rewrite length_fmap, length_map_to_list.
  - intros ev Hev. apply (loopDeferred_spec _ _ _ _ _ Hrt) in Hev as [Hin | [_ Hp]]; [| done].
    by apply elem_of_nil in Hin.
Qed.
(** * The paint callback *)

(** * The list hooks *)

(** X18.  Append, then read.  On a field without setter whose slice
    reads as [l], [hookListPropertyAppend] returns and the field then
    reads as [l] followed by the object decoded from the handle: the
    count is one more, the new object is found at the old count, under
    its own address, and every object of [l] where it was. *)
Theorem list_append_then_read grow unpackObject methods σ fold F ri si objp m s l :
  heap σ !! fold = Some F → fields m !! (gvalue F, ri) = Some s → holds m s l →
  (si < 0)%Z → (Z.of_nat (length l) + 1 < 2 ^ 31)%Z →
  ∃ m' s',
    hookListPropertyAppend grow unpackObject methods σ fold ri si objp m = LReturn tt m'
    ∧ fields m' !! (gvalue F, ri) = Some s'
    ∧ holds m' s' (l ++ [Some (unpackObject (engine F) objp)])
    ∧ hookListPropertyCount σ fold ri si m' = LReturn (Z.of_nat (length l) + 1) m'
    ∧ hookListPropertyAt σ fold ri si (Z.of_nat (length l)) m'
      = LReturn (objAddr (unpackObject (engine F) objp)) m'
    ∧ (∀ i o, l !! i = Some (Some o) →
         hookListPropertyAt σ fold ri si (Z.of_nat i) m' = LReturn (objAddr o) m').
Proof.
  intros HF Hs Hl Hsi Hlen.
  set (o := unpackObject (engine F) objp).
  destruct (append_holds grow m s l (Some o) Hl) as (Hnew & _ & Hfields & _).
  unfold hookListPropertyAppend, listSlice. rewrite HF, Hs, Hs. fold o.
  destruct (append grow s (Some o) m) as [s' m1] eqn:Happ. cbn [fst snd] in *.
  rewrite decide_False by lia.
  set (m' := mkLmem (arrays m1) (<[(gvalue F, ri) := s']> (fields m1))).
  assert (Hs' : fields m' !! (gvalue F, ri) = Some s') by apply lookup_insert_eq.
  assert (Hl' : holds m' s' (l ++ [Some o])) by done.
  exists m', s'. split; [done |]. split; [done |]. split; [done |]. split; [| split].
  - rewrite (Count_holds σ fold F ri si m' s' _ HF Hs' Hl').
    rewrite length_app. cbn. rewrite wrap32_small by lia. f_equal. lia.
  - rewrite (At_holds σ fold F ri si _ m' s' _ HF Hs' Hl').
    rewrite length_app. cbn. rewrite decide_True by lia.
    rewrite Nat2Z.id. rewrite lookup_app_r by lia. by rewrite Nat.sub_diag.
  - intros i x Hi. rewrite (At_holds σ fold F ri si _ m' s' _ HF Hs' Hl').
    rewrite length_app. cbn. apply lookup_lt_Some in Hi as Hlt.
    rewrite decide_True by lia. rewrite Nat2Z.id. rewrite lookup_app_l by done.
    by rewrite Hi.
Qed.

(** X19.  Clear.  On a field without setter whose slice reads as [l],
    [hookListPropertyClear] returns and leaves the field empty over the
    same backing array, with the capacity it had: the count is zero and
    every read is out of range.  The entries the slice had are set to
    nil in the array, so that any slice still looking at them reads nil,
    and no array is allocated or dropped. *)
Theorem list_clear_empties methods σ fold F ri si m s l :
  heap σ !! fold = Some F → fields m !! (gvalue F, ri) = Some s → holds m s l →
  (si < 0)%Z →
  ∃ m',
    hookListPropertyClear methods σ fold ri si m = LReturn tt m'
    ∧ fields m' !! (gvalue F, ri) = Some (mkSlice (arr s) (off s) 0 (cap s))
    ∧ hookListPropertyCount σ fold ri si m' = LReturn 0 m'
    ∧ (∀ index, hookListPropertyAt σ fold ri si index m' = LPanic indexOutOfRange m')
    ∧ holds m' s (replicate (length l) None)
    ∧ dom (arrays m') = dom (arrays m).
Proof.
  intros HF Hs Hl Hsi.
  destruct (clearEntries_holds m s l Hl) as (Hnil & Hempty & Hdom).
  unfold hookListPropertyClear, listSlice. rewrite HF, Hs, Hs.
  rewrite decide_False by lia.
  set (s0 := mkSlice (arr s) (off s) 0 (cap s)).
  set (m' := mkLmem (arrays (clearEntries m s)) (<[(gvalue F, ri) := s0]> (fields (clearEntries m s)))).
  assert (Hs' : fields m' !! (gvalue F, ri) = Some s0) by apply lookup_insert_eq.
  assert (Hl' : holds m' s0 []) by done.
  exists m'. split; [done |]. split; [done |]. split; [| split; [| split]].
  - by rewrite (Count_holds σ fold F ri si m' s0 [] HF Hs' Hl').
  - intros index. rewrite (At_holds σ fold F ri si index m' s0 [] HF Hs' Hl').
    cbn. by rewrite decide_False by lia.
  - rewrite (holds_length m s l Hl). done.
  - done.
Qed.

(** X20.  With a setter, the hooks leave the field alone.
    [hookListPropertyAppend] calls the setter on a slice that reads as
    the old entries followed by the new object, in a memory where the
    field still holds the old slice and still reads as before;
    [hookListPropertyClear] calls it on the empty slice over the same
    array, in the memory as it found it, no entry set to nil.  What the
    field holds afterwards is what the setter makes of it. *)
Theorem list_setter_gets_the_new_slice grow unpackObject methods σ fold F ri si objp m s l setter :
  heap σ !! fold = Some F → fields m !! (gvalue F, ri) = Some s → holds m s l →
  (0 ≤ si)%Z → methods si = Some setter →
  (∃ s' m1,
     hookListPropertyAppend grow unpackObject methods σ fold ri si objp m = setter s' m1
     ∧ fields m1 = fields m ∧ holds m1 s l
     ∧ holds m1 s' (l ++ [Some (unpackObject (engine F) objp)]))
  ∧ hookListPropertyClear methods σ fold ri si m
    = setter (mkSlice (arr s) (off s) 0 (cap s)) m.
Proof.
  intros HF Hs Hl Hsi Hm. split.
  - set (o := unpackObject (engine F) objp).
    destruct (append_holds grow m s l (Some o) Hl) as (Hnew & Hold & Hfields & _).
    unfold hookListPropertyAppend, listSlice. rewrite HF, Hs, Hs. fold o.
    destruct (append grow s (Some o) m) as [s' m1] eqn:Happ. cbn [fst snd] in *.
    rewrite decide_True by done. unfold callSetter. rewrite Hm.
    by exists s', m1.
  - unfold hookListPropertyClear, listSlice. rewrite HF, Hs, Hs.
    rewrite decide_True by done. unfold callSetter. by rewrite Hm.
Qed.

(** X21.  The reads are checked and change nothing.  On a field whose
    slice reads as [l], [hookListPropertyAt] gives the address of the
    object at the index; it panics, out of range, for an index that is
    negative or not below the length, and with a nil dereference for an
    entry that is nil; [hookListPropertyCount] gives the length.  On a
    value without such a field both panic.  The memory is in each case
    as it was. *)
Theorem list_reads_are_checked σ fold F ri si index m :
  heap σ !! fold = Some F →
  (∀ s l, fields m !! (gvalue F, ri) = Some s → holds m s l →
     hookListPropertyAt σ fold ri si index m
     = (if decide (0 ≤ index < Z.of_nat (length l))%Z then
          match l !! Z.to_nat index with
          | Some (Some o) => LReturn (objAddr o) m
          | _ => LPanic nilDeref m
          end
        else LPanic indexOutOfRange m)
     ∧ hookListPropertyCount σ fold ri si m = LReturn (wrap32 (Z.of_nat (length l))) m)
  ∧ (fields m !! (gvalue F, ri) = None →
     hookListPropertyAt σ fold ri si index m = LPanic noObjectSlice m
     ∧ hookListPropertyCount σ fold ri si m = LPanic noObjectSlice m).
Proof.
  intros HF. split.
  - intros s l Hs Hl. split.
    + by apply (At_holds σ fold F ri si index m s l).
    + by apply (Count_holds σ fold F ri si m s l).
  - intros Hnone. unfold hookListPropertyAt, hookListPropertyCount, listSlice.
    by rewrite HF, Hnone.
Qed.
(** * Method calls *)

(** X22.  The arguments of a method call.  On a fold that has its
    engine, when the slots after the first decode to values of which
    each has the type of its parameter or converts to it, and the
    parameters are no more than [MaxParams], [hookGoValueCallMethod]
    calls the method once, in the state it found, on those values in
    the order of the slots, the converted ones in the place of the ones
    decoded; what follows is the packing of the results. *)
Theorem method_call_decodes_arguments {DV}
    (unpackDataValue : DV → option enginep → M (option rvalue))
    (packDataValue : rvalue → option enginep → valueOwner → M DV)
    convert goSyntax MaxParams methods ep f F e ri args method ps qs σ :
  heap σ !! f = Some F → engine F = Some e → methods (gvalue F) ri = Some method →
  Forall3 (converts convert) ps (methodIn method) qs →
  (∀ k p, ps !! k = Some p → unpackDataValue (args (S k)) (Some e) σ = Return (Some p) σ) →
  (length ps ≤ MaxParams)%nat →
  hookGoValueCallMethod unpackDataValue packDataValue convert goSyntax MaxParams
    methods ep f ri args σ
  = (let* result := methodCall method qs in
     packOutcome packDataValue MaxParams (Some e) result) σ.
Proof.
  intros HF He Hm Hdec Hu Hmax.
  rewrite (callMethod_resolved _ _ _ _ _ methods ep f F e ri args method σ HF He Hm).
  rewrite (bind_return _ _ σ qs σ); [done |].
  by apply (unpackParams_decoded _ _ _ _ (Some e) _ args σ ps).
Qed.

(** X23.  An argument that does not convert.  When the arguments before
    it are decoded and an argument of another type than its parameter
    makes [Convert] panic, the hook panics in the state it found and the
    method is not called.  For the panic of [reflect] for a conversion,
    a string that starts with [reflect.Value.Convert: ], the message
    names the parameter by its index from zero, the method, the two
    types and the value; any other panic keeps its own text. *)
Theorem method_call_reports_conversion {DV}
    (unpackDataValue : DV → option enginep → M (option rvalue))
    (packDataValue : rvalue → option enginep → valueOwner → M DV)
    convert goSyntax MaxParams methods ep f F e ri args method
    ps argts qs p argt rest pv σ :
  heap σ !! f = Some F → engine F = Some e → methods (gvalue F) ri = Some method →
  methodIn method = argts ++ argt :: rest →
  Forall3 (converts convert) ps argts qs →
  (∀ k p', (ps ++ [p]) !! k = Some p' →
     unpackDataValue (args (S k)) (Some e) σ = Return (Some p') σ) →
  (length ps ≤ MaxParams)%nat →
  typeOf p ≠ argt → convert p argt = inr pv →
  hookGoValueCallMethod unpackDataValue packDataValue convert goSyntax MaxParams
    methods ep f ri args σ
  = Panicked
      (match pv with
       | StringPanic s =>
           if String.prefix "reflect.Value.Convert: " s
           then "cannot convert parameter " +:+ formatInt (length ps)
                +:+ " of method " +:+ methodName method
                +:+ " from " +:+ nameOf (typeOf p) +:+ " to " +:+ nameOf argt
                +:+ " (got " +:+ goSyntax p +:+ ")"
           else s
       | ErrorPanic text => text
       end) σ.
Proof.
  intros HF He Hm Hin Hdec Hu Hmax Ht Hc.
  rewrite (callMethod_resolved _ _ _ _ _ methods ep f F e ri args method σ HF He Hm).
  apply bind_panicked. rewrite Hin.
  apply (unpackParams_stopped _ convert goSyntax MaxParams (Some e) _ args σ ps argts qs);
    [done | | done |].
  - intros k p' Hk. apply Hu. rewrite lookup_app_l; [done |]. by apply lookup_lt_Some in Hk.
  - cbn [Nat.add].
    rewrite (unpackParam_failed _ convert goSyntax MaxParams (Some e) _ args _ argt p σ);
      [| | done].
    + rewrite Hc. destruct pv as [s | text]; [| done].
      fold convertPrefix. by destruct (String.prefix convertPrefix s).
    + apply Hu. rewrite lookup_app_r by lia. by rewrite Nat.sub_diag.
Qed.

(** X24.  The bounds of a method call.  A method with more parameters
    than [MaxParams] is never called: once the first [MaxParams]
    arguments and the next one are decoded, the hook panics with an
    index out of range, in the state it found.  A method that returns
    two results or more, and more than [MaxParams], has been called when
    the hook panics with [function has too many results]: the state is
    the one the method left, and nothing is packed. *)
Theorem method_call_bounds {DV}
    (unpackDataValue : DV → option enginep → M (option rvalue))
    (packDataValue : rvalue → option enginep → valueOwner → M DV)
    convert goSyntax MaxParams methods ep f F e ri args method σ :
  heap σ !! f = Some F → engine F = Some e → methods (gvalue F) ri = Some method →
  (∀ ps argts qs p argt q rest,
     methodIn method = argts ++ argt :: rest → length argts = MaxParams →
     Forall3 (converts convert) ps argts qs → converts convert p argt q →
     (∀ k p', (ps ++ [p]) !! k = Some p' →
        unpackDataValue (args (S k)) (Some e) σ = Return (Some p') σ) →
     hookGoValueCallMethod unpackDataValue packDataValue convert goSyntax MaxParams
       methods ep f ri args σ
     = Panicked indexOutOfRange σ)
  ∧ (∀ ps qs result σ',
       Forall3 (converts convert) ps (methodIn method) qs →
       (∀ k p, ps !! k = Some p →
          unpackDataValue (args (S k)) (Some e) σ = Return (Some p) σ) →
       (length ps ≤ MaxParams)%nat →
       methodCall method qs σ = Return result σ' →
       (2 ≤ length result)%nat → (MaxParams < length result)%nat →
       hookGoValueCallMethod unpackDataValue packDataValue convert goSyntax MaxParams
         methods ep f ri args σ
       = Panicked "function has too many results" σ').
Proof.
  intros HF He Hm. split.
  - intros ps argts qs p argt q rest Hin Hlen Hdec Hc Hu.
    rewrite (callMethod_resolved _ _ _ _ _ methods ep f F e ri args method σ HF He Hm).
    apply bind_panicked. rewrite Hin.
    assert (Hps : length ps = MaxParams).
    { apply Forall3_length_lm in Hdec as Hl1. lia. }
    apply (unpackParams_stopped _ convert goSyntax MaxParams (Some e) _ args σ ps argts qs);
      [done | | cbn; lia |].
    + intros k p' Hk. apply Hu. rewrite lookup_app_l; [done |]. by apply lookup_lt_Some in Hk.
    + cbn [Nat.add].
      apply (unpackParam_beyond _ convert goSyntax MaxParams (Some e) _ args _ argt p q σ);
        [| done | lia].
      apply Hu. rewrite lookup_app_r by lia. by rewrite Nat.sub_diag.
  - intros ps qs result σ' Hdec Hu Hmax Hcall H2 Hmany.
    rewrite (callMethod_resolved _ _ _ _ _ methods ep f F e ri args method σ HF He Hm).
    rewrite (bind_return _ _ σ qs σ)
      by (by apply (unpackParams_decoded _ _ _ _ (Some e) _ args σ ps)).
    rewrite (bind_return _ _ σ result σ' Hcall).
    unfold packOutcome. destruct result as [| r1 [| r2 result]]; cbn in H2; [lia | lia |].
    by rewrite decide_True.
Qed.
(** * The further properties on the scenarios *)

Lemma aliasTwice_reachable : reachable (final (run aliasTwice oneEngine)).
Proof.
  apply (run_reachable aliasTwice oneEngine); [apply oneEngine_reachable |].
  vm_compute. reflexivity.
Qed.

Lemma wrappedOnce_reachable : reachable wrappedOnce.
Proof.
  apply (run_reachable [Wrap 1 11%N 0%nat structPtr jsOwner] oneEngine);
    [apply oneEngine_reachable |].
  vm_compute. reflexivity.
Qed.

Lemma onePending_reachable : reachable onePending.
Proof.
  apply (run_reachable [TypeNew 100%N 21%N (mkTypeSpec 5 Struct)] oneEngine);
    [apply oneEngine_reachable |].
  vm_compute. reflexivity.
Qed.

Lemma twoEngines_reachable : reachable twoEngines.
Proof.
  apply reach_start.
  - intros e E HE. apply lookup_insert_Some in HE as [[_ <-] | [_ HE]]; [done |].
    apply lookup_singleton_Some in HE as [_ <-]. done.
  - intros a e Ha. apply lookup_insert_Some in Ha as [[_ <-] | [_ Ha]].
    + by rewrite lookup_insert_eq.
    + apply lookup_singleton_Some in Ha as [_ <-].
      rewrite lookup_insert_ne by done. by rewrite lookup_singleton_eq.
Qed.

Lemma reachable_chains_end_witness :
  NoDup (foldChain (final (run aliasTwice oneEngine)) 0%nat structPtr)
  ∧ ∃ q, lastFold (size (heap (final (run aliasTwice oneEngine)))) 0%nat
           (final (run aliasTwice oneEngine))
         = Return q (final (run aliasTwice oneEngine)).
Proof.
  destruct (reachable_chains_end _ aliasTwice_reachable) as [Hchains Hany].
  split.
  - destruct (Hchains 0%nat (mkEngine 7%N {[ structPtr := 0%nat ]} false) structPtr)
      as (_ & Hnd & _); [vm_compute; reflexivity | exact Hnd].
  - destruct (Hany 0%nat (mkFold (Some 0%nat) structPtr 11%N None None (Some 2%nat) jsOwner))
      as (q & Q & Hrun & _); [vm_compute; reflexivity |].
    exists q. exact Hrun.
Defined.

Lemma pending_folds_are_apart_witness :
  ∃ F, heap onePending !! 0%nat = Some F ∧ engine F = None ∧ next F = None.
Proof.
  destruct (pending_folds_are_apart onePending 0%nat onePending_reachable)
    as (F & HF & He & _ & Hn & _).
  - apply (bool_decide_unpack _). vm_compute. exact I.
  - exists F. split; [exact HF |]. split; [exact He | exact Hn].
Defined.

Lemma fold_identity_is_kept_witness :
  ∃ F', heap (final (run [ Wrap 1 12%N 0%nat structPtr cppOwner;
                           Wrap 1 13%N 0%nat structPtr cppOwner;
                           Destroy 7%N 0%nat ] wrappedOnce)) !! 0%nat = Some F'
        ∧ cvalue F' = 11%N ∧ owner F' = jsOwner.
Proof.
  destruct (fold_identity_is_kept 0%nat
              (mkFold (Some 0%nat) structPtr 11%N None None None jsOwner)
              [ Wrap 1 12%N 0%nat structPtr cppOwner;
                Wrap 1 13%N 0%nat structPtr cppOwner;
                Destroy 7%N 0%nat ] wrappedOnce)
    as (F' & HF' & _ & Hc & _ & Ho & _); [vm_compute; reflexivity |].
  exists F'. split; [exact HF' |]. split; [exact Hc | exact Ho].
Defined.

Lemma second_destroy_is_caught_witness :
  ∃ σ1 msg σ2,
    hookGoValueDestroyed 7%N 0%nat onePending = Return tt σ1
    ∧ hookGoValueDestroyed 7%N 0%nat σ1 = Panicked msg σ2.
Proof.
  destruct (second_destroy_is_caught 7%N 0%nat
              (mkFold None structPtr 21%N (Some 5%nat) None None jsOwner) onePending)
    as (σ1 & msg & σ2 & H1 & _ & H2 & _).
  - vm_compute. reflexivity.
  - left. split; [reflexivity |]. apply (bool_decide_unpack _). vm_compute. exact I.
  - exists σ1, msg, σ2. split; [exact H1 | exact H2].
Defined.

Lemma twoAliases_reachable : reachable twoAliases.
Proof.
  apply (run_reachable [ Wrap 1 11%N 0%nat structPtr jsOwner;
                         Wrap 1 12%N 0%nat structPtr cppOwner ] oneDestroyedEngine).
  - apply reach_start.
    + intros e E HE. apply lookup_singleton_Some in HE as [_ <-]. done.
    + intros a e Ha. apply lookup_singleton_Some in Ha as [<- <-].
      by rewrite lookup_singleton_eq.
  - vm_compute. reflexivity.
Qed.

Lemma second_destroy_goes_unnoticed_witness :
  ∃ σ1 σ2,
    hookGoValueDestroyed 7%N 1%nat twoAliases = Return tt σ1
    ∧ hookGoValueDestroyed 7%N 1%nat σ1 = Return tt σ2
    ∧ valuesAlive σ2 = valuesAlive twoAliases - 2.
Proof.
  destruct (second_destroy_goes_unnoticed 7%N 1%nat
              (mkFold (Some 0%nat) structPtr 12%N None (Some 0%nat) None cppOwner)
              0%nat 0%nat (mkEngine 7%N {[ structPtr := 0%nat ]} true) 0%nat twoAliases
              twoAliases_reachable)
    as (σ1 & σ2 & H1 & H2 & _ & _ & Hc); try (vm_compute; reflexivity).
  exists σ1, σ2. split; [exact H1 |]. split; [exact H2 | exact Hc].
Defined.

Lemma wrap_returns_chained_handle_witness :
  ∃ f F, f ∈ foldChain wrappedOnce 0%nat structPtr
         ∧ heap wrappedOnce !! f = Some F ∧ cvalue F = 11%N.
Proof.
  destruct (wrap_returns_chained_handle 1 11%N 0%nat structPtr jsOwner oneEngine
              11%N wrappedOnce oneEngine_reachable)
    as (f & F & Hin & HF & Hc & _); [vm_compute; reflexivity |].
  exists f, F. split; [exact Hin |]. split; [exact HF | exact Hc].
Defined.


Lemma lock_count_is_locks_less_unlocks_witness :
  ∃ w', session (replicate 3 (Lock 5) ++ replicate 2 (Unlock 5)) (mkWorld oneEngine [] [])
        = Returns w'
        ∧ guiLock (mem w') = 1.
Proof.
  destruct (lock_count_is_locks_less_unlocks 5 3 2 (mkWorld oneEngine [] [])) as [Hok _].
  - reflexivity.
  - vm_compute. discriminate.
  - vm_compute. reflexivity.
  - destruct Hok as (w' & Hs & Hl & _); [vm_compute; discriminate |].
    exists w'. split; [exact Hs | exact Hl].
Defined.


Lemma marshalled_panic_is_raised_in_the_hook_witness :
  ∃ w1 w2,
    gui 5 (mkClosure 1 unlockBody) (mkWorld oneEngine [] []) = Blocks w1
    ∧ hookIdleTimer 1 w1 = Panics "qml.Unlock called without lock being held" w2
    ∧ trace w2 = [ran 1 1].
Proof.
  destruct (marshalled_panic_is_raised_in_the_hook 5 (mkClosure 1 unlockBody)
              (mkWorld oneEngine [] []) "qml.Unlock called without lock being held"
              (set_log [idleTimerStart] (set_hookWaiting 1 oneEngine)))
    as (w1 & Hg & Hh & _).
  - discriminate.
  - discriminate.
  - reflexivity.
  - vm_compute. reflexivity.
  - exists w1. eexists. split; [exact Hg |]. split; [exact Hh | reflexivity].
Defined.


Lemma changed_checks_the_field_witness :
  Changed (λ m, (map_to_list m).*2) (λ _ s, elements s) 1 structPtr 1000 16 992 8
    (mkWorld oneEngine [] [])
  = Panics "provided field is not a member of the given value" (mkWorld oneEngine [] []).
Proof.
  destruct (changed_checks_the_field (λ m, (map_to_list m).*2) (λ _ s, elements s)
              1 structPtr 1000 16 992 8 (mkWorld oneEngine [] [])) as (_ & Hout & _).
  - vm_compute. split; [discriminate | reflexivity].
  - vm_compute. split; [discriminate | reflexivity].
  - vm_compute. split; discriminate.
  - vm_compute. discriminate.
  - apply Hout; [discriminate |]. intros [H _]. vm_compute in H. by apply H.
Defined.

Lemma aliasedAcrossEngines_reachable : reachable aliasedAcrossEngines.
Proof.
  apply (run_reachable [ Wrap 1 11%N 0%nat structPtr jsOwner;
                         Wrap 1 12%N 1%nat structPtr jsOwner ] twoEngines);
    [apply twoEngines_reachable |].
  vm_compute. reflexivity.
Qed.

Lemma changed_signals_every_chain_witness :
  ∃ w' deferred,
    Changed (λ m, (map_to_list m).*2) (λ _ s, elements s) 1 structPtr 1000 16 1008 8
      (mkWorld aliasedAcrossEngines [] []) = Returns w'
    ∧ log (mem w')
      = log aliasedAcrossEngines
        ++ ((map_to_list (engines aliasedAcrossEngines)).*2 ≫= λ e,
              signalOf (heap aliasedAcrossEngines) structPtr 8
                <$> foldChain aliasedAcrossEngines e structPtr)
        ++ deferred.
Proof.
  destruct (changed_signals_every_chain (λ m, (map_to_list m).*2) (λ _ s, elements s)
              1 (mkWorld aliasedAcrossEngines [] []) structPtr 1000 16 8 8)
    as (w' & deferred & Hrun & Hlog & _).
  - done.
  - done.
  - apply aliasedAcrossEngines_reachable.
  - reflexivity.
  - discriminate.
  - vm_compute. split; [discriminate | reflexivity].
  - vm_compute. discriminate.
  - exists w', deferred. split; [exact Hrun | exact Hlog].
Defined.

Lemma onePendingTwoEngines_reachable : reachable onePendingTwoEngines.
Proof.
  apply (run_reachable [TypeNew 100%N 21%N (mkTypeSpec 5 Struct)] twoEngines);
    [apply twoEngines_reachable |].
  vm_compute. reflexivity.
Qed.

Lemma changed_defers_once_per_engine_witness :
  ∃ w' immediate deferred,
    Changed (λ m, (map_to_list m).*2) (λ _ s, elements s) 1 structPtr 1000 16 1008 8
      (mkWorld onePendingTwoEngines [] []) = Returns w'
    ∧ log (mem w') = log onePendingTwoEngines ++ immediate ++ deferred
    ∧ length immediate = 0%nat
    ∧ length deferred = 2%nat.
Proof.
  destruct (changed_defers_once_per_engine (λ m, (map_to_list m).*2) (λ _ s, elements s)
              1 (mkWorld onePendingTwoEngines [] []) structPtr 1000 16 8 8)
    as (w' & immediate & deferred & Hrun & Hlog & Hi & Hd & _).
  - done.
  - done.
  - apply onePendingTwoEngines_reachable.
  - reflexivity.
  - discriminate.
  - vm_compute. split; [discriminate | reflexivity].
  - vm_compute. discriminate.
  - exists w', immediate, deferred. split; [exact Hrun |]. split; [exact Hlog |].
    split; [rewrite Hi | rewrite Hd]; vm_compute; reflexivity.
Defined.


Lemma oneObject_holds :
  holds oneObject (mkSlice 0 0 1 2) [Some (mkObject (Some 0%nat) 31%N)].
Proof.
  exists [Some (mkObject (Some 0%nat) 31%N); None].
  split; [vm_compute; reflexivity |]. cbn. split; [lia |]. split; [lia | done].
Qed.

Lemma list_append_then_read_witness :
  ∃ m',
    hookListPropertyAppend (λ n, 2 * n)%nat mkObject (λ _, None) wrappedOnce 0%nat 0 (-1)
      32%N oneObject = LReturn tt m'
    ∧ hookListPropertyCount wrappedOnce 0%nat 0 (-1) m' = LReturn 2 m'
    ∧ hookListPropertyAt wrappedOnce 0%nat 0 (-1) 1 m' = LReturn 32%N m'
    ∧ hookListPropertyAt wrappedOnce 0%nat 0 (-1) 0 m' = LReturn 31%N m'.
Proof.
  destruct (list_append_then_read (λ n, 2 * n)%nat mkObject (λ _, None) wrappedOnce 0%nat
              (mkFold (Some 0%nat) structPtr 11%N None None None jsOwner) 0 (-1) 32%N
              oneObject (mkSlice 0 0 1 2) [Some (mkObject (Some 0%nat) 31%N)])
    as (m' & s' & Hrun & _ & _ & Hcount & Hlast & Hold).
  - vm_compute. reflexivity.
  - vm_compute. reflexivity.
  - apply oneObject_holds.
  - reflexivity.
  - vm_compute. reflexivity.
  - exists m'. split; [exact Hrun |]. split; [exact Hcount |]. split; [exact Hlast |].
    apply (Hold 0%nat (mkObject (Some 0%nat) 31%N)). reflexivity.
Defined.

Lemma list_clear_empties_witness :
  ∃ m',
    hookListPropertyClear (λ _, None) wrappedOnce 0%nat 0 (-1) oneObject = LReturn tt m'
    ∧ hookListPropertyCount wrappedOnce 0%nat 0 (-1) m' = LReturn 0 m'
    ∧ hookListPropertyAt wrappedOnce 0%nat 0 (-1) 0 m' = LPanic indexOutOfRange m'.
Proof.
  destruct (list_clear_empties (λ _, None) wrappedOnce 0%nat
              (mkFold (Some 0%nat) structPtr 11%N None None None jsOwner) 0 (-1)
              oneObject (mkSlice 0 0 1 2) [Some (mkObject (Some 0%nat) 31%N)])
    as (m' & Hrun & _ & Hcount & Hat & _).
  - vm_compute. reflexivity.
  - vm_compute. reflexivity.
  - apply oneObject_holds.
  - reflexivity.
  - exists m'. split; [exact Hrun |]. split; [exact Hcount | apply Hat].
Defined.

Lemma list_setter_gets_the_new_slice_witness :
  hookListPropertyClear (λ i, if decide (i = 4) then Some storingSetter else None)
    wrappedOnce 0%nat 0 4 oneObject
  = storingSetter (mkSlice 0 0 0 2) oneObject.
Proof.
  destruct (list_setter_gets_the_new_slice (λ n, 2 * n)%nat mkObject
              (λ i, if decide (i = 4) then Some storingSetter else None) wrappedOnce 0%nat
              (mkFold (Some 0%nat) structPtr 11%N None None None jsOwner) 0 4 32%N
              oneObject (mkSlice 0 0 1 2) [Some (mkObject (Some 0%nat) 31%N)] storingSetter)
    as [_ Hclear].
  - vm_compute. reflexivity.
  - vm_compute. reflexivity.
  - apply oneObject_holds.
  - discriminate.
  - reflexivity.
  - exact Hclear.
Defined.

Lemma list_reads_are_checked_witness :
  hookListPropertyAt wrappedOnce 0%nat 0 (-1) 1 oneObject = LPanic indexOutOfRange oneObject
  ∧ hookListPropertyAt wrappedOnce 0%nat 7 (-1) 0 oneObject = LPanic noObjectSlice oneObject.
Proof.
  split.
  - destruct (list_reads_are_checked wrappedOnce 0%nat
                (mkFold (Some 0%nat) structPtr 11%N None None None jsOwner) 0 (-1) 1 oneObject)
      as [Hread _]; [vm_compute; reflexivity |].
    destruct (Hread (mkSlice 0 0 1 2) [Some (mkObject (Some 0%nat) 31%N)]) as [Hat _].
    + vm_compute. reflexivity.
    + apply oneObject_holds.
    + exact Hat.
  - destruct (list_reads_are_checked wrappedOnce 0%nat
                (mkFold (Some 0%nat) structPtr 11%N None None None jsOwner) 7 (-1) 0 oneObject)
      as [_ Hnone]; [vm_compute; reflexivity |].
    destruct Hnone as [Hat _]; [vm_compute; reflexivity | exact Hat].
Defined.

Lemma method_call_decodes_arguments_witness :
  hookGoValueCallMethod plainUnpack plainPack numberConvertOrPanic (λ _, "?") 10 scaleOnly
    7%N 0%nat 0
    (slots [mkValue TBool PNil; mkValue TInt (PScalar 3); mkValue TFloat64 (PScalar 2)])
    wrappedOnce
  = Return (ManyResults [mkValue TInt64 (PScalar 3); mkValue TFloat64 (PScalar 2)])
           wrappedOnce.
Proof.
  rewrite (method_call_decodes_arguments plainUnpack plainPack numberConvertOrPanic (λ _, "?")
             10 scaleOnly 7%N 0%nat
             (mkFold (Some 0%nat) structPtr 11%N None None None jsOwner) 0%nat 0
             (slots [mkValue TBool PNil; mkValue TInt (PScalar 3); mkValue TFloat64 (PScalar 2)])
             scaleMethod
             [mkValue TInt (PScalar 3); mkValue TFloat64 (PScalar 2)]
             [mkValue TInt64 (PScalar 3); mkValue TFloat64 (PScalar 2)] wrappedOnce).
  - reflexivity.
  - vm_compute. reflexivity.
  - reflexivity.
  - reflexivity.
  - repeat constructor.
  - intros [| [| k]] p Hk; cbn in Hk; [| | done]; injection Hk as <-; reflexivity.
  - cbn. lia.
Defined.

Lemma method_call_reports_conversion_witness :
  hookGoValueCallMethod plainUnpack plainPack numberConvertOrPanic (λ _, "?") 10 scaleOnly
    7%N 0%nat 0
    (slots [mkValue TBool PNil; mkValue TInt (PScalar 3); mkValue TString (PString "two")])
    wrappedOnce
  = Panicked "cannot convert parameter 1 of method Scale from string to float64 (got ?)"
             wrappedOnce.
Proof.
  apply (method_call_reports_conversion plainUnpack plainPack numberConvertOrPanic (λ _, "?")
           10 scaleOnly 7%N 0%nat
           (mkFold (Some 0%nat) structPtr 11%N None None None jsOwner) 0%nat 0
           (slots [mkValue TBool PNil; mkValue TInt (PScalar 3); mkValue TString (PString "two")])
           scaleMethod
           [mkValue TInt (PScalar 3)] [TInt64] [mkValue TInt64 (PScalar 3)]
           (mkValue TString (PString "two")) TFloat64 []
           (StringPanic "reflect.Value.Convert: value cannot be converted") wrappedOnce).
  - vm_compute. reflexivity.
  - reflexivity.
  - reflexivity.
  - reflexivity.
  - repeat constructor.
  - intros [| [| k]] p Hk; cbn in Hk; [| | done]; injection Hk as <-; reflexivity.
  - cbn. lia.
  - discriminate.
  - reflexivity.
Defined.

Lemma method_call_bounds_witness :
  hookGoValueCallMethod plainUnpack plainPack numberConvertOrPanic (λ _, "?") 1 scaleOnly
    7%N 0%nat 0
    (slots [mkValue TBool PNil; mkValue TInt (PScalar 3); mkValue TFloat64 (PScalar 2)])
    wrappedOnce
  = Panicked indexOutOfRange wrappedOnce.
Proof.
  destruct (method_call_bounds plainUnpack plainPack numberConvertOrPanic (λ _, "?")
              1 scaleOnly 7%N 0%nat
              (mkFold (Some 0%nat) structPtr 11%N None None None jsOwner) 0%nat 0
              (slots [mkValue TBool PNil; mkValue TInt (PScalar 3); mkValue TFloat64 (PScalar 2)])
              scaleMethod wrappedOnce) as [Hmany _].
  - vm_compute. reflexivity.
  - reflexivity.
  - reflexivity.
  - apply (Hmany [mkValue TInt (PScalar 3)] [TInt64] [mkValue TInt64 (PScalar 3)]
             (mkValue TFloat64 (PScalar 2)) TFloat64 (mkValue TFloat64 (PScalar 2)) []).
    + reflexivity.
    + reflexivity.
    + repeat constructor.
    + reflexivity.
    + intros [| [| k]] p Hk; cbn in Hk; [| | done]; injection Hk as <-; reflexivity.
Defined.
